(** * The 3D asset browser: state machine, filter/sort engine, compression
      job and model normalisation

    A shallow embedding of the TypeScript sources
    - [features/asset-pipeline/types.ts] and [lib/simulateCompression],
    - the reducer and the job wiring of [App.tsx],
    - [hooks/useAssetFilterSort], [hooks/useCompressionJob],
    - [Viewer/GLTFAsset.tsx],
    - the single-file variant of the application, which inlines its own
      list filter, job starter and [GLTFAsset],
    followed by the properties the specification states about them. *)

From Stdlib Require Import ZArith QArith Qminmax Lia String Ascii List Bool.
From Stdlib Require Import Sorting.Sorted Sorting.Permutation Floats.SpecFloat.
From Stdlib Require Import DecimalString DecimalZ DecimalPos.
From stdpp Require Import gmap strings list.

Set Warnings "-register-all".

Local Open Scope string_scope.
Local Open Scope Z_scope.

(** ** JavaScript numbers

    A JavaScript number is an IEEE-754 binary64 value.  Every finite one is a
    dyadic rational [mant * 2 ^ expo]; an exactly representable one has
    [|mant| < 2 ^ 53] for a suitable exponent. *)

Record Number := { mant : Z; expo : Z }.

Definition Number_of_Z (n : Z) : Number := {| mant := n; expo := 0 |}.

(** Rounding of the exact value [m * 2 ^ e] to 53 significant bits, to
    nearest, ties to even: the rounding every binary64 operation applies to
    its exact result (exponent range aside, which the values below never
    leave). *)
Definition round_nearest_even (m e : Z) : Number :=
  let a := Z.abs m in
  let k := Z.log2 a + 1 - 53 in
  if k <=? 0 then {| mant := m; expo := e |}
  else
    let q := a / 2 ^ k in
    let r := a mod 2 ^ k in
    let half := 2 ^ (k - 1) in
    let q' := if (half <? r) || ((r =? half) && Z.odd q) then q + 1 else q in
    {| mant := Z.sgn m * q'; expo := e + k |}.

(** The value of a decimal literal of the source text, such as [0.7]: the
    binary64 number nearest to the rational it denotes.  The quotient is
    taken with three guard bits and a sticky bit, then rounded. *)
Definition Number_literal (q : Q) : Number :=
  match Qnum q with
  | Z0 => Number_of_Z 0
  | Zpos num | Zneg num =>
      let den := Zpos (Qden q) in
      let s := 56 + Z.log2 den - Z.log2 (Zpos num) in
      let n := Zpos num * 2 ^ s in
      let sticky := if n mod den =? 0 then 0 else 1 in
      round_nearest_even (Z.sgn (Qnum q) * (2 * (n / den) + sticky)) (- s - 1)
  end.

(** [x * y] on numbers. *)
Definition Number_mul (x y : Number) : Number :=
  round_nearest_even (mant x * mant y) (expo x + expo y).

(** [Math.round]: the nearest integer, a tie going towards +infinity. *)
Definition Math_round (x : Number) : Z :=
  if 0 <=? expo x then mant x * 2 ^ expo x
  else (mant x + 2 ^ (- expo x - 1)) / 2 ^ (- expo x).

(** [Math.max] on integer-valued numbers. *)
Definition Math_max (x y : Z) : Z := Z.max x y.

(** The real-number reading of "round": half up, on the exact rational
    [n * num / den]. *)
Definition round_half_up (n : Z) (q : Q) : Z :=
  (2 * n * Qnum q + Zpos (Qden q)) / (2 * Zpos (Qden q)).

(** The same operations in the Standard Library's executable model of
    IEEE-754 arithmetic, for comparison: the binary64 of an integer, the
    literal as the correctly rounded quotient of its numerator and
    denominator, and the product. *)
Definition binary64_of_Z (n : Z) : spec_float :=
  binary_normalize 53 1024 n 0 false.

Definition binary64_literal (q : Q) : spec_float :=
  SFdiv 53 1024 (binary64_of_Z (Qnum q)) (binary64_of_Z (Zpos (Qden q))).

Definition binary64_mul (x y : spec_float) : spec_float := SFmul 53 1024 x y.

(** Whether a binary64 value and a [Number] are the same number. *)
Definition same_number (f : spec_float) (x : Number) : bool :=
  match f with
  | S754_zero _ => mant x =? 0
  | S754_finite s m e =>
      let lo := Z.min e (expo x) in
      (if s then Zneg m else Zpos m) * 2 ^ (e - lo) =? mant x * 2 ^ (expo x - lo)
  | _ => false
  end.

(** ** [types.ts] *)

Inductive LOD := HIGH | MED | LOW.

Inductive Category := film | character | environment | product.

Inductive Shape := box | sphere | torus | cylinder.

(** [polyCount] and [sizeMB] are integer-valued numbers (integers below
    [2 ^ 53] are numbers): they are in the catalogue, and
    [simulateCompression] only ever stores a [Math.round]. *)
Record Asset := {
  id : string;
  name : string;
  polyCount : Z;
  sizeMB : Z;
  tags : list string;
  createdAt : string;
  shape : Shape;
  color : option string;
  category : option Category;
  gltfUrl : option string
}.

(** The string a [Category] value is at run time. *)
Definition Category_string (c : Category) : string :=
  match c with
  | film => "film"
  | character => "character"
  | environment => "environment"
  | product => "product"
  end.

(** ** The catalogue *)

Definition INITIAL_ASSETS : list Asset :=
  [ {| id := "1"; name := "Hero Shield"; polyCount := 820000; sizeMB := 180;
       tags := ["prop"; "hero"]; createdAt := "2025-09-01T12:00:00Z";
       shape := cylinder; color := Some "#e11d48"; category := Some film;
       gltfUrl := None |};
    {| id := "2"; name := "Explorer Helmet"; polyCount := 1350000;
       sizeMB := 420; tags := ["helmet"; "character"];
       createdAt := "2025-08-21T09:00:00Z"; shape := sphere;
       color := Some "#f59e0b"; category := Some character;
       gltfUrl := Some "/models/helmet.glb" |};
    {| id := "3"; name := "City Billboard"; polyCount := 240000; sizeMB := 95;
       tags := ["environment"; "marketing"];
       createdAt := "2025-07-15T17:30:00Z"; shape := box;
       color := Some "#6366f1"; category := Some environment;
       gltfUrl := None |};
    {| id := "4"; name := "Studio Lamp"; polyCount := 300000; sizeMB := 120;
       tags := ["prop"; "lighting"]; createdAt := "2025-05-25T08:00:00Z";
       shape := torus; color := Some "#fbbf24"; category := Some product;
       gltfUrl := None |} ].

(** ** [simulateCompression] *)

Definition lodFactor (lod : LOD) : Number :=
  match lod with
  | HIGH => Number_literal 0.7
  | MED => Number_literal 0.4
  | LOW => Number_literal 0.2
  end.

Definition texFactor (lod : LOD) : Number :=
  match lod with
  | HIGH => Number_literal 0.8
  | MED => Number_literal 0.5
  | LOW => Number_literal 0.25
  end.

Definition simulateCompression (a : Asset) (lod : LOD) : Asset :=
  {| id := id a;
     name := name a;
     polyCount :=
       Math_max 10000
         (Math_round (Number_mul (Number_of_Z (polyCount a)) (lodFactor lod)));
     sizeMB :=
       Math_max 20
         (Math_round (Number_mul (Number_of_Z (sizeMB a)) (texFactor lod)));
     tags := tags a;
     createdAt := createdAt a;
     shape := shape a;
     color := color a;
     category := category a;
     gltfUrl := gltfUrl a |}.

(** [n] successive compressions at the same level. *)
Fixpoint compress_times (n : nat) (lod : LOD) (a : Asset) : Asset :=
  match n with
  | O => a
  | S n' => compress_times n' lod (simulateCompression a lod)
  end.

(** ** The reducer of [App.tsx] *)

Record State := {
  st_assets : list Asset;
  st_selectedId : option string;
  st_filter : string;
  st_lod : LOD
}.

Inductive Action :=
| select (i : string)
| filter_q (q : string)
| set_lod (lod : LOD)
| compress_selected (lod : LOD).

(** What a function that may hand back its own argument returns: the very
    object it was given, or an object it has built. *)
Inductive Returned (A : Type) :=
| same_object
| new_object (a : A).
Arguments same_object {A}.
Arguments new_object {A} a.

(** [!x] for [x : string | null]: [null] and the empty string are falsy. *)
Definition falsy (x : option string) : bool :=
  match x with
  | None => true
  | Some s => String.eqb s ""
  end.

(** [Array.prototype.findIndex]; [None] stands for the result [-1]. *)
Fixpoint findIndex {A : Type} (p : A -> bool) (l : list A) : option nat :=
  match l with
  | [] => None
  | x :: l' => if p x then Some O else option_map S (findIndex p l')
  end.

Definition reducer (state : State) (action : Action) : Returned State :=
  match action with
  | select i =>
      new_object {| st_assets := st_assets state; st_selectedId := Some i;
                    st_filter := st_filter state; st_lod := st_lod state |}
  | filter_q q =>
      new_object {| st_assets := st_assets state;
                    st_selectedId := st_selectedId state;
                    st_filter := q; st_lod := st_lod state |}
  | set_lod l =>
      new_object {| st_assets := st_assets state;
                    st_selectedId := st_selectedId state;
                    st_filter := st_filter state; st_lod := l |}
  | compress_selected l =>
      if falsy (st_selectedId state) then same_object
      else
        match
          findIndex (fun a => bool_decide (Some (id a) = st_selectedId state))
            (st_assets state)
        with
        | None => same_object
        | Some idx =>
            match st_assets state !! idx with
            | Some a =>
                let next := simulateCompression a l in
                new_object {| st_assets := <[idx := next]> (st_assets state);
                              st_selectedId := st_selectedId state;
                              st_filter := st_filter state;
                              st_lod := st_lod state |}
            | None => same_object
            end
        end
  end.

(** The state [useReducer] holds after [dispatch action]. *)
Definition dispatch (state : State) (action : Action) : State :=
  match reducer state action with
  | same_object => state
  | new_object s => s
  end.

(** Replaying a sequence of actions. *)
Definition replay (actions : list Action) (state : State) : State :=
  fold_left dispatch actions state.

(** *** The reducer over a store of state objects

    State objects live in a store and are known by their reference; a spread
    [{...state, f: v}] allocates, [return state] does not. *)

Record Store := { objects : gmap nat State; next_ref : nat }.

Definition alloc (s : State) (h : Store) : nat * Store :=
  (next_ref h,
   {| objects := <[next_ref h := s]> (objects h); next_ref := S (next_ref h) |}).

Definition reducer_at (h : Store) (r : nat) (action : Action)
  : option (nat * Store) :=
  match objects h !! r with
  | None => None
  | Some state =>
      match reducer state action with
      | same_object => Some (r, h)
      | new_object s => Some (alloc s h)
      end
  end.

Fixpoint replay_at (h : Store) (r : nat) (actions : list Action)
  : option (nat * Store) :=
  match actions with
  | [] => Some (r, h)
  | a :: rest =>
      match reducer_at h r a with
      | None => None
      | Some (r', h') => replay_at h' r' rest
      end
  end.

(** *** What the transitions can and cannot change *)

(** Two assets that differ at most in [polyCount] and [sizeMB]. *)
Definition same_but_counts (a b : Asset) : Prop :=
  id a = id b /\ name a = name b /\ tags a = tags b
  /\ createdAt a = createdAt b /\ shape a = shape b /\ color a = color b
  /\ category a = category b /\ gltfUrl a = gltfUrl b.

(** [b] is [a] itself or what compressions have made of it: the other
    fields are those of [a], and the two counts lie between their floor and
    the larger of the floor and [a]'s count. *)
Definition compressed_from (a b : Asset) : Prop :=
  same_but_counts a b
  /\ (b = a
      \/ (10000 <= polyCount b <= Z.max 10000 (polyCount a)
          /\ 20 <= sizeMB b <= Z.max 20 (sizeMB a))).

(** The actions whose case of the reducer reads or writes [assets] or
    [selectedId]. *)
Definition touches_assets (a : Action) : bool :=
  match a with
  | select _ | compress_selected _ => true
  | filter_q _ | set_lod _ => false
  end.

Definition is_compress (a : Action) : bool :=
  match a with compress_selected _ => true | _ => false end.

(** The payload of an action, by type. *)
Definition id_selected (a : Action) : option string :=
  match a with select i => Some i | _ => None end.

Definition filter_text (a : Action) : option string :=
  match a with filter_q q => Some q | _ => None end.

Definition level_set (a : Action) : option LOD :=
  match a with set_lod l => Some l | _ => None end.

(** Two states that the views cannot tell apart: they differ at most in
    the counts of their assets. *)
Definition same_view (s1 s2 : State) : Prop :=
  Forall2 same_but_counts (st_assets s1) (st_assets s2)
  /\ st_selectedId s1 = st_selectedId s2
  /\ st_filter s1 = st_filter s2
  /\ st_lod s1 = st_lod s2.

(** ** JavaScript strings

    A string is held as the UTF-8 encoding of its characters, one byte to
    an [ascii]; the literals of the sources are ASCII and stand for
    themselves.  [startsWith] and [includes] compare bytes: on the encodings
    of whole characters a byte string occurs in another exactly where the
    character string does.  [trim] knows the encodings of the characters it
    strips.  What [toLowerCase] does depends on the engine's Unicode tables:
    it is provided by the host, below. *)

(** The string with the given bytes. *)
Definition bytes (l : list nat) : string :=
  string_of_list_ascii (map ascii_of_nat l).

(** The characters [trim] strips: the white space of ECMAScript (TAB, VT,
    FF, SP, NBSP U+00A0, the other space separators U+1680, U+2000 to
    U+200A, U+202F, U+205F and U+3000, and U+FEFF) and its line terminators
    (LF, CR, U+2028, U+2029). *)
Definition white_space : list string :=
  map bytes
    [[9]; [10]; [11]; [12]; [13]; [32]; [194; 160]; [225; 154; 128];
     [226; 128; 128]; [226; 128; 129]; [226; 128; 130]; [226; 128; 131];
     [226; 128; 132]; [226; 128; 133]; [226; 128; 134]; [226; 128; 135];
     [226; 128; 136]; [226; 128; 137]; [226; 128; 138]; [226; 128; 168];
     [226; 128; 169]; [226; 128; 175]; [226; 129; 159]; [227; 128; 128];
     [239; 187; 191]]%nat.

(** [!q] for a string. *)
Definition is_empty (q : string) : bool :=
  match q with
  | EmptyString => true
  | String _ _ => false
  end.

(** [s] without its prefix [w]. *)
Fixpoint strip_prefix (w s : string) : option string :=
  match w, s with
  | EmptyString, _ => Some s
  | String _ _, EmptyString => None
  | String c w', String d s' =>
      if Ascii.eqb c d then strip_prefix w' s' else None
  end.

(** [s] without the white-space character it starts with. *)
Definition strip_white (s : string) : option string :=
  fold_right (fun w rest =>
                match strip_prefix w s with
                | Some t => Some t
                | None => rest
                end) None white_space.

Fixpoint strip_whites (n : nat) (s : string) : string :=
  match n with
  | O => s
  | S n' =>
      match strip_white s with
      | Some t => strip_whites n' t
      | None => s
      end
  end.

(** [s.trimStart()]: white-space characters are taken off the front as
    long as there is one; a string has no more of them than bytes. *)
Definition trimStart (s : string) : string := strip_whites (String.length s) s.

(** [s] consists of white space only. *)
Definition blank (s : string) : bool := is_empty (trimStart s).

(** [s.trimEnd()]: [s] without its longest suffix of white space. *)
Fixpoint trimEnd (s : string) : string :=
  match s with
  | EmptyString => EmptyString
  | String c s' => if blank s then EmptyString else String c (trimEnd s')
  end.

Definition trim (s : string) : string := trimEnd (trimStart s).

(** The strings of a list, one after the other. *)
Definition string_concat (l : list string) : string :=
  fold_right String.append "" l.

(** The shape of the encodings: a character starts with a byte that is not
    a continuation byte and goes on with continuation bytes. *)
Definition continuation (c : ascii) : bool :=
  let n := nat_of_ascii c in ((128 <=? n) && (n <? 192))%nat.

Fixpoint continuations (s : string) : bool :=
  match s with
  | EmptyString => true
  | String c s' => continuation c && continuations s'
  end.

Definition well_shaped (w : string) : bool :=
  match w with
  | EmptyString => false
  | String c w' => negb (continuation c) && continuations w'
  end.

(** [r] is empty or starts at the start of a character. *)
Definition starts_char (r : string) : Prop :=
  match r with
  | EmptyString => True
  | String c _ => continuation c = false
  end.

(** A list of white-space characters. *)
Definition whites (l : list string) : Prop :=
  List.Forall (fun w => In w white_space) l.

Fixpoint startsWith (s search : string) {struct search} : bool :=
  match search, s with
  | EmptyString, _ => true
  | String _ _, EmptyString => false
  | String c search', String d s' => Ascii.eqb c d && startsWith s' search'
  end.

(** [s.includes(search)] *)
Fixpoint includes (s search : string) : bool :=
  startsWith s search
  || match s with
     | EmptyString => false
     | String _ s' => includes s' search
     end.

(** [toLowerCase] on ASCII strings: [A] to [Z] become [a] to [z]. *)
Definition is_ASCII (s : string) : bool :=
  forallb (fun c => (nat_of_ascii c <? 128)%nat) (list_ascii_of_string s).

Definition lower_char (c : ascii) : ascii :=
  let n := nat_of_ascii c in
  if ((65 <=? n)%nat && (n <=? 90)%nat)%bool then ascii_of_nat (n + 32) else c.

Fixpoint toLowerCase_ASCII (s : string) : string :=
  match s with
  | EmptyString => EmptyString
  | String c s' => String (lower_char c) (toLowerCase_ASCII s')
  end.

(** ** [Array.prototype.sort], as the language defines it

    The sort reads the sign of the comparator's result: negative puts [a]
    before [b], positive after it; a NaN result is read as [+0].  On a
    consistent comparator the result is the one rearrangement that is in
    order and keeps the elements that tie with one another in their input
    order (the sort is stable, as ECMAScript has required since its 2019
    edition).  With a comparator that is not consistent the order is left to
    the implementation. *)

Definition SortCompare {A : Type} (compareFn : A -> A -> option Z) (a b : A)
  : comparison :=
  match compareFn a b with
  | None => Eq
  | Some v => v ?= 0
  end.

Definition sorts_after {A : Type} (compareFn : A -> A -> option Z) (a b : A)
  : bool :=
  match compareFn a b with
  | None => false
  | Some v => 0 <? v
  end.

Definition sorts_before {A : Type} (compareFn : A -> A -> option Z) (a b : A)
  : bool :=
  match compareFn a b with
  | None => false
  | Some v => v <? 0
  end.

Definition ties {A : Type} (compareFn : A -> A -> option Z) (a b : A) : bool :=
  negb (sorts_after compareFn a b) && negb (sorts_after compareFn b a).

(** A consistent comparator, as ECMAScript defines it, on the elements of
    a list: every element ties with itself, ties are symmetric, and ties,
    "before" and "after" are each transitive. *)
Record consistent_on {A : Type} (compareFn : A -> A -> option Z)
  (l : list A) : Prop := {
  consistent_refl : forall a, In a l -> SortCompare compareFn a a = Eq;
  consistent_sym :
    forall a b, In a l -> In b l ->
      SortCompare compareFn a b = Eq -> SortCompare compareFn b a = Eq;
  consistent_trans :
    forall (o : comparison) a b c, In a l -> In b l -> In c l ->
      SortCompare compareFn a b = o -> SortCompare compareFn b c = o ->
      SortCompare compareFn a c = o
}.

(** What follows from it for the sort: "need not come after" is a total
    preorder. *)
Definition preorder_on {A : Type} (compareFn : A -> A -> option Z)
  (l : list A) : Prop :=
  (forall a b, In a l -> In b l ->
     sorts_after compareFn a b = true -> sorts_after compareFn b a = false)
  /\ (forall a b c, In a l -> In b l -> In c l ->
        sorts_after compareFn a b = false ->
        sorts_after compareFn b c = false ->
        sorts_after compareFn a c = false).

(** What the language promises of the result [l'] of sorting [l]. *)
Record sort_result {A : Type} (compareFn : A -> A -> option Z)
  (l l' : list A) : Prop := {
  sorted_permutation : Permutation l' l;
  sorted_in_order :
    StronglySorted (fun a b => sorts_after compareFn a b = false) l';
  sorted_stable :
    forall x, In x l ->
      List.filter (ties compareFn x) l' = List.filter (ties compareFn x) l
}.

(** The stable order written as a function: insertion from the right,
    each element put in front of the first one it need not come after. *)
Fixpoint sort_insert {A : Type} (compareFn : A -> A -> option Z)
  (x : A) (l : list A) : list A :=
  match l with
  | [] => [x]
  | y :: l' =>
      if sorts_after compareFn x y then y :: sort_insert compareFn x l'
      else x :: l
  end.

Fixpoint stable_sort {A : Type} (compareFn : A -> A -> option Z) (l : list A)
  : list A :=
  match l with
  | [] => []
  | x :: l' => sort_insert compareFn x (stable_sort compareFn l')
  end.

(** ** What the host provides

    [Date.parse] gives a time value in milliseconds, or NaN ([None]);
    [String.prototype.localeCompare] gives a negative, zero or positive
    number; [String.prototype.toLowerCase] maps the characters by the
    engine's Unicode tables; [Array.prototype.sort] is the engine's sorting
    algorithm.  All four depend on the engine and its data. *)

Class Host := {
  Date_parse : string -> option Z;
  localeCompare : string -> string -> Z;
  toLowerCase : string -> string;
  Array_sort : forall A : Type, (A -> A -> option Z) -> list A -> list A
}.

Arguments Array_sort {_} {A} compareFn l.

(** What the language says of them: [localeCompare] is a consistent
    comparator on all strings; [toLowerCase] removes no character and is the
    ASCII mapping on ASCII strings; the result of a sort is a rearrangement
    of the array, and on a consistent comparator the one in stable order. *)
Class HostLaws (H : Host) : Prop := {
  localeCompare_consistent :
    forall l : list string,
      consistent_on (fun a b => Some (localeCompare a b)) l;
  toLowerCase_nonempty : forall s, toLowerCase s = "" -> s = "";
  toLowerCase_on_ASCII :
    forall s, is_ASCII s = true -> toLowerCase s = toLowerCase_ASCII s;
  Array_sort_rearranges :
    forall (A : Type) (compareFn : A -> A -> option Z) (l : list A),
      Permutation (Array_sort compareFn l) l;
  Array_sort_conforms :
    forall (A : Type) (compareFn : A -> A -> option Z) (l : list A),
      consistent_on compareFn l ->
      sort_result compareFn l (Array_sort compareFn l)
}.

(** ** [useAssetFilterSort] *)

Inductive SortKey := key_name | key_polyCount | key_createdAt.

Inductive SortDir := asc | desc.

(** What the hook returns; [sorted_list] is the [list] of the source. *)
Record FilterSort := { filtered : list Asset; sorted_list : list Asset }.

Section FilterSortEngine.
Context {host : Host}.

Definition byName (dir : SortDir) (a b : Asset) : option Z :=
  Some match dir with
       | asc => localeCompare (name a) (name b)
       | desc => localeCompare (name b) (name a)
       end.

Definition byPoly (dir : SortDir) (a b : Asset) : option Z :=
  Some match dir with
       | asc => polyCount a - polyCount b
       | desc => polyCount b - polyCount a
       end.

(** A difference with a NaN operand is NaN. *)
Definition byDate (dir : SortDir) (a b : Asset) : option Z :=
  match Date_parse (createdAt a), Date_parse (createdAt b) with
  | Some ta, Some tb =>
      Some match dir with asc => ta - tb | desc => tb - ta end
  | _, _ => None
  end.

Definition compareAssets (sortKey : SortKey) (dir : SortDir) (a b : Asset)
  : option Z :=
  match sortKey with
  | key_name => byName dir a b
  | key_polyCount => byPoly dir a b
  | key_createdAt => byDate dir a b
  end.

Definition matches_query (q : string) (a : Asset) : bool :=
  includes (toLowerCase (name a)) q
  || existsb (fun t => includes (toLowerCase t) q) (tags a)
  || match category a with
     | Some c => includes (toLowerCase (Category_string c)) q
     | None => false
     end.

Definition useAssetFilterSort (assets : list Asset) (query : string)
  (sortKey : SortKey) (dir : SortDir) : FilterSort :=
  let filtered :=
    let q := toLowerCase (trim query) in
    if is_empty q then assets
    else List.filter (matches_query q) assets in
  let list :=
    let arr := filtered in
    Array_sort (compareAssets sortKey dir) arr in
  {| filtered := filtered; sorted_list := list |}.

(** The key the comparator of a given sort reads off an asset. *)
Inductive KeyValue :=
| name_key (s : string)
| poly_key (n : Z)
| date_key (t : option Z).



End FilterSortEngine.

Global Instance KeyValue_eq_dec : EqDecision KeyValue.
Proof. solve_decision. Defined.

(** *** The filter as the specification words it *)

Section FilterSpec.
Context {host : Host}.

(** [q] occurs in [s] when case is ignored. *)
Definition case_insensitive_substring (q s : string) : Prop :=
  exists pre post, toLowerCase s = pre ++ toLowerCase q ++ post.

Definition spec_matches (query : string) (a : Asset) : Prop :=
  trim query = ""
  \/ case_insensitive_substring (trim query) (name a)
  \/ (exists t, In t (tags a) /\ case_insensitive_substring (trim query) t)
  \/ (exists c, category a = Some c
                /\ case_insensitive_substring (trim query) (Category_string c)).

End FilterSpec.

(** ** [useCompressionJob] and the event loop

    The hook owns the [progress] cell and schedules two kinds of timer: the
    interval of the progress ticks and the timeout that applies the level.
    [App.tsx] passes [applyLOD] as [onApply]; the reducer state it dispatches
    to is part of the world the timers act on. *)

Inductive Timer :=
| interval_timer (tid : nat) (due : Z)
| timeout_timer (tid : nat) (due : Z) (next : LOD) (timer : nat).

Definition timer_id (t : Timer) : nat :=
  match t with
  | interval_timer tid _ => tid
  | timeout_timer tid _ _ _ => tid
  end.

Definition timer_due (t : Timer) : Z :=
  match t with
  | interval_timer _ due => due
  | timeout_timer _ due _ _ => due
  end.

Definition is_timeout (t : Timer) : bool :=
  match t with
  | interval_timer _ _ => false
  | timeout_timer _ _ _ _ => true
  end.

Global Instance LOD_eq_decision : EqDecision LOD.
Proof. solve_decision. Defined.

Global Instance Timer_eq_decision : EqDecision Timer.
Proof. solve_decision. Defined.

Record World := {
  now : Z;                    (* milliseconds *)
  timers : list Timer;        (* scheduled timers, oldest first *)
  next_timer : nat;           (* the next timer id *)
  progress : option Z;        (* [null] is [None] *)
  state : State               (* what [useReducer] holds *)
}.

Definition setProgress (f : option Z -> option Z) (w : World) : World :=
  {| now := now w; timers := timers w; next_timer := next_timer w;
     progress := f (progress w); state := state w |}.

Definition schedule (t : Timer) (w : World) : World :=
  {| now := now w; timers := timers w ++ [t];
     next_timer := S (next_timer w);
     progress := progress w; state := state w |}.

(** [setInterval(tick, 120)] *)
Definition setInterval (w : World) : nat * World :=
  (next_timer w, schedule (interval_timer (next_timer w) (now w + 120)) w).

(** [setTimeout(() => { onApply(next); clearInterval(timer); ... }, 1200)] *)
Definition setTimeout (next : LOD) (timer : nat) (w : World) : World :=
  schedule (timeout_timer (next_timer w) (now w + 1200) next timer) w.

(** [clearInterval(id)]; also how a timeout that has fired leaves the list. *)
Definition clearInterval (i : nat) (w : World) : World :=
  {| now := now w;
     timers := List.filter (fun t => negb (timer_id t =? i)%nat) (timers w);
     next_timer := next_timer w; progress := progress w; state := state w |}.

(** An interval that has fired is due again one period later. *)
Definition reschedule (i : nat) (w : World) : World :=
  {| now := now w;
     timers := map (fun t => match t with
                             | interval_timer tid due =>
                                 if (tid =? i)%nat
                                 then interval_timer tid (due + 120) else t
                             | timeout_timer _ _ _ _ => t
                             end) (timers w);
     next_timer := next_timer w; progress := progress w; state := state w |}.

Definition dispatch_in (a : Action) (w : World) : World :=
  {| now := now w; timers := timers w; next_timer := next_timer w;
     progress := progress w; state := dispatch (state w) a |}.

(** [applyLOD] of [App.tsx] *)
Definition applyLOD (next : LOD) (w : World) : World :=
  dispatch_in (compress_selected next) (dispatch_in (set_lod next) w).

(** [(p) => Math.min((p ?? 0) + 12, 100)] *)
Definition tick (p : option Z) : option Z :=
  Some (Z.min (default 0 p + 12) 100).

(** [run] of [useCompressionJob].  The function given to [startTransition]
    is called at once; all it does is set the timeout. *)
Definition run (next : LOD) (w : World) : World :=
  let w := setProgress (fun _ => Some 0) w in
  let (timer, w) := setInterval w in
  setTimeout next timer w.

(** What a timer does when it fires. *)
Definition fire (t : Timer) (w : World) : World :=
  match t with
  | interval_timer tid _ => setProgress tick (reschedule tid w)
  | timeout_timer tid _ next timer =>
      setProgress (fun _ => None)
        (clearInterval timer (applyLOD next (clearInterval tid w)))
  end.

(** A timer of the snapshot fires if it is still scheduled and due. *)
Definition is_due (t : Timer) (w : World) : bool :=
  bool_decide (t ∈ timers w) && (timer_due t <=? now w).

Fixpoint fire_due (todo : list Timer) (w : World) : World :=
  match todo with
  | [] => w
  | t :: rest => fire_due rest (if is_due t w then fire t w else w)
  end.

(** One millisecond passes: the timers that have come due fire, in the order
    in which they were set (what is committed does not depend on the order
    among timers due together). *)
Definition elapse_ms (w : World) : World :=
  let w := {| now := now w + 1; timers := timers w;
              next_timer := next_timer w; progress := progress w;
              state := state w |} in
  fire_due (timers w) w.

Fixpoint elapse (ms : nat) (w : World) : World :=
  match ms with
  | O => w
  | S ms' => elapse ms' (elapse_ms w)
  end.

(** What happens to the application, in order. *)
Inductive Event :=
| start_job (next : LOD)
| wait (ms : nat)
| user (a : Action).

Definition happen (e : Event) (w : World) : World :=
  match e with
  | start_job next => run next w
  | wait ms => elapse ms w
  | user a => dispatch_in a w
  end.

Definition run_script (script : list Event) (w : World) : World :=
  fold_left (fun w e => happen e w) script w.

(** The application at rest. *)
Definition idle (s : State) : World :=
  {| now := 0; timers := []; next_timer := 0; progress := None; state := s |}.

(** The timeouts still to fire, oldest first. *)
Definition pending (w : World) : list Timer := List.filter is_timeout (timers w).

(** What the timeout of a job commits: [applyLOD] on the state. *)
Definition commit_level (s : State) (next : LOD) : State :=
  dispatch (dispatch s (set_lod next)) (compress_selected next).

Definition commit (s : State) (t : Timer) : State :=
  match t with
  | interval_timer _ _ => s
  | timeout_timer _ _ next _ => commit_level s next
  end.

(** The interval a timeout clears when it fires. *)
Definition timer_ref (t : Timer) : option nat :=
  match t with
  | interval_timer _ _ => None
  | timeout_timer _ _ _ timer => Some timer
  end.

(** What the timer store of the hook always satisfies: ids are distinct and
    below the next id; no timeout clears another timeout; every timeout is due
    within 1200 ms, the later-made the later. *)
Record well_formed (w : World) : Prop := {
  wf_ids : List.NoDup (map timer_id (timers w));
  wf_fresh : forall t, In t (timers w) -> (timer_id t < next_timer w)%nat;
  wf_refs : forall t u, In t (pending w) -> In u (pending w) ->
                        timer_ref t <> Some (timer_id u);
  wf_ref_fresh : forall t r, In t (pending w) -> timer_ref t = Some r ->
                             (r < next_timer w)%nat;
  wf_horizon : forall t, In t (pending w) -> timer_due t <= now w + 1200;
  wf_order : StronglySorted (fun t u => timer_due t <= timer_due u) (pending w)
}.

(** A script that starts the listed jobs, each followed by a pause. *)
Definition job_script (js : list (LOD * nat)) : list Event :=
  flat_map (fun j => [start_job (fst j); wait (snd j)]) js.

(** Job [a] is started, job [b] follows [gap] ms later, and the application
    is then left alone for [rest] ms. *)
Definition two_jobs (s : State) (a b : LOD) (gap rest : nat) : World :=
  run_script [start_job a; wait gap; start_job b; wait rest] (idle s).

(** What supersession would mean: once both delays have passed, the state
    is the one that [b]'s commit alone produces. *)
Definition superseded_discarded (s : State) (a b : LOD) (gap : nat) : Prop :=
  state (two_jobs s a b gap 1200) = commit_level s b.

(** Between two passes of the event loop no pending timeout is overdue. *)
Definition settled (w : World) : Prop :=
  forall t, In t (pending w) -> now w < timer_due t.

(** Every interval still scheduled belongs to a job whose timeout is still
    pending: the timeout that will clear it. *)
Definition owned (w : World) : Prop :=
  forall t, In t (timers w) -> is_timeout t = false ->
    exists u, In u (pending w) /\ timer_ref u = Some (timer_id t).

(** With nothing scheduled, no progress is shown. *)
Definition at_rest (w : World) : Prop :=
  timers w = [] -> progress w = None.

(** What every event keeps. *)
Record steady (w : World) : Prop := {
  steady_well_formed : well_formed w;
  steady_settled : settled w;
  steady_owned : owned w;
  steady_at_rest : at_rest w
}.

(** *** The queue of delayed commits the timers amount to

    Seen from the reducer state, the timers of the hook are a queue of
    commits, each with its due time: starting a job appends one, the passing
    of time applies and removes those that have come due, oldest first, and a
    user's action goes to the reducer at once. *)

Record Queue := { q_now : Z; q_jobs : list (Z * LOD); q_state : State }.

Definition queue_happen (q : Queue) (e : Event) : Queue :=
  match e with
  | start_job next =>
      {| q_now := q_now q;
         q_jobs := q_jobs q ++ [(q_now q + 1200, next)];
         q_state := q_state q |}
  | wait ms =>
      let t := q_now q + Z.of_nat ms in
      {| q_now := t;
         q_jobs := List.filter (fun j => negb (fst j <=? t)) (q_jobs q);
         q_state :=
           fold_left commit_level
             (map snd (List.filter (fun j => fst j <=? t) (q_jobs q)))
             (q_state q) |}
  | user a =>
      {| q_now := q_now q; q_jobs := q_jobs q;
         q_state := dispatch (q_state q) a |}
  end.

Definition job_of (t : Timer) : option (Z * LOD) :=
  match t with
  | interval_timer _ _ => None
  | timeout_timer _ due next _ => Some (due, next)
  end.

(** The queue a world's timers stand for. *)
Definition queue_of (w : World) : Queue :=
  {| q_now := now w; q_jobs := omap job_of (timers w); q_state := state w |}.

(** The world [t] ms after a single job was started from rest, for [t]
    below 1200: the interval is due at the next multiple of 120, the timeout
    at 1200, and the progress stands at 12 per tick so far, capped at 100. *)
Definition single_job (s : State) (next : LOD) (t : Z) : World :=
  {| now := t;
     timers := [interval_timer 0 (120 * (t / 120) + 120);
                timeout_timer 1 1200 next 0];
     next_timer := 2;
     progress := Some (Z.min (12 * (t / 120)) 100);
     state := s |}.

(** ** The scene-graph library

    Coordinates are rationals.  A node carries its own transform (position,
    rotation, scale: the rotation is kept as its matrix, [rotation.set(0, 0, 0)]
    being the identity), the vertices of its mesh if it has one, and its
    children. *)
Module THREE.

Record Vector3 := { x : Q; y : Q; z : Q }.

Definition vec (a b c : Q) : Vector3 := {| x := a; y := b; z := c |}.

Definition sub (a b : Vector3) : Vector3 :=
  vec (x a - x b) (y a - y b) (z a - z b).

Definition add (a b : Vector3) : Vector3 :=
  vec (x a + x b) (y a + y b) (z a + z b).

Definition multiply (a b : Vector3) : Vector3 :=
  vec (x a * x b) (y a * y b) (z a * z b).

Definition multiplyScalar (a : Vector3) (s : Q) : Vector3 :=
  vec (x a * s) (y a * s) (z a * s).

Definition negate (a : Vector3) : Vector3 := vec (- x a) (- y a) (- z a).

Definition vmin (a b : Vector3) : Vector3 :=
  vec (Qmin (x a) (x b)) (Qmin (y a) (y b)) (Qmin (z a) (z b)).

Definition vmax (a b : Vector3) : Vector3 :=
  vec (Qmax (x a) (x b)) (Qmax (y a) (y b)) (Qmax (z a) (z b)).

(** Equality of the numbers the components denote. *)
Definition equals (a b : Vector3) : Prop :=
  x a == x b /\ y a == y b /\ z a == z b.

Record Matrix3 := { row1 : Vector3; row2 : Vector3; row3 : Vector3 }.

Definition identity : Matrix3 :=
  {| row1 := vec 1 0 0; row2 := vec 0 1 0; row3 := vec 0 0 1 |}.

Definition dot (a b : Vector3) : Q := x a * x b + y a * y b + z a * z b.

Definition applyMatrix3 (m : Matrix3) (v : Vector3) : Vector3 :=
  vec (dot (row1 m) v) (dot (row2 m) v) (dot (row3 m) v).

(** A box is its two corners; [None] is the empty box. *)
Definition Box3 := option (Vector3 * Vector3).

Definition expandByPoint (b : Box3) (p : Vector3) : Box3 :=
  match b with
  | None => Some (p, p)
  | Some (lo, hi) => Some (vmin lo p, vmax hi p)
  end.

Definition setFromPoints (ps : list Vector3) : Box3 :=
  fold_left expandByPoint ps None.

Definition union (a b : Box3) : Box3 :=
  match a, b with
  | None, _ => b
  | _, None => a
  | Some (lo, hi), Some (lo', hi') => Some (vmin lo lo', vmax hi hi')
  end.

(** [getSize] and [getCenter] give the zero vector for the empty box. *)
Definition getSize (b : Box3) : Vector3 :=
  match b with
  | None => vec 0 0 0
  | Some (lo, hi) => sub hi lo
  end.

Definition getCenter (b : Box3) : Vector3 :=
  match b with
  | None => vec 0 0 0
  | Some (lo, hi) => multiplyScalar (add lo hi) 0.5
  end.

(** The box around the images of the eight corners. *)
Definition applyMatrix4 (b : Box3) (m : Vector3 -> Vector3) : Box3 :=
  match b with
  | None => None
  | Some (lo, hi) =>
      setFromPoints
        [m (vec (x lo) (y lo) (z lo)); m (vec (x lo) (y lo) (z hi));
         m (vec (x lo) (y hi) (z lo)); m (vec (x lo) (y hi) (z hi));
         m (vec (x hi) (y lo) (z lo)); m (vec (x hi) (y lo) (z hi));
         m (vec (x hi) (y hi) (z lo)); m (vec (x hi) (y hi) (z hi))]
  end.

Inductive Object3D :=
| Object (position : Vector3) (rotation : Matrix3) (scale : Vector3)
    (geometry : list Vector3) (children : list Object3D).

Definition position (o : Object3D) : Vector3 :=
  match o with Object p _ _ _ _ => p end.
Definition rotation (o : Object3D) : Matrix3 :=
  match o with Object _ r _ _ _ => r end.
Definition scale (o : Object3D) : Vector3 :=
  match o with Object _ _ s _ _ => s end.
Definition geometry (o : Object3D) : list Vector3 :=
  match o with Object _ _ _ g _ => g end.
Definition children (o : Object3D) : list Object3D :=
  match o with Object _ _ _ _ c => c end.

Definition set_position (p : Vector3) (o : Object3D) : Object3D :=
  Object p (rotation o) (scale o) (geometry o) (children o).
Definition set_rotation (r : Matrix3) (o : Object3D) : Object3D :=
  Object (position o) r (scale o) (geometry o) (children o).
Definition set_scale (s : Vector3) (o : Object3D) : Object3D :=
  Object (position o) (rotation o) s (geometry o) (children o).

(** The node's matrix: scale, then rotate, then translate. *)
Definition matrix (p : Vector3) (r : Matrix3) (s : Vector3)
  : Vector3 -> Vector3 :=
  fun v => add p (applyMatrix3 r (multiply s v)).

(** [Box3.expandByObject]: the box of the node's mesh, carried to world
    space, then the children's. *)
Fixpoint expandByObject (parentWorld : Vector3 -> Vector3) (o : Object3D)
  (b : Box3) : Box3 :=
  match o with
  | Object p r s g cs =>
      let matrixWorld := fun v => parentWorld (matrix p r s v) in
      let b := union b (applyMatrix4 (setFromPoints g) matrixWorld) in
      fold_left (fun b c => expandByObject matrixWorld c b) cs b
  end.

Definition setFromObject (o : Object3D) : Box3 :=
  expandByObject (fun v => v) o None.

End THREE.

(** ** [GLTFAsset] *)

Definition TARGET_SIZE : Q := 1.5.

(** [x || d] on numbers: zero is falsy. *)
Definition or_else (x d : Q) : Q := if Qeq_bool x 0 then d else x.

(** [Math.max] of three numbers. *)
Definition Math_max3 (a b c : Q) : Q := Qmax (Qmax a b) c.

(** [a / b], which is a finite number only for [b] other than zero: [None]
    stands for the infinity, or NaN, that a zero divisor gives. *)
Definition quotient (a b : Q) : option Q :=
  if Qeq_bool b 0 then None else Some (a / b)%Q.

(** [SkeletonUtils.clone]: a copy of the graph under a reference of its
    own. *)
Definition skeletonClone (scene : nat) (h : gmap nat THREE.Object3D)
  : option (nat * gmap nat THREE.Object3D) :=
  match h !! scene with
  | None => None
  | Some o => let root := fresh (dom h) in Some (root, <[root := o]> h)
  end.

(** The normalised object of the component's [useMemo]: the reference of the
    object it returns, and the objects as it leaves them.  [maxDim] is not
    zero where [s] is computed, so the division is the quotient. *)
Definition GLTFAsset (scene : nat) (h : gmap nat THREE.Object3D)
  : option (nat * gmap nat THREE.Object3D) :=
  match skeletonClone scene h with
  | None => None
  | Some (root, h) =>
      let h := alter (THREE.set_position (THREE.vec 0 0 0)) root h in
      let h := alter (THREE.set_rotation THREE.identity) root h in
      let h := alter (THREE.set_scale (THREE.vec 1 1 1)) root h in
      match h !! root with
      | None => None
      | Some o =>
          let box := THREE.setFromObject o in
          let size := THREE.getSize box in
          let center := THREE.getCenter box in
          let maxDim :=
            or_else (Math_max3 (THREE.x size) (THREE.y size) (THREE.z size)) 1 in
          let h :=
            alter (fun o => THREE.set_position
                              (THREE.sub (THREE.position o) center) o) root h in
          let s := (TARGET_SIZE / maxDim)%Q in
          let h := alter (THREE.set_scale (THREE.vec s s s)) root h in
          Some (root, h)
      end
  end.

(** The graph as it is measured: the copy with its own transform reset. *)
Definition reset (o : THREE.Object3D) : THREE.Object3D :=
  THREE.set_scale (THREE.vec 1 1 1)
    (THREE.set_rotation THREE.identity
       (THREE.set_position (THREE.vec 0 0 0) o)).

(** The largest extent of a graph's box. *)
Definition max_extent (o : THREE.Object3D) : Q :=
  let size := THREE.getSize (THREE.setFromObject o) in
  Math_max3 (THREE.x size) (THREE.y size) (THREE.z size).

(** The scale the guarded division arrives at. *)
Definition fitted_scale (o : THREE.Object3D) : Q :=
  TARGET_SIZE / or_else (max_extent (reset o)) 1.

(** What normalisation makes of a graph. *)
Definition normalized (o : THREE.Object3D) : THREE.Object3D :=
  let s := fitted_scale o in
  THREE.set_scale (THREE.vec s s s)
    (THREE.set_position
       (THREE.sub (THREE.position (reset o))
          (THREE.getCenter (THREE.setFromObject (reset o))))
       (reset o)).

(** Example graphs: a mesh with the given vertices, placed at [p]. *)
Definition mesh_at (p : THREE.Vector3) (vertices : list THREE.Vector3)
  : THREE.Object3D :=
  THREE.Object p THREE.identity (THREE.vec 1 1 1) vertices [].

Definition block_2_4_8 : THREE.Object3D :=
  mesh_at (THREE.vec 0 0 0) [THREE.vec 0 0 0; THREE.vec 2 4 8].

Definition single_point : THREE.Object3D :=
  mesh_at (THREE.vec 0 0 0) [THREE.vec 1 1 1].

(** The objects a model loader holds after loading one graph. *)
Definition loaded (o : THREE.Object3D) : gmap nat THREE.Object3D :=
  {[ 0%nat := o ]}.

(** *** The box of a normalised graph *)

(** The map [v -> k * v + t] on points, and the image of a box under it
    (for [k >= 0], which keeps the lower corner the lower one). *)
Definition scale_then_move (k : Q) (t v : THREE.Vector3) : THREE.Vector3 :=
  THREE.add t (THREE.multiplyScalar v k).

Definition box_image (k : Q) (t : THREE.Vector3) (b : THREE.Box3) : THREE.Box3 :=
  match b with
  | None => None
  | Some (lo, hi) => Some (scale_then_move k t lo, scale_then_move k t hi)
  end.

(** Two boxes with the same corners, as numbers. *)
Definition box_equals (a b : THREE.Box3) : Prop :=
  match a, b with
  | None, None => True
  | Some (lo, hi), Some (lo', hi') => THREE.equals lo lo' /\ THREE.equals hi hi'
  | _, _ => False
  end.

(** A box whose lower corner is below its upper corner on every axis. *)
Definition box_valid (b : THREE.Box3) : Prop :=
  match b with
  | None => True
  | Some (lo, hi) =>
      (THREE.x lo <= THREE.x hi /\ THREE.y lo <= THREE.y hi
       /\ THREE.z lo <= THREE.z hi)%Q
  end.

(** ** What is drawn: [AssetMesh], [Viewer], [AssetList] and [App]

    A component returns the element tree it builds.  Of that tree the model
    keeps what the component decides: the geometry and its arguments, the
    colour of the material, the model to load, the cards and their
    [selected] flag. *)

Inductive GeometryElement :=
| sphereGeometry (args : list Q)
| torusGeometry (args : list Q)
| cylinderGeometry (args : list Q)
| boxGeometry (args : list Q).

Record MeshElement := {
  mesh_geometry : GeometryElement;
  mesh_color : option string
}.

Definition AssetMesh (lod : LOD) (shape : Shape) (color : option string)
  : MeshElement :=
  let seg := match lod with HIGH => 48 | MED => 24 | LOW => 12 end%Q in
  {| mesh_geometry :=
       match shape with
       | sphere => sphereGeometry [0.9; seg; seg]
       | torus => torusGeometry [0.8; 0.25; seg; seg]
       | cylinder => cylinderGeometry [0.5; 0.5; 1.5; seg]
       | box => boxGeometry [1.5; 1; 0.5; seg]
       end%Q;
     mesh_color := color |}.

(** What the [Canvas] of [Viewer] holds besides the lights and the controls:
    the loaded model, a procedural mesh, or nothing. *)
Inductive ViewerChild :=
| gltf_asset (url : string)
| asset_mesh (m : MeshElement)
| no_child.

(** [asset?.gltfUrl ? <GLTFAsset url=.../> : asset && <AssetMesh .../>];
    an empty [gltfUrl] is falsy, and [??] replaces only a missing colour. *)
Definition Viewer (lod : LOD) (asset : option Asset) : ViewerChild :=
  match asset with
  | None => no_child
  | Some a =>
      let mesh :=
        asset_mesh (AssetMesh lod (shape a) (Some (default "#9ca3af" (color a)))) in
      match gltfUrl a with
      | Some url => if is_empty url then mesh else gltf_asset url
      | None => mesh
      end
  end.

(** The props of one [AssetCard]. *)
Record AssetCard := { card_asset : Asset; card_selected : bool }.

(** [AssetList]; [None] is the "No results" box. *)
Definition AssetList (items : list Asset) (selectedId : option string)
  : option (list AssetCard) :=
  match items with
  | [] => None
  | _ :: _ =>
      Some (map (fun a => {| card_asset := a;
                             card_selected :=
                               bool_decide (Some (id a) = selectedId) |})
              items)
  end.

(** What [App] derives from the reducer state on each render. *)
Module App.
Section Render.
Context {host : Host}.

Definition initialState : State :=
  {| st_assets := INITIAL_ASSETS;
     st_selectedId := id <$> INITIAL_ASSETS !! 0%nat;
     st_filter := "";
     st_lod := HIGH |}.

(** [list], which [AssetList] receives as [items]. *)
Definition items (s : State) : list Asset :=
  sorted_list (useAssetFilterSort (st_assets s) (st_filter s) key_name asc).

(** [list.find((a) => a.id === selectedId) ?? null] *)
Definition selected (s : State) : option Asset :=
  List.find (fun a => bool_decide (Some (id a) = st_selectedId s)) (items s).

Definition cards (s : State) : option (list AssetCard) :=
  AssetList (items s) (st_selectedId s).

Definition viewer (s : State) : ViewerChild :=
  Viewer (st_lod s) (selected s).

End Render.
End App.

(** ** [fmtMB]

    The label of a size, as the cards and the details panel show it. *)

(** The string of an integer-valued number: its decimal digits, with a
    minus sign if it is negative.  That holds below 2^53, where every
    integer is a number of its own; from there on JavaScript prints the
    shortest digits that give the number back, and from 10^21 on an
    exponent, neither of which is modelled: [None]. *)
Definition Number_toString (n : Z) : option string :=
  if Z.abs n <? 2 ^ 53 then Some (NilZero.string_of_int (Z.to_int n)) else None.

(** [fmtMB]: the template literal [`${Math.round(n)} MB`]. *)
Definition fmtMB (n : Number) : option string :=
  (fun digits => digits ++ " MB") <$> Number_toString (Math_round n).

(** ** The single-file application

    It filters the list inline, starts the job itself and has its own
    [GLTFAsset]. *)
Module Monolith.

Section Browser.
Context {host : Host}.

(** The predicate given to [assets.filter] in the asset browser. *)
Definition list_filter (filter : string) (a : Asset) : bool :=
  let q := toLowerCase (trim filter) in
  is_empty q
  || includes (toLowerCase (name a)) q
  || existsb (fun t => includes t q) (tags a)
  || match category a with
     | Some c => includes (Category_string c) q
     | None => false
     end.

Definition listed (assets : list Asset) (filter : string) : list Asset :=
  List.filter (list_filter filter) assets.

End Browser.

(** [assets.find((a) => a.id === selectedId) ?? null]: here the selection
    is looked up among all the assets. *)
Definition selected (s : State) : option Asset :=
  List.find (fun a => bool_decide (Some (id a) = st_selectedId s)) (st_assets s).

(** Its [AssetMesh] gives the box its segment count on all three axes. *)
Definition AssetMesh (lod : LOD) (shape : Shape) (color : option string)
  : MeshElement :=
  let segments := match lod with HIGH => 48 | MED => 24 | LOW => 12 end%Q in
  {| mesh_geometry :=
       match shape with
       | sphere => sphereGeometry [0.9; segments; segments]
       | torus => torusGeometry [0.8; 0.25; segments; segments]
       | cylinder => cylinderGeometry [0.5; 0.5; 1.5; segments]
       | box => boxGeometry [1.5; 1; 0.5; segments; segments; segments]
       end%Q;
     mesh_color := color |}.

(** Its [GLTFAsset] measures and moves the loaded scene itself and hands
    the scale to the renderer: the scene's reference, the [scale] property,
    and the objects as it leaves them. *)
Definition GLTFAsset (scene : nat) (h : gmap nat THREE.Object3D)
  : option (nat * option Q * gmap nat THREE.Object3D) :=
  match h !! scene with
  | None => None
  | Some o =>
      let box := THREE.setFromObject o in
      let size := THREE.getSize box in
      let center := THREE.getCenter box in
      let h :=
        alter (fun o => THREE.set_position
                          (THREE.sub (THREE.position o) center) o) scene h in
      let maxDim := Math_max3 (THREE.x size) (THREE.y size) (THREE.z size) in
      let scale := quotient 1.5 maxDim in
      Some (scene, scale, h)
  end.

(** Its progress tick, [step >= 100 ? 100 : step] with
    [step = (p ?? 0) + 12]. *)
Definition tick (p : option Z) : option Z :=
  let step := default 0 p + 12 in
  Some (if 100 <=? step then 100 else step).

(** Its [compress] takes the steps of the hook's [run], with the two
    dispatches of [applyLOD] written out in the timeout. *)
Definition compress (next : LOD) (w : World) : World := run next w.

End Monolith.

(** ** A host for the examples

    [Date.parse] on the ECMAScript date-time format in its
    [YYYY-MM-DDTHH:mm:ssZ] form, ordinal string comparison, the ASCII
    [toLowerCase], and the sort of the V8 engine on arrays of fewer than 64
    elements: there its TimSort works on a single run, the one the array
    starts with, which a binary insertion sort extends over the whole
    array. *)

Definition digit_of (c : ascii) : option Z :=
  let n := nat_of_ascii c in
  if ((48 <=? n)%nat && (n <=? 57)%nat)%bool then Some (Z.of_nat n - 48) else None.

Fixpoint digits_value (acc : Z) (l : list ascii) : option Z :=
  match l with
  | [] => Some acc
  | c :: l' =>
      match digit_of c with
      | Some d => digits_value (10 * acc + d) l'
      | None => None
      end
  end.

Definition is_leap (y : Z) : bool :=
  ((y mod 4 =? 0) && negb (y mod 100 =? 0)) || (y mod 400 =? 0).

Definition days_in_month (y m : Z) : Z :=
  if m =? 2 then (if is_leap y then 29 else 28)
  else if (m =? 4) || (m =? 6) || (m =? 9) || (m =? 11) then 30 else 31.

(** Days from 1970-01-01 to the given civil date. *)
Definition days_from_civil (y m d : Z) : Z :=
  let y' := if m <=? 2 then y - 1 else y in
  let era := y' / 400 in
  let yoe := y' - era * 400 in
  let mp := if 2 <? m then m - 3 else m + 9 in
  let doy := (153 * mp + 2) / 5 + d - 1 in
  let doe := yoe * 365 + yoe / 4 - yoe / 100 + doy in
  era * 146097 + doe - 719468.

Definition iso_Date_parse (s : string) : option Z :=
  match list_ascii_of_string s with
  | [y1; y2; y3; y4; "-"; m1; m2; "-"; d1; d2; "T"; h1; h2; ":"; n1; n2; ":";
     s1; s2; "Z"]%char =>
      match digits_value 0 [y1; y2; y3; y4], digits_value 0 [m1; m2],
            digits_value 0 [d1; d2], digits_value 0 [h1; h2],
            digits_value 0 [n1; n2], digits_value 0 [s1; s2] with
      | Some y, Some m, Some d, Some hh, Some mm, Some ss =>
          if (1 <=? m) && (m <=? 12) && (1 <=? d) && (d <=? days_in_month y m)
             && (hh <=? 23) && (mm <=? 59) && (ss <=? 59)
          then Some ((((days_from_civil y m d * 24 + hh) * 60 + mm) * 60 + ss)
                     * 1000)
          else None
      | _, _, _, _, _, _ => None
      end
  | _ => None
  end.

Definition ordinal_compare (a b : string) : Z :=
  match String.compare a b with
  | Eq => 0
  | Lt => -1
  | Gt => 1
  end.

(** The sort of V8 as it runs on an array of fewer than 64 elements: the
    minimum run length of its TimSort is then the length of the array, so
    the first run is extended over the whole array and nothing is merged.
    Its test [order < 0] is [sorts_before]. *)
Module V8.
Section TimSort.
Context {A : Type} (compareFn : A -> A -> option Z).

(** The loop of [CountAndMakeRun]: the elements that continue the run after
    [previous], and the elements left. *)
Fixpoint extend_run (descending : bool) (previous : A) (l : list A)
  : list A * list A :=
  match l with
  | [] => ([], [])
  | current :: l' =>
      let negative := sorts_before compareFn current previous in
      if (if descending then negb negative else negative) then ([], l)
      else
        let (run, rest) := extend_run descending current l' in
        (current :: run, rest)
  end.

(** [CountAndMakeRun]: the run the array starts with, reversed if it is
    strictly descending, and the elements after it. *)
Definition CountAndMakeRun (l : list A) : list A * list A :=
  match l with
  | [] => ([], [])
  | [a] => ([a], [])
  | a0 :: a1 :: l' =>
      let descending := sorts_before compareFn a1 a0 in
      let (run, rest) := extend_run descending a1 l' in
      let run := a0 :: a1 :: run in
      (if descending then rev run else run, rest)
  end.

(** The binary search of [BinaryInsertionSort] for the place of [pivot] in
    the sorted part [s], between [left] and [right]. *)
Fixpoint search (fuel : nat) (pivot : A) (s : list A) (left right : nat)
  : nat :=
  match fuel with
  | O => left
  | S fuel' =>
      if (left <? right)%nat then
        let mid := (left + (right - left) / 2)%nat in
        match s !! mid with
        | Some x =>
            if sorts_before compareFn pivot x
            then search fuel' pivot s left mid
            else search fuel' pivot s (mid + 1)%nat right
        | None => left
        end
      else left
  end.

(** One round of [BinaryInsertionSort]: [pivot], the element after the
    sorted part [s], goes to the place the search gives, and the elements
    from there on move up by one. *)
Definition insert_pivot (s : list A) (pivot : A) : list A :=
  let left := search (length s) pivot s 0 (length s) in
  (firstn left s ++ pivot :: skipn left s)%list.

(** [BinaryInsertionSort]: the elements after the run are inserted one
    after the other. *)
Definition BinaryInsertionSort (run rest : list A) : list A :=
  fold_left insert_pivot rest run.

(** The whole sort; an array of fewer than two elements is its own first
    run. *)
Definition Array_sort (l : list A) : list A :=
  let (run, rest) := CountAndMakeRun l in
  BinaryInsertionSort run rest.

End TimSort.
End V8.

Definition example_host : Host :=
  {| Date_parse := iso_Date_parse;
     localeCompare := ordinal_compare;
     toLowerCase := toLowerCase_ASCII;
     Array_sort := @V8.Array_sort |}.

(** ** Data for the examples *)

Definition sample_asset (p s : Z) : Asset :=
  {| id := "a"; name := "Sample"; polyCount := p; sizeMB := s; tags := [];
     createdAt := "2025-01-01T00:00:00Z"; shape := box; color := None;
     category := None; gltfUrl := None |}.

Definition sample_state (sel : option string) : State :=
  {| st_assets := INITIAL_ASSETS; st_selectedId := sel; st_filter := "";
     st_lod := HIGH |}.

Definition sample_store (sel : option string) : Store :=
  {| objects := {[ 0%nat := sample_state sel ]}; next_ref := 1 |}.

Definition shield_asset : Asset :=
  {| id := "s"; name := "Shield"; polyCount := 820000; sizeMB := 180;
     tags := ["Hero"]; createdAt := "2025-09-01T12:00:00Z"; shape := cylinder;
     color := None; category := Some film; gltfUrl := None |}.




(** A no-break space, U+00A0, and a line separator, U+2028. *)
Definition NBSP : string := bytes [194; 160]%nat.

Definition LS : string := bytes [226; 128; 168]%nat.

(* ================================================================== *)
(** * Properties *)

(** ** Number facts *)

Lemma round_nearest_even_error (m e : Z) :
  exists k, 0 <= k /\ expo (round_nearest_even m e) = e + k /\
    2 ^ 53 * Z.abs (mant (round_nearest_even m e) * 2 ^ k - m) <= Z.abs m.
Proof.
  unfold round_nearest_even.
  set (a := Z.abs m). set (k := Z.log2 a + 1 - 53).
  destruct (Z.leb_spec k 0) as [Hk|Hk].
  - exists 0. cbn [expo mant]. rewrite Z.pow_0_r. repeat split; lia.
  - exists k. cbn [expo mant]. split; [lia|]. split; [reflexivity|].
    assert (Ha : 0 < a).
    { destruct (Z.lt_ge_cases 0 a) as [H|H]; [exact H|].
      pose proof (Z.log2_nonpos a H). lia. }
    destruct (Z.log2_spec a Ha) as [Hlo _].
    assert (HT : 2 ^ k = 2 * 2 ^ (k - 1)).
    { rewrite <- Z.pow_succ_r by lia. f_equal. lia. }
    assert (Hh : 2 ^ 53 * 2 ^ (k - 1) = 2 ^ Z.log2 a).
    { rewrite <- Z.pow_add_r by lia. f_equal. lia. }
    assert (Hhp : 0 < 2 ^ (k - 1)) by (apply Z.pow_pos_nonneg; lia).
    pose proof (Z.div_mod a (2 ^ k) ltac:(lia)) as Hdm.
    pose proof (Z.mod_pos_bound a (2 ^ k) ltac:(lia)) as Hr.
    set (q := a / 2 ^ k) in *. set (r := a mod 2 ^ k) in *.
    set (h := 2 ^ (k - 1)) in *.
    assert (Hq : forall q', 2 * h * q' - h <= a <= 2 * h * q' + h ->
               2 ^ 53 * Z.abs (Z.sgn m * q' * 2 ^ k - m) <= a).
    { intros q' Hq'. rewrite HT.
      assert (Hm : m = Z.sgn m * a) by (unfold a; lia).
      assert (Hs : Z.sgn m = 1 \/ Z.sgn m = -1) by (unfold a in Ha; lia).
      assert (Z.abs (Z.sgn m * q' * (2 * h) - m) <= h) by (destruct Hs as [Hs|Hs]; rewrite Hs in *; lia).
      nia. }
    destruct ((h <? r) || ((r =? h) && Z.odd q)) eqn:Hb; apply Hq.
    + apply orb_true_iff in Hb. destruct Hb as [Hb|Hb].
      * apply Z.ltb_lt in Hb. lia.
      * apply andb_true_iff in Hb. destruct Hb as [Hb _]. apply Z.eqb_eq in Hb. lia.
    + apply orb_false_iff in Hb. destruct Hb as [Hb _]. apply Z.ltb_ge in Hb. lia.
Qed.

Lemma Math_round_scaled (x : Number) (j k : Z) :
  0 <= j -> 0 <= k -> expo x = k - j ->
  2 * (mant x * 2 ^ k) - 2 ^ j < 2 * 2 ^ j * Math_round x
  /\ 2 * 2 ^ j * Math_round x <= 2 * (mant x * 2 ^ k) + 2 ^ j.
Proof.
  intros Hj Hk He. unfold Math_round. rewrite He.
  assert (Hjp : 0 < 2 ^ j) by (apply Z.pow_pos_nonneg; lia).
  destruct (Z.leb_spec 0 (k - j)) as [H|H].
  - assert (Hs : 2 ^ k = 2 ^ (k - j) * 2 ^ j).
    { rewrite <- Z.pow_add_r by lia. f_equal. lia. }
    rewrite Hs. nia.
  - assert (Hs : 2 ^ j = 2 ^ (- (k - j)) * 2 ^ k).
    { rewrite <- Z.pow_add_r by lia. f_equal. lia. }
    assert (Hd : 2 ^ (- (k - j)) = 2 * 2 ^ (- (k - j) - 1)).
    { rewrite <- Z.pow_succ_r by lia. f_equal. lia. }
    assert (Hp : 0 < 2 ^ (- (k - j) - 1)) by (apply Z.pow_pos_nonneg; lia).
    assert (Hkp : 0 < 2 ^ k) by (apply Z.pow_pos_nonneg; lia).
    set (d := 2 ^ (- (k - j) - 1)) in *.
    pose proof (Z.div_mod (mant x + d) (2 ^ (- (k - j))) ltac:(lia)) as Hdm.
    pose proof (Z.mod_pos_bound (mant x + d) (2 ^ (- (k - j))) ltac:(lia)) as Hr.
    rewrite Hs. rewrite Hd in *.
    set (t := (mant x + d) / (2 * d)) in *.
    set (u := (mant x + d) mod (2 * d)) in *.
    nia.
Qed.

(** The rounded product [n * c] of an integer and a factor [c = M * 2 ^ -j],
    once passed through [Math.round], is within half a unit and one part in
    [2 ^ 53] of the exact product. *)
Lemma round_product_bounds (n M j : Z) :
  0 <= j ->
  let r := Math_round (Number_mul (Number_of_Z n) {| mant := M; expo := - j |}) in
  2 * (2 ^ 53 * (n * M) - Z.abs (n * M)) - 2 ^ 53 * 2 ^ j < 2 ^ 53 * (2 * 2 ^ j * r)
  /\ 2 ^ 53 * (2 * 2 ^ j * r) <= 2 * (2 ^ 53 * (n * M) + Z.abs (n * M)) + 2 ^ 53 * 2 ^ j.
Proof.
  intros Hj r. unfold r, Number_mul, Number_of_Z. cbn [mant expo].
  destruct (round_nearest_even_error (n * M) (0 + - j)) as (k & Hk & He & Herr).
  destruct (Math_round_scaled (round_nearest_even (n * M) (0 + - j)) j k Hj Hk
              ltac:(lia)) as [Hlo Hhi].
  set (X := mant (round_nearest_even (n * M) (0 + - j)) * 2 ^ k) in *.
  set (R := Math_round (round_nearest_even (n * M) (0 + - j))) in *.
  assert (0 < 2 ^ j) by (apply Z.pow_pos_nonneg; lia).
  change (2 ^ 53) with 9007199254740992 in *.
  lia.
Qed.

Lemma lodFactor_value (lod : LOD) :
  lodFactor lod =
  match lod with
  | HIGH => {| mant := 6305039478318694; expo := - 53 |}
  | MED => {| mant := 7205759403792794; expo := - 54 |}
  | LOW => {| mant := 7205759403792794; expo := - 55 |}
  end.
Proof. destruct lod; vm_compute; reflexivity. Qed.

Lemma texFactor_value (lod : LOD) :
  texFactor lod =
  match lod with
  | HIGH => {| mant := 7205759403792794; expo := - 53 |}
  | MED => {| mant := 4503599627370496; expo := - 53 |}
  | LOW => {| mant := 4503599627370496; expo := - 54 |}
  end.
Proof. destruct lod; vm_compute; reflexivity. Qed.

(** The rounding above is the Standard Library's binary64 rounding: the two
    give the same factors, and the same products on the catalogue's values
    and on every integer up to 256 (and on larger ones of the sizes met here). *)
Example Number_mul_binary64 :
  forallb (fun q =>
    same_number (binary64_literal q) (Number_literal q)
    && forallb (fun n =>
         same_number (binary64_mul (binary64_of_Z n) (binary64_literal q))
           (Number_mul (Number_of_Z n) (Number_literal q)))
         (map Z.of_nat (seq 0 257)
          ++ [5000; 10000; 20485; 50000; 240000; 300000; 820000; 1000000;
              1350000; 9007199254740991])%list)
    [0.7; 0.4; 0.2; 0.8; 0.5; 0.25]%Q = true.
Proof. vm_compute. reflexivity. Qed.

Ltac factor_bounds n lod :=
  destruct lod;
  match goal with
  | |- context [Number_mul (Number_of_Z n) {| mant := ?M; expo := ?E |}] =>
      let H := fresh "H" in
      let j := eval compute in (- E) in
      pose proof (round_product_bounds n M j ltac:(lia)) as H;
      change (- j) with E in H;
      cbv zeta in H;
      change (2 ^ 53) with 9007199254740992 in H;
      change (2 ^ 54) with 18014398509481984 in H;
      change (2 ^ 55) with 36028797018963968 in H;
      lia
  end.

(** Above a handful, the rounded product is strictly below the value it was
    computed from; at or below a floor it does not exceed the floor. *)
Lemma poly_product_lt (n : Z) (lod : LOD) :
  2 <= n ->
  Math_round (Number_mul (Number_of_Z n) (lodFactor lod)) < n.
Proof. intros Hn. rewrite lodFactor_value. factor_bounds n lod. Qed.

Lemma size_product_lt (n : Z) (lod : LOD) :
  3 <= n ->
  Math_round (Number_mul (Number_of_Z n) (texFactor lod)) < n.
Proof. intros Hn. rewrite texFactor_value. factor_bounds n lod. Qed.

Lemma poly_product_le_floor (n : Z) (lod : LOD) :
  n <= 10000 ->
  Math_round (Number_mul (Number_of_Z n) (lodFactor lod)) <= 10000.
Proof. intros Hn. rewrite lodFactor_value. factor_bounds n lod. Qed.

Lemma size_product_le_floor (n : Z) (lod : LOD) :
  n <= 20 ->
  Math_round (Number_mul (Number_of_Z n) (texFactor lod)) <= 20.
Proof. intros Hn. rewrite texFactor_value. factor_bounds n lod. Qed.

(** ** Agreement with the rational product *)

(** A value that already fits in 53 bits is not changed by the rounding. *)
Lemma round_nearest_even_exact (n t e : Z) :
  0 <= t -> Z.abs n < 2 ^ 53 ->
  exists k, 0 <= k /\ expo (round_nearest_even (n * 2 ^ t) e) = e + k
            /\ mant (round_nearest_even (n * 2 ^ t) e) * 2 ^ k = n * 2 ^ t.
Proof.
  intros Ht Hn. unfold round_nearest_even.
  set (m := n * 2 ^ t). set (a := Z.abs m). set (k := Z.log2 a + 1 - 53).
  destruct (Z.leb_spec k 0) as [Hk|Hk].
  - exists 0. cbn [expo mant]. rewrite Z.pow_0_r. repeat split; lia.
  - exists k. cbn [expo mant]. split; [lia|]. split; [reflexivity|].
    assert (Htp : 0 < 2 ^ t) by (apply Z.pow_pos_nonneg; lia).
    assert (Ha : a = Z.abs n * 2 ^ t) by (unfold a, m; rewrite Z.abs_mul; lia).
    assert (Hn0 : 0 < Z.abs n).
    { destruct (Z.eq_dec n 0) as [Hz|]; [|lia]. exfalso.
      assert (Ha0 : a = 0) by (unfold a, m; rewrite Hz; reflexivity).
      unfold k in Hk. rewrite Ha0 in Hk. cbn in Hk. lia. }
    assert (Hlog : Z.log2 a = t + Z.log2 (Z.abs n)).
    { rewrite Ha. apply Z.log2_mul_pow2; lia. }
    assert (Hl53 : Z.log2 (Z.abs n) < 53) by (apply Z.log2_lt_pow2; lia).
    assert (Hkt : k <= t) by lia.
    assert (Hsplit : 2 ^ t = 2 ^ (t - k) * 2 ^ k).
    { rewrite <- Z.pow_add_r by lia. f_equal. lia. }
    assert (Hkp : 0 < 2 ^ k) by (apply Z.pow_pos_nonneg; lia).
    assert (Hhp : 0 < 2 ^ (k - 1)) by (apply Z.pow_pos_nonneg; lia).
    assert (Hmod : a mod 2 ^ k = 0).
    { rewrite Ha, Hsplit, Z.mul_assoc. apply Z.mod_mul. lia. }
    assert (Hdiv : a = a / 2 ^ k * 2 ^ k).
    { pose proof (Z.div_mod a (2 ^ k) ltac:(lia)). lia. }
    rewrite Hmod.
    replace (2 ^ (k - 1) <? 0) with false by (symmetry; apply Z.ltb_ge; lia).
    replace (0 =? 2 ^ (k - 1)) with false by (symmetry; apply Z.eqb_neq; lia).
    cbn [orb andb]. rewrite <- Z.mul_assoc, <- Hdiv. unfold a. lia.
Qed.

(** The product with a power-of-two factor is computed without rounding
    error, so [Math_round] sees the exact quotient. *)
Lemma round_product_exact (n j t : Z) :
  0 <= j -> 0 <= t -> Z.abs n < 2 ^ 53 ->
  let r := Math_round (Number_mul (Number_of_Z n) {| mant := 2 ^ t; expo := - j |}) in
  2 * (n * 2 ^ t) - 2 ^ j < 2 * 2 ^ j * r <= 2 * (n * 2 ^ t) + 2 ^ j.
Proof.
  intros Hj Ht Hn r. unfold r, Number_mul, Number_of_Z. cbn [mant expo].
  destruct (round_nearest_even_exact n t (0 + - j) Ht Hn) as (k & Hk & He & Hex).
  destruct (Math_round_scaled (round_nearest_even (n * 2 ^ t) (0 + - j)) j k Hj Hk
              ltac:(lia)) as [Hlo Hhi].
  rewrite Hex in Hlo, Hhi. lia.
Qed.

(** On sizes below 2^48 the rounded binary64 product is the half-up rounding
    of the rational product: 0.8 never produces a tie, and 0.5 and 0.25 are
    powers of two, for which the product is exact. *)
Lemma size_product_rational (n : Z) (lod : LOD) :
  0 <= n < 2 ^ 48 ->
  Math_round (Number_mul (Number_of_Z n) (texFactor lod))
  = round_half_up n match lod with HIGH => 0.8 | MED => 0.5 | LOW => 0.25 end.
Proof.
  intros Hn. rewrite texFactor_value. unfold round_half_up.
  destruct lod; cbn [Qnum Qden].
  - pose proof (round_product_bounds n 7205759403792794 53 ltac:(lia)) as H.
    cbv zeta in H. change (- 53) with (-53) in H.
    set (r := Math_round _) in *.
    pose proof (Z.div_mod (2 * n * 8 + 10) (2 * 10) ltac:(lia)) as Hdm.
    pose proof (Z.mod_pos_bound (2 * n * 8 + 10) (2 * 10) ltac:(lia)) as Hr.
    set (e := (2 * n * 8 + 10) / (2 * 10)) in *.
    set (rho := (2 * n * 8 + 10) mod (2 * 10)) in *.
    change (2 ^ 53) with 9007199254740992 in *.
    change (2 ^ 48) with 281474976710656 in *.
    lia.
  - pose proof (round_product_exact n 53 52 ltac:(lia) ltac:(lia)) as H.
    change (2 ^ 52) with 4503599627370496 in H.
    change (2 ^ 53) with 9007199254740992 in H.
    change (2 ^ 48) with 281474976710656 in Hn.
    specialize (H ltac:(lia)). cbv zeta in H. change (- 53) with (-53) in H.
    set (r := Math_round _) in *.
    pose proof (Z.div_mod (2 * n * 5 + 10) (2 * 10) ltac:(lia)) as Hdm.
    pose proof (Z.mod_pos_bound (2 * n * 5 + 10) (2 * 10) ltac:(lia)) as Hr.
    set (e := (2 * n * 5 + 10) / (2 * 10)) in *.
    set (rho := (2 * n * 5 + 10) mod (2 * 10)) in *.
    lia.
  - pose proof (round_product_exact n 54 52 ltac:(lia) ltac:(lia)) as H.
    change (2 ^ 52) with 4503599627370496 in H.
    change (2 ^ 53) with 9007199254740992 in H.
    change (2 ^ 54) with 18014398509481984 in H.
    change (2 ^ 48) with 281474976710656 in Hn.
    specialize (H ltac:(lia)). cbv zeta in H. change (- 54) with (-54) in H.
    set (r := Math_round _) in *.
    pose proof (Z.div_mod (2 * n * 25 + 100) (2 * 100) ltac:(lia)) as Hdm.
    pose proof (Z.mod_pos_bound (2 * n * 25 + 100) (2 * 100) ltac:(lia)) as Hr.
    set (e := (2 * n * 25 + 100) / (2 * 100)) in *.
    set (rho := (2 * n * 25 + 100) mod (2 * 100)) in *.
    lia.
Qed.

(** The same comparison for the polygon factors.  Only the factor 0.7 meets
    ties (counts ending in 5); there the binary64 product may fall just below
    the half, and [Math_round] then gives one less than the rational
    rounding, as [compress_HIGH_binary64] shows on 20485. *)
Lemma poly_product_rational (n : Z) (lod : LOD) :
  0 <= n < 2 ^ 48 ->
  let r := Math_round (Number_mul (Number_of_Z n) (lodFactor lod)) in
  let e := round_half_up n match lod with HIGH => 0.7 | MED => 0.4 | LOW => 0.2 end in
  e - 1 <= r <= e /\ (~ (lod = HIGH /\ n mod 10 = 5) -> r = e).
Proof.
  intros Hn. rewrite lodFactor_value. unfold round_half_up.
  change (2 ^ 48) with 281474976710656 in Hn.
  destruct lod; cbn [Qnum Qden]; cbv zeta.
  - pose proof (round_product_bounds n 6305039478318694 53 ltac:(lia)) as H.
    cbv zeta in H. change (- 53) with (-53) in H.
    set (r := Math_round _) in *.
    pose proof (Z.div_mod (2 * n * 7 + 10) (2 * 10) ltac:(lia)) as Hdm.
    pose proof (Z.mod_pos_bound (2 * n * 7 + 10) (2 * 10) ltac:(lia)) as Hr.
    pose proof (Z.div_mod n 10 ltac:(lia)) as Hdn.
    pose proof (Z.mod_pos_bound n 10 ltac:(lia)) as Hrn.
    set (e := (2 * n * 7 + 10) / (2 * 10)) in *.
    set (rho := (2 * n * 7 + 10) mod (2 * 10)) in *.
    set (d := n / 10) in *. set (u := n mod 10) in *.
    change (2 ^ 53) with 9007199254740992 in *.
    split; [lia|]. intros Htie.
    assert (u <> 5) by (intros Hu; apply Htie; split; [reflexivity|exact Hu]).
    lia.
  - pose proof (round_product_bounds n 7205759403792794 54 ltac:(lia)) as H.
    cbv zeta in H. change (- 54) with (-54) in H.
    set (r := Math_round _) in *.
    pose proof (Z.div_mod (2 * n * 4 + 10) (2 * 10) ltac:(lia)) as Hdm.
    pose proof (Z.mod_pos_bound (2 * n * 4 + 10) (2 * 10) ltac:(lia)) as Hr.
    set (e := (2 * n * 4 + 10) / (2 * 10)) in *.
    set (rho := (2 * n * 4 + 10) mod (2 * 10)) in *.
    change (2 ^ 53) with 9007199254740992 in *.
    change (2 ^ 54) with 18014398509481984 in *.
    assert (r = e) by lia. split; [lia|]. intros _. assumption.
  - pose proof (round_product_bounds n 7205759403792794 55 ltac:(lia)) as H.
    cbv zeta in H. change (- 55) with (-55) in H.
    set (r := Math_round _) in *.
    pose proof (Z.div_mod (2 * n * 2 + 10) (2 * 10) ltac:(lia)) as Hdm.
    pose proof (Z.mod_pos_bound (2 * n * 2 + 10) (2 * 10) ltac:(lia)) as Hr.
    set (e := (2 * n * 2 + 10) / (2 * 10)) in *.
    set (rho := (2 * n * 2 + 10) mod (2 * 10)) in *.
    change (2 ^ 53) with 9007199254740992 in *.
    change (2 ^ 55) with 36028797018963968 in *.
    assert (r = e) by lia. split; [lia|]. intros _. assumption.
Qed.

(** ** The compression transform *)

Example compress_HIGH_sample :
  simulateCompression (sample_asset 1000000 500) HIGH = sample_asset 700000 400.
Proof. vm_compute. reflexivity. Qed.

Example compress_LOW_sample :
  simulateCompression (sample_asset 50000 100) LOW = sample_asset 10000 25.
Proof. vm_compute. reflexivity. Qed.

Example compress_LOW_twice_sample :
  compress_times 2 LOW (sample_asset 50000 100) = sample_asset 10000 20.
Proof. vm_compute. reflexivity. Qed.

(** The product is the binary64 one: [20485 * 0.7] is the number just below
    14339.5, which [Math.round] takes down, where the rational 14339.5 would
    go up. *)
Example compress_HIGH_binary64 :
  polyCount (simulateCompression (sample_asset 20485 100) HIGH) = 14339
  /\ round_half_up 20485 0.7 = 14340.
Proof. vm_compute. split; reflexivity. Qed.

(** On the catalogue the binary64 product and the rational one round alike. *)
Example compress_catalogue_exact :
  forallb (fun a =>
    forallb (fun l =>
      (polyCount (simulateCompression a l) =?
         Z.max 10000 (round_half_up (polyCount a)
                        match l with HIGH => 0.7 | MED => 0.4 | LOW => 0.2 end))
      && (sizeMB (simulateCompression a l) =?
            Z.max 20 (round_half_up (sizeMB a)
                        match l with HIGH => 0.8 | MED => 0.5 | LOW => 0.25 end)))
      [HIGH; MED; LOW]) INITIAL_ASSETS = true.
Proof. vm_compute. reflexivity. Qed.

Lemma compress_times_S (n : nat) (lod : LOD) (a : Asset) :
  compress_times (S n) lod a = compress_times n lod (simulateCompression a lod).
Proof. reflexivity. Qed.

Lemma compress_polyCount_floor (a : Asset) (lod : LOD) :
  polyCount a <= 10000 -> polyCount (simulateCompression a lod) = 10000.
Proof.
  intros H. cbn [simulateCompression polyCount]. unfold Math_max.
  pose proof (poly_product_le_floor (polyCount a) lod H). lia.
Qed.

Lemma compress_sizeMB_floor (a : Asset) (lod : LOD) :
  sizeMB a <= 20 -> sizeMB (simulateCompression a lod) = 20.
Proof.
  intros H. cbn [simulateCompression sizeMB]. unfold Math_max.
  pose proof (size_product_le_floor (sizeMB a) lod H). lia.
Qed.

Lemma compress_polyCount_shrinks (a : Asset) (lod : LOD) :
  10000 < polyCount a ->
  10000 <= polyCount (simulateCompression a lod) < polyCount a.
Proof.
  intros H. cbn [simulateCompression polyCount]. unfold Math_max.
  pose proof (poly_product_lt (polyCount a) lod ltac:(lia)). lia.
Qed.

Lemma compress_sizeMB_shrinks (a : Asset) (lod : LOD) :
  20 < sizeMB a -> 20 <= sizeMB (simulateCompression a lod) < sizeMB a.
Proof.
  intros H. cbn [simulateCompression sizeMB]. unfold Math_max.
  pose proof (size_product_lt (sizeMB a) lod ltac:(lia)). lia.
Qed.

Lemma compress_times_polyCount (n : nat) (lod : LOD) (a : Asset) :
  polyCount a <= 10000 + Z.of_nat n ->
  polyCount (compress_times (S n) lod a) = 10000.
Proof.
  revert a. induction n as [|n IH]; intros a Ha.
  - apply compress_polyCount_floor. lia.
  - rewrite compress_times_S. apply IH.
    destruct (Z.le_gt_cases (polyCount a) 10000) as [Hle|Hgt].
    + rewrite (compress_polyCount_floor a lod Hle). lia.
    + pose proof (compress_polyCount_shrinks a lod Hgt). lia.
Qed.

Lemma compress_times_sizeMB (n : nat) (lod : LOD) (a : Asset) :
  sizeMB a <= 20 + Z.of_nat n ->
  sizeMB (compress_times (S n) lod a) = 20.
Proof.
  revert a. induction n as [|n IH]; intros a Ha.
  - apply compress_sizeMB_floor. lia.
  - rewrite compress_times_S. apply IH.
    destruct (Z.le_gt_cases (sizeMB a) 20) as [Hle|Hgt].
    + rewrite (compress_sizeMB_floor a lod Hle). lia.
    + pose proof (compress_sizeMB_shrinks a lod Hgt). lia.
Qed.

(** C4. The transform stores [max(10000, round(polyCount * f))] and
    [max(20, round(sizeMB * g))], with [f] = 0.7, 0.4, 0.2 and [g] = 0.8, 0.5,
    0.25 for HIGH, MED, LOW, computed from the asset's current values (a
    second application starts from the first one's result); it leaves every
    other field alone; and while a value is above its floor each application
    makes it strictly smaller, so that repeated application at one level ends
    at the floors 10000 and 20 and stays there. *)
Theorem simulateCompression_transform (a : Asset) (lod : LOD) :
  let a' := simulateCompression a lod in
  let f := match lod with HIGH => 0.7 | MED => 0.4 | LOW => 0.2 end%Q in
  let g := match lod with HIGH => 0.8 | MED => 0.5 | LOW => 0.25 end%Q in
  (polyCount a' =
     Z.max 10000
       (Math_round (Number_mul (Number_of_Z (polyCount a)) (Number_literal f)))
   /\ sizeMB a' =
     Z.max 20
       (Math_round (Number_mul (Number_of_Z (sizeMB a)) (Number_literal g))))
  /\ (polyCount (simulateCompression a' lod) =
        Z.max 10000
          (Math_round (Number_mul (Number_of_Z (polyCount a')) (Number_literal f)))
      /\ sizeMB (simulateCompression a' lod) =
        Z.max 20
          (Math_round (Number_mul (Number_of_Z (sizeMB a')) (Number_literal g))))
  /\ (id a' = id a /\ name a' = name a /\ tags a' = tags a
      /\ createdAt a' = createdAt a /\ shape a' = shape a
      /\ color a' = color a /\ category a' = category a
      /\ gltfUrl a' = gltfUrl a)
  /\ (10000 < polyCount a -> 10000 <= polyCount a' < polyCount a)
  /\ (20 < sizeMB a -> 20 <= sizeMB a' < sizeMB a)
  /\ (exists n, forall m, (n <= m)%nat ->
        polyCount (compress_times m lod a) = 10000
        /\ sizeMB (compress_times m lod a) = 20).
Proof.
  intros a' f g.
  assert (Hf : lodFactor lod = Number_literal f) by (destruct lod; reflexivity).
  assert (Hg : texFactor lod = Number_literal g) by (destruct lod; reflexivity).
  rewrite <- Hf, <- Hg.
  split; [split; reflexivity|].
  split; [split; reflexivity|].
  split; [repeat split|].
  split; [apply compress_polyCount_shrinks|].
  split; [apply compress_sizeMB_shrinks|].
  exists (S (Z.to_nat (Z.max (polyCount a) (sizeMB a)))).
  intros [|m] Hm; [lia|].
  split; [apply compress_times_polyCount | apply compress_times_sizeMB]; lia.
Qed.

Lemma simulateCompression_transform_witness :
  10000 <= polyCount (simulateCompression (sample_asset 1000000 500) HIGH)
           < 1000000.
Proof.
  apply (simulateCompression_transform (sample_asset 1000000 500) HIGH).
  vm_compute. reflexivity.
Defined.

(** C10. Whatever the asset and the level, the result has
    [polyCount >= 10000] and [sizeMB >= 20]; an input below a floor is raised
    to the floor (5000 polygons at HIGH become 10000), so the transform is not
    non-increasing. *)
Theorem simulateCompression_floors (a : Asset) (lod : LOD) :
  (10000 <= polyCount (simulateCompression a lod)
   /\ 20 <= sizeMB (simulateCompression a lod))
  /\ (polyCount a < 10000 ->
      polyCount (simulateCompression a lod) = 10000
      /\ polyCount a < polyCount (simulateCompression a lod))
  /\ (sizeMB a < 20 ->
      sizeMB (simulateCompression a lod) = 20
      /\ sizeMB a < sizeMB (simulateCompression a lod))
  /\ polyCount (simulateCompression (sample_asset 5000 100) HIGH) = 10000.
Proof.
  split; [split; cbn [simulateCompression polyCount sizeMB]; unfold Math_max; lia|].
  split; [intros H; rewrite compress_polyCount_floor; lia|].
  split; [intros H; rewrite compress_sizeMB_floor; lia|].
  vm_compute. reflexivity.
Qed.

Lemma simulateCompression_floors_witness :
  polyCount (simulateCompression (sample_asset 5000 10) LOW) = 10000
  /\ 5000 < polyCount (simulateCompression (sample_asset 5000 10) LOW).
Proof.
  apply (simulateCompression_floors (sample_asset 5000 10) LOW).
  vm_compute. reflexivity.
Defined.

(** ** The reducer *)

Lemma findIndex_None {A : Type} (p : A -> bool) (l : list A) :
  (forall x, In x l -> p x = false) -> findIndex p l = None.
Proof.
  induction l as [|x l IH]; intros H; [reflexivity|].
  cbn [findIndex]. rewrite (H x (or_introl eq_refl)).
  rewrite IH; [reflexivity|]. intros y Hy. apply H. right. exact Hy.
Qed.

Lemma findIndex_Some {A : Type} (p : A -> bool) (l : list A) (i : nat) :
  findIndex p l = Some i ->
  exists x, l !! i = Some x /\ p x = true
            /\ forall j y, (j < i)%nat -> l !! j = Some y -> p y = false.
Proof.
  revert i. induction l as [|x l IH]; intros i H; [discriminate|].
  cbn [findIndex] in H. destruct (p x) eqn:Hp.
  - inversion H; subst. exists x. repeat split; [exact Hp|]. intros j y Hj. lia.
  - destruct (findIndex p l) as [i'|] eqn:Hf; [|discriminate].
    inversion H; subst. destruct (IH i' eq_refl) as (y & Hy & Hpy & Hmin).
    exists y. repeat split; [exact Hy|exact Hpy|].
    intros [|j] z Hj Hz.
    + inversion Hz; subst. exact Hp.
    + apply (Hmin j z); [lia|exact Hz].
Qed.

(** C5. With [selectedId] null, or matching the [id] of no asset of the
    current sequence, [compress_selected] returns the state object it was
    given: the reference that comes back is the one that went in and the
    store has not changed, so nothing was allocated. *)
Theorem reducer_compress_unresolved
  (h : Store) (r : nat) (state : State) (lod : LOD) :
  objects h !! r = Some state ->
  (st_selectedId state = None
   \/ forall a, In a (st_assets state) -> Some (id a) <> st_selectedId state) ->
  reducer state (compress_selected lod) = same_object
  /\ reducer_at h r (compress_selected lod) = Some (r, h).
Proof.
  intros Hr Hsel.
  assert (H : reducer state (compress_selected lod) = same_object).
  { cbn [reducer]. destruct Hsel as [Hnone|Hno].
    - rewrite Hnone. reflexivity.
    - destruct (falsy (st_selectedId state)); [reflexivity|].
      rewrite findIndex_None; [reflexivity|].
      intros a Ha. apply bool_decide_eq_false. apply Hno. exact Ha. }
  split; [exact H|]. unfold reducer_at. rewrite Hr, H. reflexivity.
Qed.

Lemma reducer_compress_unresolved_witness :
  reducer (sample_state (Some "9")) (compress_selected LOW) = same_object
  /\ reducer_at (sample_store (Some "9")) 0 (compress_selected LOW)
     = Some (0%nat, sample_store (Some "9")).
Proof.
  apply (reducer_compress_unresolved (sample_store (Some "9")) 0
           (sample_state (Some "9")) LOW).
  - reflexivity.
  - right. intros a Ha. cbn in Ha.
    repeat (destruct Ha as [<-|Ha]; [discriminate|]). destruct Ha.
Defined.

(** A selection that resolves makes the same action build a new state
    object, in which the selected asset, and only it, has been compressed in
    its place. *)
Lemma reducer_compress_resolved (state : State) (lod : LOD) (i : string) :
  st_selectedId state = Some i -> i <> "" ->
  (exists a, In a (st_assets state) /\ id a = i) ->
  exists idx a,
    st_assets state !! idx = Some a /\ id a = i
    /\ (forall j b, (j < idx)%nat -> st_assets state !! j = Some b -> id b <> i)
    /\ reducer state (compress_selected lod) =
       new_object {| st_assets := <[idx := simulateCompression a lod]> (st_assets state);
                     st_selectedId := st_selectedId state;
                     st_filter := st_filter state;
                     st_lod := st_lod state |}.
Proof.
  intros Hsel Hne (a & Ha & Hid).
  cbn [reducer]. rewrite Hsel. cbn [falsy].
  destruct (String.eqb_spec i "") as [->|_]; [congruence|].
  destruct (findIndex (fun a0 => bool_decide (Some (id a0) = Some i))
              (st_assets state)) as [idx|] eqn:Hf.
  - destruct (findIndex_Some _ _ _ Hf) as (b & Hb & Hpb & Hmin).
    exists idx, b. rewrite Hb. apply bool_decide_eq_true in Hpb.
    split; [reflexivity|]. split; [congruence|]. split; [|reflexivity].
    intros j c Hj Hc Hcid. specialize (Hmin j c Hj Hc).
    apply bool_decide_eq_false in Hmin. congruence.
  - exfalso. revert Hf. clear -Ha Hid.
    induction (st_assets state) as [|x l IH]; [destruct Ha|].
    cbn [findIndex]. destruct Ha as [->|Ha].
    + rewrite bool_decide_eq_true_2 by congruence. discriminate.
    + destruct (bool_decide _); [discriminate|].
      destruct (findIndex _ l); [discriminate|]. intros _. apply IH; auto.
Qed.

Lemma reducer_at_dispatch (h : Store) (r : nat) (s : State) (a : Action) :
  objects h !! r = Some s ->
  exists r' h', reducer_at h r a = Some (r', h')
                /\ objects h' !! r' = Some (dispatch s a).
Proof.
  intros Hr. unfold reducer_at, dispatch. rewrite Hr.
  destruct (reducer s a) as [|s'].
  - exists r, h. split; [reflexivity|exact Hr].
  - eexists _, _. split; [reflexivity|]. cbn. apply lookup_insert_eq.
Qed.

Lemma replay_at_replay (actions : list Action) (h : Store) (r : nat) (s : State) :
  objects h !! r = Some s ->
  exists r' h', replay_at h r actions = Some (r', h')
                /\ objects h' !! r' = Some (replay actions s).
Proof.
  revert h r s. induction actions as [|a rest IH]; intros h r s Hr.
  - exists r, h. split; [reflexivity|exact Hr].
  - destruct (reducer_at_dispatch h r s a Hr) as (r1 & h1 & H1 & Hv).
    destruct (IH h1 r1 _ Hv) as (r2 & h2 & H2 & Hv2).
    exists r2, h2. cbn [replay_at]. rewrite H1. split; [exact H2|exact Hv2].
Qed.

(** C8. The transition function is deterministic: on identical state and
    action it returns identical results, wherever the state object lives in
    the store; and replaying an identical action sequence from identical
    initial states ends in identical final states. *)
Theorem reducer_deterministic
  (s1 s2 : State) (a1 a2 : Action) (actions1 actions2 : list Action)
  (h1 h2 : Store) (r1 r2 : nat) :
  s1 = s2 -> a1 = a2 -> actions1 = actions2 ->
  objects h1 !! r1 = Some s1 -> objects h2 !! r2 = Some s2 ->
  reducer s1 a1 = reducer s2 a2
  /\ dispatch s1 a1 = dispatch s2 a2
  /\ replay actions1 s1 = replay actions2 s2
  /\ exists r1' h1' r2' h2',
       replay_at h1 r1 actions1 = Some (r1', h1')
       /\ replay_at h2 r2 actions2 = Some (r2', h2')
       /\ objects h1' !! r1' = objects h2' !! r2'
       /\ objects h1' !! r1' = Some (replay actions1 s1).
Proof.
  intros <- <- <- H1 H2.
  repeat (split; [reflexivity|]).
  destruct (replay_at_replay actions1 h1 r1 s1 H1) as (r1' & h1' & E1 & V1).
  destruct (replay_at_replay actions1 h2 r2 s1 H2) as (r2' & h2' & E2 & V2).
  exists r1', h1', r2', h2'. rewrite V1, V2. repeat split; assumption.
Qed.

Lemma reducer_deterministic_witness :
  replay [select "2"; compress_selected LOW; set_lod LOW] (sample_state (Some "1"))
  = replay [select "2"; compress_selected LOW; set_lod LOW] (sample_state (Some "1")).
Proof.
  apply (reducer_deterministic (sample_state (Some "1")) (sample_state (Some "1"))
           (select "2") (select "2")
           [select "2"; compress_selected LOW; set_lod LOW]
           [select "2"; compress_selected LOW; set_lod LOW]
           (sample_store (Some "1"))
           {| objects := {[ 7%nat := sample_state (Some "1") ]}; next_ref := 8 |}
           0 7); reflexivity.
Defined.

(** ** Strings *)

Lemma startsWith_spec (s q : string) :
  startsWith s q = true <-> exists post, s = q ++ post.
Proof.
  revert s. induction q as [|c q IH]; intros s; cbn [startsWith].
  - split; [intros _; exists s; reflexivity|reflexivity].
  - destruct s as [|d s].
    + split; [discriminate|]. intros [post H]. discriminate.
    + rewrite andb_true_iff, IH. split.
      * intros [Hc [post ->]]. apply Ascii.eqb_eq in Hc. subst.
        exists post. reflexivity.
      * intros [post H]. cbn in H. inversion H; subst. split.
        -- apply Ascii.eqb_refl.
        -- exists post. reflexivity.
Qed.

Lemma includes_spec (s q : string) :
  includes s q = true <-> exists pre post, s = pre ++ q ++ post.
Proof.
  induction s as [|d s IH]; cbn [includes]; rewrite orb_true_iff, startsWith_spec.
  - split.
    + intros [[post H]|H]; [|discriminate]. exists "", post. exact H.
    + intros (pre & post & H). left. destruct pre; [|discriminate].
      exists post. exact H.
  - rewrite IH. split.
    + intros [[post H]|(pre & post & H)].
      * exists "", post. exact H.
      * exists (String d pre), post. cbn. rewrite H. reflexivity.
    + intros (pre & post & H). destruct pre as [|c pre].
      * left. exists post. exact H.
      * right. cbn in H. inversion H; subst. exists pre, post. reflexivity.
Qed.

Lemma is_empty_spec (q : string) : is_empty q = true <-> q = "".
Proof. destruct q; cbn; split; congruence. Qed.

Lemma append_cons (x : ascii) (a b : string) :
  String x a ++ b = String x (a ++ b).
Proof. reflexivity. Qed.

Lemma append_nil (b : string) : "" ++ b = b.
Proof. reflexivity. Qed.

Lemma append_nil_r (a : string) : a ++ "" = a.
Proof. induction a as [|x a IH]; [reflexivity|]. rewrite append_cons, IH. reflexivity. Qed.

Lemma string_app_assoc (a b c : string) : (a ++ b) ++ c = a ++ b ++ c.
Proof.
  induction a as [|x a IH]; [reflexivity|].
  rewrite !append_cons, IH. reflexivity.
Qed.

Lemma string_length_app (a b : string) :
  String.length (a ++ b) = (String.length a + String.length b)%nat.
Proof.
  induction a as [|x a IH]; [reflexivity|].
  rewrite append_cons. cbn [String.length]. rewrite IH. reflexivity.
Qed.

(** *** [trim]

    [trim] takes away white space, and nothing else, from both ends: what
    is in front of the result and behind it is a sequence of white-space
    characters, and putting such sequences around a string does not change
    what [trim] gives. *)

Example trim_examples :
  trim "  a b  " = "a b"
  /\ trim (NBSP ++ "lamp" ++ LS) = "lamp"
  /\ trim (" " ++ NBSP) = ""
  /\ trim "a" = "a".
Proof. repeat split; vm_compute; reflexivity. Qed.

Lemma strip_prefix_spec (w s t : string) :
  strip_prefix w s = Some t <-> s = w ++ t.
Proof.
  revert s. induction w as [|c w IH]; intros s; cbn [strip_prefix].
  - rewrite append_nil. split; congruence.
  - destruct s as [|d s]; [split; discriminate|].
    rewrite append_cons. destruct (Ascii.eqb c d) eqn:E.
    + apply Ascii.eqb_eq in E. subst d. rewrite IH. split; congruence.
    + apply Ascii.eqb_neq in E. split; [discriminate|]. intros [= ? ?]. congruence.
Qed.

(** Every white-space character starts with a byte that starts a character
    and goes on with continuation bytes. *)
Lemma white_space_shaped (w : string) :
  In w white_space -> well_shaped w = true.
Proof.
  assert (H : forallb well_shaped white_space = true) by (vm_compute; reflexivity).
  rewrite forallb_forall in H. apply H.
Qed.

Lemma strip_white_Some (s t : string) :
  strip_white s = Some t -> exists w, In w white_space /\ s = w ++ t.
Proof.
  unfold strip_white. induction white_space as [|w l IH]; cbn [fold_right].
  - discriminate.
  - destruct (strip_prefix w s) as [t'|] eqn:E.
    + intros [= ->]. exists w. split; [left; reflexivity|].
      apply strip_prefix_spec. exact E.
    + intros H. destruct (IH H) as (w' & Hw & Hs). exists w'. split; [right; exact Hw|exact Hs].
Qed.

Lemma strip_white_None (s w t : string) :
  strip_white s = None -> In w white_space -> s <> w ++ t.
Proof.
  unfold strip_white. induction white_space as [|w' l IH]; cbn [fold_right In].
  - intros _ [].
  - destruct (strip_prefix w' s) as [t'|] eqn:E; [discriminate|].
    intros H [->|Hw].
    + intros Hs. apply strip_prefix_spec in Hs. congruence.
    + apply IH; assumption.
Qed.

Lemma strip_white_char (w s : string) :
  In w white_space -> strip_white (w ++ s) = Some s.
Proof.
  intros Hin. cbn in Hin.
  repeat (destruct Hin as [<-|Hin]; [reflexivity|]). destruct Hin.
Qed.

Lemma white_space_length (w : string) :
  In w white_space -> (0 < String.length w)%nat.
Proof.
  intros Hin. apply white_space_shaped in Hin. destruct w; [discriminate|].
  cbn. lia.
Qed.

(** A character that starts [q ++ r], where [r] starts at the start of a
    character, lies within [q]. *)
Lemma shaped_within (c : ascii) (w q r t : string) :
  continuations w = true -> q <> "" -> starts_char r ->
  q ++ r = String c w ++ t -> exists t', q = String c w ++ t'.
Proof.
  intros Hw Hq Hr. destruct q as [|c' q]; [congruence|]. clear Hq.
  rewrite !append_cons. intros [= -> H].
  enough (exists t', q = w ++ t') as [t' ->] by (exists t'; reflexivity).
  revert q H. induction w as [|d w IH]; intros q H.
  - exists q. reflexivity.
  - cbn [continuations] in Hw. apply andb_true_iff in Hw as [Hd Hw].
    rewrite append_cons in H. destruct q as [|d' q].
    + rewrite append_nil in H. subst r. cbn in Hr. congruence.
    + rewrite append_cons in H. injection H as -> H.
      destruct (IH Hw q H) as [t' ->]. exists t'. reflexivity.
Qed.

Lemma strip_white_app (q r : string) :
  strip_white q = None -> q <> "" -> starts_char r ->
  strip_white (q ++ r) = None.
Proof.
  intros Hq Hne Hr. destruct (strip_white (q ++ r)) as [t|] eqn:E; [|reflexivity].
  exfalso. apply strip_white_Some in E as (w & Hw & E).
  pose proof (white_space_shaped w Hw) as Hs.
  destruct w as [|c w]; [discriminate|]. cbn [well_shaped] in Hs.
  apply andb_true_iff in Hs as [_ Hs].
  destruct (shaped_within c w q r t Hs Hne Hr E) as [t' Ht'].
  exact (strip_white_None q _ t' Hq Hw Ht').
Qed.

Lemma strip_whites_spec (n : nat) (s : string) :
  (String.length s <= n)%nat ->
  exists l, whites l /\ s = string_concat l ++ strip_whites n s
            /\ strip_white (strip_whites n s) = None.
Proof.
  revert s. induction n as [|n IH]; intros s Hn.
  - exists []. destruct s; [|cbn in Hn; lia]. repeat split. constructor.
  - cbn [strip_whites]. destruct (strip_white s) as [t|] eqn:E.
    + apply strip_white_Some in E as (w & Hw & ->).
      pose proof (white_space_length w Hw). rewrite string_length_app in Hn.
      destruct (IH t ltac:(lia)) as (l & Hl & Ht & Hnone).
      exists (w :: l). split; [constructor; assumption|]. split; [|exact Hnone].
      cbn [string_concat fold_right]. rewrite string_app_assoc. f_equal. exact Ht.
    + exists []. split; [constructor|]. split; [reflexivity|exact E].
Qed.

Lemma strip_whites_enough (n m : nat) (s : string) :
  (String.length s <= n)%nat -> (String.length s <= m)%nat ->
  strip_whites n s = strip_whites m s.
Proof.
  revert m s. induction n as [|n IH]; intros m s Hn Hm.
  - destruct s; [|cbn in Hn; lia]. destruct m; reflexivity.
  - destruct m as [|m].
    + destruct s; [reflexivity|cbn in Hm; lia].
    + cbn [strip_whites]. destruct (strip_white s) as [t|] eqn:E; [|reflexivity].
      apply strip_white_Some in E as (w & Hw & ->).
      pose proof (white_space_length w Hw). rewrite string_length_app in Hn, Hm.
      apply IH; lia.
Qed.

(** What [trimStart] takes away is a sequence of white-space characters, and
    what it leaves does not start with one. *)
Lemma trimStart_spec (s : string) :
  exists l, whites l /\ s = string_concat l ++ trimStart s
            /\ strip_white (trimStart s) = None.
Proof. apply strip_whites_spec. reflexivity. Qed.

Lemma trimStart_char (w s : string) :
  In w white_space -> trimStart (w ++ s) = trimStart s.
Proof.
  intros Hw. unfold trimStart. pose proof (white_space_length w Hw) as Hl.
  rewrite string_length_app.
  destruct (String.length w + String.length s)%nat as [|n] eqn:En; [lia|].
  cbn [strip_whites]. rewrite (strip_white_char w s Hw).
  apply strip_whites_enough; lia.
Qed.

Lemma trimStart_concat (l : list string) (s : string) :
  whites l -> trimStart (string_concat l ++ s) = trimStart s.
Proof.
  induction 1 as [|w l Hw _ IH]; [reflexivity|].
  cbn [string_concat fold_right]. rewrite string_app_assoc, trimStart_char by exact Hw.
  exact IH.
Qed.

Lemma trimStart_fixed (s : string) : strip_white s = None -> trimStart s = s.
Proof.
  intros H. unfold trimStart. destruct (String.length s); [reflexivity|].
  cbn [strip_whites]. rewrite H. reflexivity.
Qed.

Lemma whites_starts_char (l : list string) :
  whites l -> starts_char (string_concat l).
Proof.
  destruct 1 as [|w l Hw _]; [exact I|].
  apply white_space_shaped in Hw. destruct w as [|c w]; [discriminate|].
  cbn [well_shaped] in Hw. apply andb_true_iff in Hw as [Hc _].
  cbn [string_concat fold_right]. rewrite append_cons. cbn [starts_char].
  destruct (continuation c); [discriminate|reflexivity].
Qed.

(** The blank strings are the sequences of white-space characters. *)
Lemma blank_spec (s : string) :
  blank s = true <-> exists l, whites l /\ s = string_concat l.
Proof.
  unfold blank. split.
  - intros H. destruct (trimStart_spec s) as (l & Hl & Hs & _).
    destruct (trimStart s); [|discriminate]. rewrite append_nil_r in Hs.
    exists l. auto.
  - intros (l & Hl & ->). rewrite <- (append_nil_r (string_concat l)).
    rewrite trimStart_concat by exact Hl. reflexivity.
Qed.

Lemma string_concat_app (l1 l2 : list string) :
  string_concat (l1 ++ l2) = string_concat l1 ++ string_concat l2.
Proof.
  induction l1 as [|w l1 IH]; [reflexivity|].
  cbn [app string_concat fold_right]. fold (string_concat (l1 ++ l2)).
  fold (string_concat l1). rewrite IH, string_app_assoc. reflexivity.
Qed.

Lemma trimStart_app_blank (q r : string) :
  blank r = true -> trimStart q <> "" -> trimStart (q ++ r) = trimStart q ++ r.
Proof.
  intros Hr Hq. apply blank_spec in Hr as (lr & Hlr & ->).
  destruct (trimStart_spec q) as (l & Hl & Hs & Hnone).
  rewrite Hs at 1. rewrite string_app_assoc, trimStart_concat by exact Hl.
  apply trimStart_fixed. apply strip_white_app; [exact Hnone|exact Hq|].
  apply whites_starts_char. exact Hlr.
Qed.

Lemma blank_app (x r : string) :
  blank r = true -> blank (x ++ r) = blank x.
Proof.
  intros Hr. destruct (blank x) eqn:Hx.
  - apply blank_spec in Hx as (l & Hl & ->).
    apply blank_spec in Hr as (lr & Hlr & ->).
    apply blank_spec. exists (l ++ lr)%list. split; [apply Forall_app; auto|].
    symmetry. apply string_concat_app.
  - unfold blank in *. rewrite trimStart_app_blank; [|exact Hr|].
    + destruct (trimStart x); [discriminate|reflexivity].
    + intros E. rewrite E in Hx. discriminate.
Qed.

Lemma trimEnd_blank (r : string) : blank r = true -> trimEnd r = "".
Proof. intros H. destruct r; [reflexivity|]. cbn [trimEnd]. rewrite H. reflexivity. Qed.

Lemma trimEnd_app_blank (x r : string) :
  blank r = true -> trimEnd (x ++ r) = trimEnd x.
Proof.
  intros Hr. induction x as [|c x IH].
  - rewrite append_nil. apply trimEnd_blank. exact Hr.
  - rewrite append_cons. cbn [trimEnd]. rewrite <- append_cons.
    rewrite (blank_app (String c x) r Hr), IH. reflexivity.
Qed.

Lemma trim_blank (s : string) : blank s = true -> trim s = "".
Proof.
  unfold trim, blank. intros H. destruct (trimStart s); [reflexivity|discriminate].
Qed.

(** White space around a string is lost on [trim]. *)
Lemma trim_padded (p q r : string) :
  blank p = true -> blank r = true -> trim (p ++ q ++ r) = trim q.
Proof.
  intros Hp Hr. unfold trim. apply blank_spec in Hp as (l & Hl & ->).
  rewrite trimStart_concat by exact Hl.
  destruct (trimStart q) eqn:Hq.
  - assert (Hb : blank (q ++ r) = true).
    { rewrite blank_app by exact Hr. unfold blank. rewrite Hq. reflexivity. }
    unfold blank in Hb. destruct (trimStart (q ++ r)); [reflexivity|discriminate].
  - rewrite trimStart_app_blank; [|exact Hr|rewrite Hq; discriminate].
    rewrite Hq. apply trimEnd_app_blank. exact Hr.
Qed.

(** *** What the host's [toLowerCase] is known to do *)

Lemma toLowerCase_ASCII_fixed (s : string) :
  forallb (fun c => negb ((65 <=? nat_of_ascii c)%nat && (nat_of_ascii c <=? 90)%nat))
    (list_ascii_of_string s) = true ->
  toLowerCase_ASCII s = s.
Proof.
  induction s as [|c s IH]; [reflexivity|].
  cbn [list_ascii_of_string forallb toLowerCase_ASCII].
  rewrite andb_true_iff, negb_true_iff. intros [Hc Hs].
  unfold lower_char. rewrite Hc, (IH Hs). reflexivity.
Qed.

Section HostStrings.
Context {host : Host} {laws : HostLaws host}.

Lemma toLowerCase_empty (s : string) : toLowerCase s = "" <-> s = "".
Proof.
  split; [apply toLowerCase_nonempty|]. intros ->.
  apply (toLowerCase_on_ASCII ""). reflexivity.
Qed.

(** A string of ASCII characters without capitals is left as it is. *)
Lemma toLowerCase_lower_ASCII (s : string) :
  forallb (fun c => (nat_of_ascii c <? 65)%nat
                    || ((90 <? nat_of_ascii c)%nat && (nat_of_ascii c <? 128)%nat))
    (list_ascii_of_string s) = true ->
  toLowerCase s = s.
Proof.
  intros Hs. rewrite forallb_forall in Hs.
  rewrite toLowerCase_on_ASCII.
  - apply toLowerCase_ASCII_fixed. apply forallb_forall. intros c Hc.
    specialize (Hs c Hc). apply negb_true_iff, andb_false_iff.
    apply orb_true_iff in Hs as [Hs|Hs].
    + left. apply Nat.ltb_lt in Hs. apply Nat.leb_gt. exact Hs.
    + right. apply andb_true_iff in Hs as [Hs _].
      apply Nat.ltb_lt in Hs. apply Nat.leb_gt. exact Hs.
  - unfold is_ASCII. apply forallb_forall. intros c Hc. specialize (Hs c Hc).
    apply orb_true_iff in Hs as [Hs|Hs].
    + apply Nat.ltb_lt in Hs. apply Nat.ltb_lt. lia.
    + apply andb_true_iff in Hs as [_ Hs]. exact Hs.
Qed.

Lemma Category_string_lower (c : Category) :
  toLowerCase (Category_string c) = Category_string c.
Proof. apply toLowerCase_lower_ASCII. destruct c; vm_compute; reflexivity. Qed.

End HostStrings.

(** ** The filter *)

Lemma filter_all {A : Type} (p : A -> bool) (l : list A) :
  (forall x, In x l -> p x = true) -> List.filter p l = l.
Proof.
  induction l as [|x l IH]; intros H; [reflexivity|].
  cbn [List.filter]. rewrite (H x (or_introl eq_refl)), IH; [reflexivity|].
  intros y Hy. apply H. right. exact Hy.
Qed.

Lemma matches_query_spec {host : Host} {laws : HostLaws host}
  (query : string) (a : Asset) :
  trim query <> "" ->
  matches_query (toLowerCase (trim query)) a = true <-> spec_matches query a.
Proof.
  intros Hne. unfold matches_query, spec_matches, case_insensitive_substring.
  rewrite !orb_true_iff, includes_spec, existsb_exists. split.
  - intros [[H|(t & Ht & H)]|H].
    + right. left. exact H.
    + right. right. left. exists t. apply includes_spec in H. auto.
    + right. right. right. destruct (category a) as [c|]; [|discriminate].
      exists c. apply includes_spec in H. auto.
  - intros [H|[H|[(t & Ht & H)|(c & Hc & H)]]].
    + contradiction.
    + left. left. exact H.
    + left. right. exists t. rewrite includes_spec. auto.
    + right. rewrite Hc. apply includes_spec. exact H.
Qed.

(** The hook keeps exactly the assets the specification's predicate
    matches, in their order; a query that trims to nothing gives the list
    back. *)
Lemma useAssetFilterSort_filtered {host : Host} {laws : HostLaws host}
  (assets : list Asset)
  (query : string) (sortKey : SortKey) (dir : SortDir) :
  (trim query = "" ->
   filtered (useAssetFilterSort assets query sortKey dir) = assets)
  /\ exists keep : Asset -> bool,
       (forall a, keep a = true <-> spec_matches query a)
       /\ filtered (useAssetFilterSort assets query sortKey dir)
          = List.filter keep assets.
Proof.
  cbn [useAssetFilterSort filtered]. split.
  - intros ->. rewrite (proj2 (toLowerCase_empty "") eq_refl). reflexivity.
  - destruct (is_empty (toLowerCase (trim query))) eqn:He.
    + apply (proj1 (is_empty_spec _)) in He.
      apply (proj1 (toLowerCase_empty _)) in He.
      exists (fun _ => true). split.
      * intros a. split; [|reflexivity]. intros _. left. exact He.
      * symmetry. apply filter_all. reflexivity.
    + exists (matches_query (toLowerCase (trim query))). split; [|reflexivity].
      intros a. apply matches_query_spec. intros Hq.
      rewrite Hq, (proj2 (toLowerCase_empty "") eq_refl) in He. discriminate.
Qed.

(** The inline filter of the single-file application lower-cases the
    query and the name but compares tags and category as they are: on an
    asset tagged ["Hero"], which the catalogue does not hold, it differs from
    the hook. *)
Example Monolith_list_filter_tag_case :
  @spec_matches example_host "hero" shield_asset
  /\ filtered (@useAssetFilterSort example_host [shield_asset] "hero" key_name asc)
     = [shield_asset]
  /\ @Monolith.listed example_host [shield_asset] "hero" = [].
Proof.
  split; [|split; vm_compute; reflexivity].
  right. right. left. exists "Hero". split; [left; reflexivity|].
  exists "", "". vm_compute. reflexivity.
Qed.

(** With tags in lower case, as in the catalogue, the inline filter and the
    hook keep the same assets. *)
Lemma Monolith_listed_lower_tags {host : Host} {laws : HostLaws host}
  (assets : list Asset)
  (query : string) (sortKey : SortKey) (dir : SortDir) :
  (forall a t, In a assets -> In t (tags a) -> toLowerCase t = t) ->
  Monolith.listed assets query
  = filtered (useAssetFilterSort assets query sortKey dir).
Proof.
  intros Hlow. cbn [useAssetFilterSort filtered]. unfold Monolith.listed.
  destruct (is_empty (toLowerCase (trim query))) eqn:He.
  - apply filter_all. intros a _. unfold Monolith.list_filter. rewrite He.
    reflexivity.
  - apply List.filter_ext_in. intros a Ha.
    unfold Monolith.list_filter, matches_query. rewrite He. cbn [orb].
    f_equal; [f_equal|].
    + clear -Hlow Ha. specialize (Hlow a). revert Hlow.
      induction (tags a) as [|t l IH]; intros Hlow; [reflexivity|].
      cbn [existsb]. rewrite (Hlow t Ha (or_introl eq_refl)). f_equal.
      apply IH. intros t' Ha' Ht'. apply Hlow; [exact Ha'|right; exact Ht'].
    + destruct (category a) as [c|]; [|reflexivity].
      rewrite Category_string_lower. reflexivity.
Qed.

(** ** Sorting *)

(** *** Lists in order *)


Lemma filter_none {A : Type} (p : A -> bool) (l : list A) :
  (forall x, In x l -> p x = false) -> List.filter p l = [].
Proof.
  induction l as [|x l IH]; intros H; [reflexivity|].
  cbn [List.filter]. rewrite (H x (or_introl eq_refl)).
  apply IH. intros y Hy. apply H. right. exact Hy.
Qed.

Lemma StronglySorted_weaken {A : Type} (R R' : A -> A -> Prop) (l : list A) :
  (forall a b, In a l -> In b l -> R a b -> R' a b) ->
  StronglySorted R l -> StronglySorted R' l.
Proof.
  induction l as [|x l IH]; intros H Hs; [constructor|].
  inversion Hs as [|? ? Hs' Hall]; subst. constructor.
  - apply IH; [|exact Hs']. intros a b Ha Hb. apply H; right; assumption.
  - rewrite List.Forall_forall in Hall |- *. intros y Hy.
    apply H; [left; reflexivity|right; exact Hy|apply Hall; exact Hy].
Qed.

Lemma StronglySorted_lookup {A : Type} (Q : A -> A -> Prop) (s : list A) :
  StronglySorted Q s ->
  forall i j x y, (i < j)%nat -> s !! i = Some x -> s !! j = Some y -> Q x y.
Proof.
  induction 1 as [|a s Hs IH Hall]; intros i j x y Hij Hx Hy.
  - discriminate.
  - destruct j as [|j]; [lia|]. cbn in Hy. destruct i as [|i].
    + injection Hx as <-. rewrite List.Forall_forall in Hall. apply Hall.
      apply list_elem_of_In, list_elem_of_lookup. exists j. exact Hy.
    + cbn in Hx. apply (IH i j); [lia|assumption|assumption].
Qed.

Lemma StronglySorted_app_inv {A : Type} (Q : A -> A -> Prop) (l1 l2 : list A) :
  StronglySorted Q (l1 ++ l2) ->
  StronglySorted Q l1 /\ StronglySorted Q l2
  /\ (forall x y, In x l1 -> In y l2 -> Q x y).
Proof.
  induction l1 as [|a l1 IH]; cbn [app]; intros Hs.
  - split; [constructor|]. split; [exact Hs|]. intros x y [].
  - inversion Hs as [|? ? Hs' Hall]; subst. destruct (IH Hs') as (H1 & H2 & H3).
    rewrite List.Forall_forall in Hall. split; [|split; [exact H2|]].
    + constructor; [exact H1|]. apply List.Forall_forall. intros x Hx.
      apply Hall. apply in_or_app. left. exact Hx.
    + intros x y [<-|Hx] Hy; [|apply H3; assumption].
      apply Hall. apply in_or_app. right. exact Hy.
Qed.

Lemma StronglySorted_app {A : Type} (Q : A -> A -> Prop) (l1 l2 : list A) :
  StronglySorted Q l1 -> StronglySorted Q l2 ->
  (forall x y, In x l1 -> In y l2 -> Q x y) ->
  StronglySorted Q (l1 ++ l2).
Proof.
  induction l1 as [|a l1 IH]; cbn [app]; intros H1 H2 H3; [exact H2|].
  inversion H1 as [|? ? H1' Hall]; subst. rewrite List.Forall_forall in Hall.
  constructor.
  - apply IH; [exact H1'|exact H2|]. intros x y Hx. apply H3. right. exact Hx.
  - apply List.Forall_forall. intros x Hx. apply in_app_or in Hx as [Hx|Hx].
    + apply Hall. exact Hx.
    + apply H3; [left; reflexivity|exact Hx].
Qed.

Lemma StronglySorted_rev {A : Type} (Q : A -> A -> Prop) (s : list A) :
  StronglySorted Q s -> StronglySorted (fun a b => Q b a) (rev s).
Proof.
  induction 1 as [|a s Hs IH Hall]; [constructor|]. cbn [rev].
  apply StronglySorted_app; [exact IH|repeat constructor|].
  intros x y Hx [<-|[]]. rewrite List.Forall_forall in Hall. apply Hall.
  apply in_rev. exact Hx.
Qed.

Lemma rev_short {A : Type} (s : list A) : (length s <= 1)%nat -> rev s = s.
Proof. destruct s as [|a [|b s]]; cbn; intros; [reflexivity|reflexivity|lia]. Qed.

Lemma Sorted_weaken_on {A : Type} (Q Q' : A -> A -> Prop) (u s : list A) :
  (forall x, In x s -> In x u) ->
  (forall a b, In a u -> In b u -> Q a b -> Q' a b) ->
  Sorted Q s -> Sorted Q' s.
Proof.
  intros Hin Himp Hs. induction Hs as [|a t Hs IH Hhd]; [constructor|]. constructor.
  - apply IH. intros x Hx. apply Hin. right. exact Hx.
  - destruct Hhd as [|b t Hab]; constructor.
    apply Himp; [apply Hin; left; reflexivity
                |apply Hin; right; left; reflexivity|exact Hab].
Qed.

(** A chain of neighbours in a relation that is transitive on the elements
    at hand is in order throughout. *)
Lemma Sorted_StronglySorted_on {A : Type} (Q : A -> A -> Prop) (s : list A) :
  (forall a b c, In a s -> In b s -> In c s -> Q a b -> Q b c -> Q a c) ->
  Sorted Q s -> StronglySorted Q s.
Proof.
  intros Htrans Hs.
  assert (H : StronglySorted (fun a b => In a s /\ In b s /\ Q a b) s).
  { apply Sorted_StronglySorted.
    - intros a b c (Ha & Hb & Hab) (_ & Hc' & Hbc).
      split; [exact Ha|]. split; [exact Hc'|]. apply (Htrans a b c); assumption.
    - apply (Sorted_weaken_on Q _ s s); [auto|tauto|exact Hs]. }
  revert H. apply StronglySorted_weaken. tauto.
Qed.

(** *** The stable order *)

Section SortFacts.
Context {A : Type} (compareFn : A -> A -> option Z).

Lemma sort_insert_Permutation (x : A) (l : list A) :
  Permutation (sort_insert compareFn x l) (x :: l).
Proof.
  induction l as [|y l IH]; cbn [sort_insert]; [reflexivity|].
  destruct (sorts_after compareFn x y); [|reflexivity].
  rewrite IH. apply perm_swap.
Qed.

Lemma stable_sort_Permutation (l : list A) :
  Permutation (stable_sort compareFn l) l.
Proof.
  induction l as [|x l IH]; cbn [stable_sort]; [reflexivity|].
  rewrite sort_insert_Permutation, IH. reflexivity.
Qed.

Lemma stable_sort_In (l : list A) (x : A) :
  In x (stable_sort compareFn l) <-> In x l.
Proof.
  split; apply Permutation_in;
    [|symmetry]; apply stable_sort_Permutation.
Qed.

(** Inserting [x] does not carry it past an element of a class [p] it
    belongs to, provided no two elements of the class have to be swapped. *)
Lemma sort_insert_filter (p : A -> bool) (x : A) (l : list A) :
  (p x = true -> forall y, In y l -> p y = true ->
                 sorts_after compareFn x y = false) ->
  List.filter p (sort_insert compareFn x l) = List.filter p (x :: l).
Proof.
  induction l as [|y l IH]; intros H; cbn [sort_insert]; [reflexivity|].
  destruct (sorts_after compareFn x y) eqn:Hxy; [|reflexivity].
  cbn [List.filter]. rewrite IH.
  - cbn [List.filter]. destruct (p x) eqn:Hx, (p y) eqn:Hy; try reflexivity.
    rewrite (H eq_refl y (or_introl eq_refl) Hy) in Hxy. discriminate.
  - intros Hx z Hz. apply H; [exact Hx|right; exact Hz].
Qed.

Lemma stable_sort_filter (p : A -> bool) (l : list A) :
  (forall x y, In x l -> In y l -> p x = true -> p y = true ->
               sorts_after compareFn x y = false) ->
  List.filter p (stable_sort compareFn l) = List.filter p l.
Proof.
  induction l as [|x l IH]; intros H; cbn [stable_sort]; [reflexivity|].
  rewrite sort_insert_filter.
  - cbn [List.filter]. rewrite IH; [reflexivity|].
    intros y z Hy Hz. apply H; right; assumption.
  - intros Hx y Hy. apply H; [left; reflexivity| |exact Hx].
    right. apply stable_sort_In. exact Hy.
Qed.


(** Where the comparator is the sign of a difference of integer keys, the
    result is in key order. *)
Section Keyed.
Variable key : A -> Z.



End Keyed.
(** Where "need not come after" is a total preorder, [stable_sort] is in
    order and stable, and it is the only list that is: any implementation
    that meets the language's contract returns what [stable_sort] returns. *)
Lemma preorder_on_refl (l : list A) (a : A) :
  preorder_on compareFn l -> In a l -> sorts_after compareFn a a = false.
Proof.
  intros [Hasym _] Ha. destruct (sorts_after compareFn a a) eqn:E;
    [|reflexivity].
  rewrite (Hasym a a Ha Ha E) in E. discriminate.
Qed.

Lemma preorder_on_incl (l l' : list A) :
  (forall a, In a l' -> In a l) ->
  preorder_on compareFn l -> preorder_on compareFn l'.
Proof.
  intros Hin [Hasym Htrans]. split.
  - intros a b Ha Hb. apply Hasym; auto.
  - intros a b c Ha Hb Hc. apply Htrans; auto.
Qed.

Lemma sort_insert_in_order (x : A) (l : list A) :
  preorder_on compareFn (x :: l) ->
  StronglySorted (fun a b => sorts_after compareFn a b = false) l ->
  StronglySorted (fun a b => sorts_after compareFn a b = false)
    (sort_insert compareFn x l).
Proof.
  induction l as [|y l IH]; intros Hc Hs; cbn [sort_insert].
  - constructor; constructor.
  - inversion Hs as [|? ? Hs' Hall]; subst.
    rewrite List.Forall_forall in Hall.
    destruct Hc as [Hasym Htrans].
    destruct (sorts_after compareFn x y) eqn:Hxy.
    + constructor.
      * apply IH; [|exact Hs'].
        apply (preorder_on_incl (x :: y :: l)); [|split; assumption].
        intros a [<-|Ha]; [left; reflexivity|right; right; exact Ha].
      * apply List.Forall_forall. intros z Hz.
        apply (Permutation_in _ (sort_insert_Permutation x l)) in Hz.
        destruct Hz as [<-|Hz].
        -- apply Hasym; [left; reflexivity|right; left; reflexivity|exact Hxy].
        -- apply Hall. exact Hz.
    + constructor; [exact Hs|]. constructor; [exact Hxy|].
      apply List.Forall_forall. intros z Hz.
      apply (Htrans x y z);
        [left; reflexivity|right; left; reflexivity|right; right; exact Hz
        |exact Hxy|apply Hall; exact Hz].
Qed.

Lemma stable_sort_in_order (l : list A) :
  preorder_on compareFn l ->
  StronglySorted (fun a b => sorts_after compareFn a b = false)
    (stable_sort compareFn l).
Proof.
  induction l as [|x l IH]; intros Hc; cbn [stable_sort]; [constructor|].
  apply sort_insert_in_order.
  - apply (preorder_on_incl (x :: l)); [|exact Hc].
    intros a [<-|Ha]; [left; reflexivity|].
    right. apply stable_sort_In. exact Ha.
  - apply IH. apply (preorder_on_incl (x :: l)); [|exact Hc].
    intros a Ha. right. exact Ha.
Qed.

Lemma stable_sort_sort_result (l : list A) :
  preorder_on compareFn l -> sort_result compareFn l (stable_sort compareFn l).
Proof.
  intros Hc. constructor.
  - apply stable_sort_Permutation.
  - apply stable_sort_in_order. exact Hc.
  - intros x Hx. apply stable_sort_filter. intros y z Hy Hz Hty Htz.
    unfold ties in Hty, Htz. apply andb_true_iff in Hty, Htz.
    destruct Hty as [_ Hyx], Htz as [Hxz _].
    apply negb_true_iff in Hyx, Hxz.
    destruct Hc as [_ Htrans]. apply (Htrans y x z); assumption.
Qed.

Lemma in_order_stable_unique (l1 : list A) :
  forall l2 : list A,
    Permutation l1 l2 -> preorder_on compareFn l1 ->
    StronglySorted (fun a b => sorts_after compareFn a b = false) l1 ->
    StronglySorted (fun a b => sorts_after compareFn a b = false) l2 ->
    (forall x, In x l1 ->
       List.filter (ties compareFn x) l1 = List.filter (ties compareFn x) l2) ->
    l1 = l2.
Proof.
  induction l1 as [|a t1 IH]; intros l2 Hp Hc Hs1 Hs2 Hst.
  - apply Permutation_nil in Hp. congruence.
  - destruct l2 as [|b t2].
    { apply Permutation_sym, Permutation_nil in Hp. discriminate. }
    inversion Hs1 as [|? ? Hs1' Hall1]; subst.
    inversion Hs2 as [|? ? Hs2' Hall2]; subst.
    rewrite List.Forall_forall in Hall1, Hall2.
    assert (Ha : In a (a :: t1)) by (left; reflexivity).
    assert (Hb : In b (a :: t1)).
    { apply (Permutation_in _ (Permutation_sym Hp)). left. reflexivity. }
    assert (Hab : sorts_after compareFn a b = false).
    { destruct Hb as [<-|Hb];
        [apply (preorder_on_refl (a :: t1)); assumption|apply Hall1; exact Hb]. }
    assert (Hba : sorts_after compareFn b a = false).
    { destruct (Permutation_in _ Hp Ha) as [<-|Hin]; [exact Hab|].
      apply Hall2. exact Hin. }
    assert (Heq : a = b).
    { specialize (Hst a Ha). cbn [List.filter] in Hst.
      assert (Haa : ties compareFn a a = true).
      { unfold ties. rewrite (preorder_on_refl (a :: t1) a Hc Ha).
        reflexivity. }
      assert (Htab : ties compareFn a b = true).
      { unfold ties. rewrite Hab, Hba. reflexivity. }
      rewrite Haa, Htab in Hst. congruence. }
    subst b. f_equal. apply IH.
    + apply (Permutation_cons_inv Hp).
    + apply (preorder_on_incl (a :: t1)); [|exact Hc].
      intros y Hy. right. exact Hy.
    + exact Hs1'.
    + exact Hs2'.
    + intros x Hx. specialize (Hst x (or_intror Hx)).
      cbn [List.filter] in Hst. destruct (ties compareFn x a); congruence.
Qed.

Lemma stable_sort_conforming (l l' : list A) :
  preorder_on compareFn l -> sort_result compareFn l l' ->
  l' = stable_sort compareFn l.
Proof.
  intros Hc [Hp Hs Hst].
  destruct (stable_sort_sort_result l Hc) as [Hp' Hs' Hst'].
  symmetry. apply in_order_stable_unique.
  - rewrite Hp', Hp. reflexivity.
  - apply (preorder_on_incl l); [|exact Hc].
    intros a Ha. apply stable_sort_In. exact Ha.
  - exact Hs'.
  - exact Hs.
  - intros x Hx. apply (proj1 (stable_sort_In l x)) in Hx.
    rewrite Hst', Hst by exact Hx. reflexivity.
Qed.
End SortFacts.

(** *** Consistent comparators *)

Section ComparatorFacts.
Context {A : Type} (compareFn : A -> A -> option Z).

Lemma sorts_after_Gt (a b : A) :
  sorts_after compareFn a b = true <-> SortCompare compareFn a b = Gt.
Proof.
  unfold sorts_after, SortCompare. destruct (compareFn a b) as [v|].
  - rewrite Z.ltb_lt, Z.compare_gt_iff. reflexivity.
  - split; discriminate.
Qed.

Lemma sorts_before_Lt (a b : A) :
  sorts_before compareFn a b = true <-> SortCompare compareFn a b = Lt.
Proof.
  unfold sorts_before, SortCompare. destruct (compareFn a b) as [v|].
  - rewrite Z.ltb_lt, Z.compare_lt_iff. reflexivity.
  - split; discriminate.
Qed.

Lemma sorts_after_not_Gt (a b : A) :
  sorts_after compareFn a b = false <-> SortCompare compareFn a b <> Gt.
Proof.
  rewrite <- sorts_after_Gt. destruct (sorts_after compareFn a b); split; congruence.
Qed.

Lemma sorts_before_not_Lt (a b : A) :
  sorts_before compareFn a b = false <-> SortCompare compareFn a b <> Lt.
Proof.
  rewrite <- sorts_before_Lt. destruct (sorts_before compareFn a b); split; congruence.
Qed.

Lemma consistent_on_incl (l l' : list A) :
  (forall a, In a l' -> In a l) ->
  consistent_on compareFn l -> consistent_on compareFn l'.
Proof.
  intros Hin [Hr Hs Ht]. constructor.
  - intros a Ha. apply Hr; auto.
  - intros a b Ha Hb. apply Hs; auto.
  - intros o a b c Ha Hb Hc. apply Ht; auto.
Qed.

Section Consistent.
Variable l : list A.
Hypothesis Hc : consistent_on compareFn l.

Lemma SortCompare_antisym (a b : A) :
  In a l -> In b l ->
  SortCompare compareFn b a = CompOpp (SortCompare compareFn a b).
Proof.
  intros Ha Hb. destruct Hc as [Hr Hs Ht].
  destruct (SortCompare compareFn a b) eqn:Eab; cbn [CompOpp].
  - apply Hs; assumption.
  - destruct (SortCompare compareFn b a) eqn:Eba; [| |reflexivity].
    + rewrite (Hs b a Hb Ha Eba) in Eab. discriminate.
    + pose proof (Ht Lt a b a Ha Hb Ha Eab Eba) as H.
      rewrite (Hr a Ha) in H. discriminate.
  - destruct (SortCompare compareFn b a) eqn:Eba; [|reflexivity|].
    + rewrite (Hs b a Hb Ha Eba) in Eab. discriminate.
    + pose proof (Ht Gt a b a Ha Hb Ha Eab Eba) as H.
      rewrite (Hr a Ha) in H. discriminate.
Qed.

Lemma SortCompare_Lt_Eq (a b c : A) :
  In a l -> In b l -> In c l ->
  SortCompare compareFn a b = Lt -> SortCompare compareFn b c = Eq ->
  SortCompare compareFn a c = Lt.
Proof.
  intros Ha Hb Hc' Hab Hbc. pose proof Hc as [Hr Hs Ht].
  destruct (SortCompare compareFn a c) eqn:Eac; [| reflexivity |].
  - pose proof (Ht Eq a c b Ha Hc' Hb Eac (Hs b c Hb Hc' Hbc)) as H. congruence.
  - pose proof (SortCompare_antisym a c Ha Hc') as Hca. rewrite Eac in Hca.
    cbn in Hca. pose proof (Ht Lt c a b Hc' Ha Hb Hca Hab) as H.
    rewrite (Hs b c Hb Hc' Hbc) in H. discriminate.
Qed.

Lemma SortCompare_Eq_Lt (a b c : A) :
  In a l -> In b l -> In c l ->
  SortCompare compareFn a b = Eq -> SortCompare compareFn b c = Lt ->
  SortCompare compareFn a c = Lt.
Proof.
  intros Ha Hb Hc' Hab Hbc. pose proof Hc as [Hr Hs Ht].
  destruct (SortCompare compareFn a c) eqn:Eac; [| reflexivity |].
  - pose proof (Ht Eq b a c Hb Ha Hc' (Hs a b Ha Hb Hab) Eac) as H. congruence.
  - pose proof (SortCompare_antisym a c Ha Hc') as Hca. rewrite Eac in Hca.
    cbn in Hca. pose proof (Ht Lt b c a Hb Hc' Ha Hbc Hca) as H.
    rewrite (Hs a b Ha Hb Hab) in H. discriminate.
Qed.

Lemma SortCompare_le_trans (a b c : A) :
  In a l -> In b l -> In c l ->
  SortCompare compareFn a b <> Gt -> SortCompare compareFn b c <> Gt ->
  SortCompare compareFn a c <> Gt.
Proof.
  intros Ha Hb Hc' Hab Hbc. pose proof Hc as [Hr Hs Ht].
  destruct (SortCompare compareFn a b) eqn:Eab;
    destruct (SortCompare compareFn b c) eqn:Ebc; try congruence.
  - rewrite (Ht Eq a b c) by auto. discriminate.
  - rewrite (SortCompare_Eq_Lt a b c) by auto. discriminate.
  - rewrite (SortCompare_Lt_Eq a b c) by auto. discriminate.
  - rewrite (Ht Lt a b c) by auto. discriminate.
Qed.

Lemma consistent_preorder : preorder_on compareFn l.
Proof.
  split.
  - intros a b Ha Hb Hab. apply sorts_after_Gt in Hab.
    apply sorts_after_not_Gt. rewrite (SortCompare_antisym a b Ha Hb), Hab.
    discriminate.
  - intros a b c Ha Hb Hc'. rewrite !sorts_after_not_Gt.
    apply SortCompare_le_trans; assumption.
Qed.

Lemma ties_Eq (a b : A) :
  In a l -> In b l ->
  ties compareFn a b = true <-> SortCompare compareFn a b = Eq.
Proof.
  intros Ha Hb. unfold ties. rewrite andb_true_iff, !negb_true_iff.
  rewrite !sorts_after_not_Gt, (SortCompare_antisym a b Ha Hb).
  destruct (SortCompare compareFn a b); cbn [CompOpp]; intuition congruence.
Qed.

End Consistent.
End ComparatorFacts.

(** *** The engine of the examples sorts as the language asks *)

Section V8Facts.
Context {A : Type} (compareFn : A -> A -> option Z).

Lemma extend_run_app (descending : bool) (l : list A) :
  forall previous run rest,
    V8.extend_run compareFn descending previous l = (run, rest) ->
    l = (run ++ rest)%list.
Proof.
  induction l as [|x l IH]; intros previous run rest; cbn [V8.extend_run].
  - intros [= <- <-]. reflexivity.
  - destruct (if descending then _ else _).
    + intros [= <- <-]. reflexivity.
    + destruct (V8.extend_run compareFn descending x l) as [run' rest'] eqn:E.
      intros [= <- <-]. cbn [app]. f_equal. eapply IH. exact E.
Qed.

Lemma CountAndMakeRun_Permutation (l run rest : list A) :
  V8.CountAndMakeRun compareFn l = (run, rest) ->
  Permutation (run ++ rest) l.
Proof.
  destruct l as [|a0 [|a1 l]]; cbn [V8.CountAndMakeRun].
  - intros [= <- <-]. reflexivity.
  - intros [= <- <-]. reflexivity.
  - destruct (V8.extend_run compareFn _ a1 l) as [run' rest'] eqn:E.
    apply extend_run_app in E. subst l. intros [= <- <-].
    destruct (sorts_before compareFn a1 a0).
    + change (Permutation (rev (a0 :: a1 :: run') ++ rest')
                ((a0 :: a1 :: run') ++ rest')).
      apply Permutation_app_tail. symmetry. apply Permutation_rev.
    + reflexivity.
Qed.

Lemma insert_pivot_Permutation (s : list A) (pivot : A) :
  Permutation (V8.insert_pivot compareFn s pivot) (s ++ [pivot]).
Proof.
  unfold V8.insert_pivot. set (k := V8.search _ _ _ _ _ _).
  rewrite <- (firstn_skipn k s) at 3. rewrite <- app_assoc.
  apply Permutation_app_head. apply Permutation_cons_append.
Qed.

Lemma BinaryInsertionSort_Permutation (rest run : list A) :
  Permutation (V8.BinaryInsertionSort compareFn run rest) (run ++ rest).
Proof.
  unfold V8.BinaryInsertionSort. revert run.
  induction rest as [|p rest IH]; intros run; cbn [fold_left].
  - rewrite app_nil_r. reflexivity.
  - rewrite IH, insert_pivot_Permutation, <- app_assoc. reflexivity.
Qed.

Lemma V8_Array_sort_Permutation (l : list A) :
  Permutation (V8.Array_sort compareFn l) l.
Proof.
  unfold V8.Array_sort.
  destruct (V8.CountAndMakeRun compareFn l) as [run rest] eqn:E.
  rewrite BinaryInsertionSort_Permutation.
  apply CountAndMakeRun_Permutation. exact E.
Qed.

Lemma search_boundary (pivot : A) (s : list A) :
  (forall i j x y, (i <= j)%nat -> s !! i = Some x -> s !! j = Some y ->
     sorts_before compareFn pivot x = true ->
     sorts_before compareFn pivot y = true) ->
  forall fuel left right,
    (right - left <= fuel)%nat -> (left <= right)%nat ->
    (right <= length s)%nat ->
    (forall i x, (i < left)%nat -> s !! i = Some x ->
       sorts_before compareFn pivot x = false) ->
    (forall i x, (right <= i)%nat -> s !! i = Some x ->
       sorts_before compareFn pivot x = true) ->
    let k := V8.search compareFn fuel pivot s left right in
    (forall i x, (i < k)%nat -> s !! i = Some x ->
       sorts_before compareFn pivot x = false)
    /\ (forall i x, (k <= i)%nat -> s !! i = Some x ->
          sorts_before compareFn pivot x = true).
Proof.
  intros Hmono. induction fuel as [|fuel IH]; intros left right Hf Hlr Hr Hlo Hhi.
  - cbn. split; [exact Hlo|]. intros i x Hi. apply Hhi. lia.
  - cbn [V8.search]. destruct (Nat.ltb_spec left right) as [Hlt|Hge].
    + pose proof (Nat.div_lt (right - left) 2 ltac:(lia) ltac:(lia)) as Hhalf.
      set (half := ((right - left) / 2)%nat) in *. clearbody half.
      set (mid := (left + half)%nat).
      assert (Hmid : (left <= mid < right)%nat) by (unfold mid; lia).
      destruct (s !! mid) as [x|] eqn:Ex.
      2:{ apply lookup_ge_None in Ex. lia. }
      destruct (sorts_before compareFn pivot x) eqn:Hx.
      * apply IH; [unfold mid; lia|lia|lia|exact Hlo|].
        intros i y Hi Hy. apply (Hmono mid i x y); [lia|exact Ex|exact Hy|exact Hx].
      * apply IH; [unfold mid; lia|lia|lia| |exact Hhi].
        intros i y Hi Hy.
        destruct (sorts_before compareFn pivot y) eqn:Hy'; [|reflexivity].
        rewrite <- Hx. symmetry.
        apply (Hmono i mid y x); [lia|exact Hy|exact Ex|exact Hy'].
    + split; [exact Hlo|]. intros i x Hi. apply Hhi. lia.
Qed.

Lemma insert_pivot_split (pivot : A) (s : list A) :
  (forall i j x y, (i <= j)%nat -> s !! i = Some x -> s !! j = Some y ->
     sorts_before compareFn pivot x = true ->
     sorts_before compareFn pivot y = true) ->
  exists l1 l2,
    s = (l1 ++ l2)%list
    /\ V8.insert_pivot compareFn s pivot = (l1 ++ pivot :: l2)%list
    /\ (forall x, In x l1 -> sorts_before compareFn pivot x = false)
    /\ (forall x, In x l2 -> sorts_before compareFn pivot x = true).
Proof.
  intros Hmono. unfold V8.insert_pivot.
  set (k := V8.search compareFn (length s) pivot s 0 (length s)).
  destruct (search_boundary pivot s Hmono (length s) 0%nat (length s))
    as [Hlo Hhi]; [lia|lia|lia|intros; lia| |].
  { intros i x Hi Hx. apply lookup_lt_Some in Hx. lia. }
  fold k in Hlo, Hhi.
  exists (take k s), (drop k s). split; [symmetry; apply take_drop|].
  split; [reflexivity|]. split.
  - intros x Hx. apply list_elem_of_In, elem_of_take in Hx as (i & Hx & Hi).
    apply (Hlo i x Hi Hx).
  - intros x Hx. apply list_elem_of_In, list_elem_of_lookup in Hx as (i & Hx).
    rewrite lookup_drop in Hx. apply (Hhi (k + i)%nat x); [lia|exact Hx].
Qed.

Section Conforming.
Variable l : list A.
Hypothesis Hc : consistent_on compareFn l.

Let in_order (a b : A) : Prop := sorts_after compareFn a b = false.

Lemma sorted_monotone (pivot : A) (s : list A) :
  In pivot l -> (forall x, In x s -> In x l) -> StronglySorted in_order s ->
  forall i j x y, (i <= j)%nat -> s !! i = Some x -> s !! j = Some y ->
    sorts_before compareFn pivot x = true ->
    sorts_before compareFn pivot y = true.
Proof.
  intros Hp Hin Hs i j x y Hij Hx Hy Hpx.
  destruct (Nat.eq_dec i j) as [->|Hne]; [congruence|].
  assert (Hxl : In x l).
  { apply Hin, list_elem_of_In, list_elem_of_lookup. eauto. }
  assert (Hyl : In y l).
  { apply Hin, list_elem_of_In, list_elem_of_lookup. eauto. }
  pose proof (StronglySorted_lookup _ s Hs i j x y ltac:(lia) Hx Hy) as Hxy.
  unfold in_order in Hxy. apply sorts_after_not_Gt in Hxy.
  apply sorts_before_Lt in Hpx. apply sorts_before_Lt.
  destruct (SortCompare compareFn x y) eqn:E; [| |congruence].
  - apply (SortCompare_Lt_Eq compareFn l Hc pivot x y); assumption.
  - apply (consistent_trans _ _ Hc Lt pivot x y); assumption.
Qed.

Lemma insert_pivot_conforming (pivot : A) (s : list A) :
  In pivot l -> (forall x, In x s -> In x l) -> StronglySorted in_order s ->
  StronglySorted in_order (V8.insert_pivot compareFn s pivot)
  /\ forall x, In x l ->
       List.filter (ties compareFn x) (V8.insert_pivot compareFn s pivot)
       = List.filter (ties compareFn x) (s ++ [pivot]).
Proof.
  intros Hp Hin Hs.
  destruct (insert_pivot_split pivot s (sorted_monotone pivot s Hp Hin Hs))
    as (l1 & l2 & -> & -> & Hlo & Hhi).
  apply StronglySorted_app_inv in Hs as (H1 & H2 & H12).
  assert (Hin1 : forall x, In x l1 -> In x l)
    by (intros x Hx; apply Hin, in_or_app; left; exact Hx).
  assert (Hin2 : forall x, In x l2 -> In x l)
    by (intros x Hx; apply Hin, in_or_app; right; exact Hx).
  split.
  - apply StronglySorted_app; [exact H1| |].
    + constructor; [exact H2|]. apply List.Forall_forall. intros y Hy.
      unfold in_order. apply sorts_after_not_Gt.
      specialize (Hhi y Hy). apply sorts_before_Lt in Hhi. congruence.
    + intros x y Hx [<-|Hy]; [|apply H12; assumption].
      unfold in_order. apply sorts_after_not_Gt.
      specialize (Hlo x Hx). apply sorts_before_not_Lt in Hlo.
      rewrite (SortCompare_antisym compareFn l Hc pivot x) by auto.
      destruct (SortCompare compareFn pivot x); cbn; congruence.
  - intros x Hx. rewrite !List.filter_app. cbn [List.filter].
    destruct (ties compareFn x pivot) eqn:Ht.
    + assert (Hnone : List.filter (ties compareFn x) l2 = []).
      { apply filter_none. intros y Hy.
        destruct (ties compareFn x y) eqn:Hty; [|reflexivity].
        apply (ties_Eq compareFn l Hc) in Ht, Hty; auto.
        specialize (Hhi y Hy). apply sorts_before_Lt in Hhi.
        pose proof (consistent_sym _ _ Hc x pivot Hx Hp Ht) as Hpx.
        pose proof (consistent_trans _ _ Hc Eq pivot x y Hp Hx (Hin2 y Hy) Hpx Hty).
        congruence. }
      rewrite Hnone, app_nil_r. reflexivity.
    + rewrite app_nil_r. reflexivity.
Qed.

Lemma extend_run_Sorted (descending : bool) (rest0 : list A) :
  forall previous run rest,
    V8.extend_run compareFn descending previous rest0 = (run, rest) ->
    Sorted (fun a b => sorts_before compareFn b a = descending)
      (previous :: run).
Proof.
  induction rest0 as [|x rest0 IH]; intros previous run rest;
    cbn [V8.extend_run].
  - intros [= <- <-]. repeat constructor.
  - destruct (if descending then _ else _) eqn:Hstop.
    + intros [= <- <-]. repeat constructor.
    + destruct (V8.extend_run compareFn descending x rest0) as [run' rest']
        eqn:E.
      intros [= <- <-]. constructor; [eapply IH; exact E|]. constructor.
      destruct descending, (sorts_before compareFn x previous);
        cbn in Hstop; congruence.
Qed.

Lemma descending_ties_short (x : A) (s : list A) :
  In x l -> (forall y, In y s -> In y l) ->
  StronglySorted (fun a b => SortCompare compareFn b a = Lt) s ->
  (length (List.filter (ties compareFn x) s) <= 1)%nat.
Proof.
  intros Hx Hin Hs. induction Hs as [|a s Hs IH Hall]; [cbn; lia|].
  cbn [List.filter]. destruct (ties compareFn x a) eqn:Ha.
  - assert (Hnone : List.filter (ties compareFn x) s = []).
    { apply filter_none. intros y Hy.
      destruct (ties compareFn x y) eqn:Hy'; [|reflexivity].
      rewrite List.Forall_forall in Hall. specialize (Hall y Hy).
      assert (Hal : In a l) by (apply Hin; left; reflexivity).
      assert (Hyl : In y l) by (apply Hin; right; exact Hy).
      apply (ties_Eq compareFn l Hc) in Ha, Hy'; auto.
      pose proof (consistent_sym _ _ Hc x a Hx Hal Ha) as Hax.
      pose proof (consistent_sym _ _ Hc x y Hx Hyl Hy') as Hyx.
      pose proof (consistent_trans _ _ Hc Eq y x a Hyl Hx Hal Hyx Ha).
      congruence. }
    rewrite Hnone. cbn. lia.
  - apply IH. intros y Hy. apply Hin. right. exact Hy.
Qed.

Lemma CountAndMakeRun_conforming (l0 run rest : list A) :
  (forall x, In x l0 -> In x l) ->
  V8.CountAndMakeRun compareFn l0 = (run, rest) ->
  exists pre,
    l0 = (pre ++ rest)%list /\ Permutation run pre
    /\ StronglySorted in_order run
    /\ forall x, In x l ->
         List.filter (ties compareFn x) run = List.filter (ties compareFn x) pre.
Proof.
  intros Hin. destruct l0 as [|a0 [|a1 l']]; cbn [V8.CountAndMakeRun].
  - intros [= <- <-]. exists []. repeat split; constructor.
  - intros [= <- <-]. exists [a0]. repeat split; repeat constructor.
  - destruct (V8.extend_run compareFn _ a1 l') as [run' rest'] eqn:E.
    pose proof (extend_run_app _ _ _ _ _ E) as Happ.
    apply extend_run_Sorted in E.
    set (descending := sorts_before compareFn a1 a0) in *.
    assert (Hs : Sorted (fun a b => sorts_before compareFn b a = descending)
                   (a0 :: a1 :: run')).
    { constructor; [exact E|]. constructor. reflexivity. }
    clear E. subst l'. intros [= <- <-]. exists (a0 :: a1 :: run').
    split; [reflexivity|].
    assert (Hin' : forall x, In x (a0 :: a1 :: run') -> In x l).
    { intros x Hx. apply Hin.
      change (In x ((a0 :: a1 :: run') ++ rest')). apply in_or_app. left. exact Hx. }
    clearbody descending. destruct descending;
      repeat match goal with
             | |- context [if true then ?a else ?b] =>
                 change (if true then a else b) with a
             | |- context [if false then ?a else ?b] =>
                 change (if false then a else b) with b
             end.
    + assert (Hss : StronglySorted (fun a b => SortCompare compareFn b a = Lt)
                      (a0 :: a1 :: run')).
      { apply Sorted_StronglySorted_on.
        - intros a b c Ha Hb Hc' Hab Hbc.
          apply (consistent_trans _ _ Hc Lt c b a); auto.
        - revert Hs. apply (Sorted_weaken_on _ _ l); [exact Hin'|].
          intros a b _ _. apply sorts_before_Lt. }
      change ((rev run' ++ [a1]) ++ [a0])%list with (rev (a0 :: a1 :: run')).
      split; [symmetry; apply Permutation_rev|]. split.
      * apply StronglySorted_rev in Hss. revert Hss.
        apply StronglySorted_weaken. intros a b _ _ Hab. unfold in_order.
        apply sorts_after_not_Gt. congruence.
      * intros x Hx. rewrite filter_rev. apply rev_short.
        apply descending_ties_short; assumption.
    + split; [reflexivity|]. split; [|reflexivity].
      apply Sorted_StronglySorted_on.
      * intros a b c Ha Hb Hc'. apply (proj2 (consistent_preorder compareFn l Hc)); auto.
      * revert Hs. apply (Sorted_weaken_on _ _ l); [exact Hin'|].
        intros a b Ha Hb Hba. unfold in_order. apply sorts_after_not_Gt.
        apply sorts_before_not_Lt in Hba.
        rewrite (SortCompare_antisym compareFn l Hc b a) by auto.
        destruct (SortCompare compareFn b a); cbn; congruence.
Qed.

Lemma BinaryInsertionSort_conforming (rest : list A) :
  forall s pre,
    (forall x, In x (pre ++ rest) -> In x l) ->
    Permutation s pre -> StronglySorted in_order s ->
    (forall x, In x l ->
       List.filter (ties compareFn x) s = List.filter (ties compareFn x) pre) ->
    StronglySorted in_order (V8.BinaryInsertionSort compareFn s rest)
    /\ forall x, In x l ->
         List.filter (ties compareFn x) (V8.BinaryInsertionSort compareFn s rest)
         = List.filter (ties compareFn x) (pre ++ rest).
Proof.
  unfold V8.BinaryInsertionSort.
  induction rest as [|p rest IH]; intros s pre Hin Hperm Hs Hst; cbn [fold_left].
  - rewrite app_nil_r. split; assumption.
  - assert (Hp : In p l) by (apply Hin, in_or_app; right; left; reflexivity).
    assert (Hsl : forall x, In x s -> In x l).
    { intros x Hx. apply Hin, in_or_app. left.
      apply (Permutation_in _ Hperm). exact Hx. }
    destruct (insert_pivot_conforming p s Hp Hsl Hs) as [Hs' Hst'].
    replace (pre ++ p :: rest)%list with ((pre ++ [p]) ++ rest)%list
      by (rewrite <- app_assoc; reflexivity).
    apply IH.
    + intros x Hx. apply Hin. rewrite <- app_assoc in Hx. exact Hx.
    + rewrite insert_pivot_Permutation. apply Permutation_app_tail. exact Hperm.
    + exact Hs'.
    + intros x Hx. rewrite (Hst' x Hx), !List.filter_app, (Hst x Hx). reflexivity.
Qed.

Lemma V8_Array_sort_conforming :
  sort_result compareFn l (V8.Array_sort compareFn l).
Proof.
  constructor; [apply V8_Array_sort_Permutation| |]; unfold V8.Array_sort;
    destruct (V8.CountAndMakeRun compareFn l) as [run rest] eqn:E;
    destruct (CountAndMakeRun_conforming l run rest ltac:(auto) E)
      as (pre & Hl & Hperm & Hs & Hst);
    destruct (BinaryInsertionSort_conforming rest run pre) as [H1 H2];
    try assumption; try (rewrite <- Hl; auto).
  intros x Hx. rewrite (H2 x Hx), <- Hl. reflexivity.
Qed.

End Conforming.

End V8Facts.

(** *** Comparators by a key *)

Lemma consistent_on_key {A B : Type} (key : A -> B)
  (compareKeys : B -> B -> option Z) (compareFn : A -> A -> option Z)
  (l : list A) :
  (forall a b, In a l -> In b l ->
     SortCompare compareFn a b = SortCompare compareKeys (key a) (key b)) ->
  consistent_on compareKeys (map key l) -> consistent_on compareFn l.
Proof.
  intros Heq [Hr Hs Ht].
  assert (Hin : forall a, In a l -> In (key a) (map key l))
    by (intros a; apply in_map).
  constructor.
  - intros a Ha. rewrite Heq by assumption. apply Hr. auto.
  - intros a b Ha Hb. rewrite !Heq by assumption. apply Hs; auto.
  - intros o a b c Ha Hb Hc'. rewrite !Heq by assumption. apply Ht; auto.
Qed.

Lemma consistent_on_flip {A : Type} (compareFn : A -> A -> option Z)
  (l : list A) :
  consistent_on compareFn l -> consistent_on (fun a b => compareFn b a) l.
Proof.
  intros [Hr Hs Ht]. constructor.
  - exact Hr.
  - intros a b Ha Hb. apply (Hs b a); assumption.
  - intros o a b c Ha Hb Hc' Hab Hbc. apply (Ht o c b a); assumption.
Qed.


(** The sign of a difference of integers is a consistent comparator. *)
Lemma difference_consistent (l : list Z) :
  consistent_on (fun x y : Z => Some (x - y)) l.
Proof.
  constructor; unfold SortCompare.
  - intros a _. apply Z.compare_eq_iff. lia.
  - intros a b _ _ E. apply Z.compare_eq_iff in E. apply Z.compare_eq_iff. lia.
  - intros o a b c _ _ _ Hab Hbc. destruct o.
    + apply Z.compare_eq_iff in Hab, Hbc. apply Z.compare_eq_iff. lia.
    + change (a - b < 0) in Hab. change (b - c < 0) in Hbc.
      change (a - c < 0). lia.
    + change (a - b > 0) in Hab. change (b - c > 0) in Hbc.
      change (a - c > 0). lia.
Qed.

(** *** The host's sort *)

Section HostSort.
Context {host : Host} {laws : HostLaws host}.


(** On a consistent comparator every engine returns the stable order. *)
Lemma Array_sort_stable_sort {A : Type} (compareFn : A -> A -> option Z)
  (l : list A) :
  consistent_on compareFn l -> Array_sort compareFn l = stable_sort compareFn l.
Proof.
  intros Hc. apply stable_sort_conforming.
  - apply consistent_preorder. exact Hc.
  - apply Array_sort_conforms. exact Hc.
Qed.

Lemma Array_sort_In {A : Type} (compareFn : A -> A -> option Z) (l : list A)
  (x : A) :
  In x (Array_sort compareFn l) <-> In x l.
Proof.
  split; apply Permutation_in; [|symmetry]; apply Array_sort_rearranges.
Qed.

Lemma byName_consistent (dir : SortDir) (l : list Asset) :
  consistent_on (compareAssets key_name dir) l.
Proof.
  destruct dir; cbn [compareAssets]; unfold byName.
  - apply (consistent_on_key name (fun a b => Some (localeCompare a b)));
      [reflexivity|apply localeCompare_consistent].
  - apply (consistent_on_key name (fun a b => Some (localeCompare b a)));
      [reflexivity|].
    apply (consistent_on_flip (fun a b => Some (localeCompare a b))).
    apply localeCompare_consistent.
Qed.

Lemma byPoly_consistent (dir : SortDir) (l : list Asset) :
  consistent_on (compareAssets key_polyCount dir) l.
Proof.
  destruct dir; cbn [compareAssets]; unfold byPoly.
  - apply (consistent_on_key polyCount (fun x y => Some (x - y)));
      [reflexivity|apply difference_consistent].
  - apply (consistent_on_key (fun a => - polyCount a) (fun x y => Some (x - y)));
      [|apply difference_consistent].
    intros a b _ _. unfold SortCompare. f_equal. lia.
Qed.








End HostSort.


(** *** The host of the examples meets the language's laws *)

Lemma Ascii_compare_trans (o : comparison) (a b c : ascii) :
  Ascii.compare a b = o -> Ascii.compare b c = o -> Ascii.compare a c = o.
Proof.
  unfold Ascii.compare. destruct o.
  - rewrite !N.compare_eq_iff. congruence.
  - rewrite !N.compare_lt_iff. lia.
  - rewrite !N.compare_gt_iff. lia.
Qed.

Lemma Ascii_compare_refl (a : ascii) : Ascii.compare a a = Eq.
Proof. unfold Ascii.compare. apply N.compare_refl. Qed.

Lemma String_compare_trans (o : comparison) (a : string) :
  forall b c,
    String.compare a b = o -> String.compare b c = o -> String.compare a c = o.
Proof.
  induction a as [|x a IH]; intros [|y b] [|z c]; cbn [String.compare];
    try congruence.
  destruct (Ascii.compare x y) eqn:Exy, (Ascii.compare y z) eqn:Eyz;
    try (apply Ascii.compare_eq_iff in Exy; subst y);
    try (apply Ascii.compare_eq_iff in Eyz; subst z);
    rewrite ?Ascii_compare_refl, ?Exy, ?Eyz; try apply IH; try congruence.
  all: intros <- E; try discriminate.
  all: rewrite (Ascii_compare_trans _ x y z Exy Eyz); reflexivity.
Qed.

Lemma String_compare_refl (a : string) : String.compare a a = Eq.
Proof.
  induction a as [|x a IH]; [reflexivity|].
  cbn [String.compare]. rewrite Ascii_compare_refl. exact IH.
Qed.

Lemma ordinal_compare_sign (a b : string) :
  SortCompare (fun a b => Some (ordinal_compare a b)) a b = String.compare a b.
Proof.
  unfold SortCompare, ordinal_compare. destruct (String.compare a b); reflexivity.
Qed.

Lemma example_host_laws : HostLaws example_host.
Proof.
  constructor.
  - intros l. constructor.
    + intros a _. rewrite ordinal_compare_sign. apply String_compare_refl.
    + intros a b _ _. rewrite !ordinal_compare_sign.
      rewrite (String.compare_antisym b a). intros ->. reflexivity.
    + intros o a b c _ _ _. rewrite !ordinal_compare_sign.
      apply String_compare_trans.
  - intros [|c s]; cbn; [reflexivity|discriminate].
  - reflexivity.
  - intros A compareFn l. apply V8_Array_sort_Permutation.
  - intros A compareFn l. apply V8_Array_sort_conforming.
Qed.






(** ** The compression job and the event loop *)

(** The single-file application ticks as the hook does. *)
Lemma Monolith_tick (p : option Z) : Monolith.tick p = tick p.
Proof.
  unfold Monolith.tick, tick. cbv zeta. f_equal.
  destruct (Z.leb_spec 100 (default 0 p + 12)); lia.
Qed.

Lemma filter_filter_comm {A : Type} (f g : A -> bool) (l : list A) :
  List.filter f (List.filter g l) = List.filter g (List.filter f l).
Proof.
  induction l as [|x l IH]; [reflexivity|]. cbn [List.filter].
  destruct (f x) eqn:Hf, (g x) eqn:Hg; cbn [List.filter];
    rewrite ?Hf, ?Hg, IH; reflexivity.
Qed.

Lemma filter_filter_implied {A : Type} (f g : A -> bool) (l : list A) :
  (forall x, f x = true -> g x = true) ->
  List.filter f (List.filter g l) = List.filter f l.
Proof.
  intros H. induction l as [|x l IH]; [reflexivity|]. cbn [List.filter].
  destruct (g x) eqn:Hg; cbn [List.filter].
  - rewrite IH. reflexivity.
  - destruct (f x) eqn:Hf; [|exact IH]. rewrite (H x Hf) in Hg. discriminate.
Qed.

Lemma NoDup_map_filter {A B : Type} (g : A -> B) (f : A -> bool) (l : list A) :
  List.NoDup (map g l) -> List.NoDup (map g (List.filter f l)).
Proof.
  induction l as [|x l IH]; intros H; [constructor|].
  cbn [map] in H. inversion H as [|? ? Hx Hl]; subst.
  cbn [List.filter]. destruct (f x); [|apply IH; exact Hl].
  cbn [map]. constructor; [|apply IH; exact Hl].
  intros Hin. apply Hx. apply in_map_iff in Hin.
  destruct Hin as (y & Hy & Hyin). apply in_map_iff. exists y.
  split; [exact Hy|]. apply filter_In in Hyin. tauto.
Qed.

Lemma StronglySorted_filter {A : Type} (R : A -> A -> Prop) (f : A -> bool)
  (l : list A) :
  StronglySorted R l -> StronglySorted R (List.filter f l).
Proof.
  induction l as [|x l IH]; intros H; [constructor|].
  inversion H as [|? ? Hs Hall]; subst. cbn [List.filter].
  destruct (f x); [|apply IH; exact Hs].
  constructor; [apply IH; exact Hs|].
  rewrite List.Forall_forall in Hall |- *. intros y Hy.
  apply Hall. apply filter_In in Hy. tauto.
Qed.

(** In a list ordered by due time, the timers due by [b] are those due by
    [a <= b] followed by the ones of the rest that are due by [b]. *)
Lemma due_filter_split (l : list Timer) (a b : Z) :
  StronglySorted (fun t u => timer_due t <= timer_due u) l -> a <= b ->
  List.filter (fun t => timer_due t <=? b) l
  = (List.filter (fun t => timer_due t <=? a) l
     ++ List.filter (fun t => timer_due t <=? b)
          (List.filter (fun t => negb (timer_due t <=? a)) l))%list.
Proof.
  intros Hs Hab. induction l as [|x l IH]; [reflexivity|].
  inversion Hs as [|? ? Hs' Hall]; subst.
  destruct (Z.leb_spec (timer_due x) a) as [Hx|Hx].
  - cbn [List.filter]. rewrite (proj2 (Z.leb_le _ _) Hx).
    rewrite (proj2 (Z.leb_le (timer_due x) b)) by lia.
    cbn [negb app]. f_equal. apply IH. exact Hs'.
  - rewrite List.Forall_forall in Hall.
    rewrite (filter_none (fun t => timer_due t <=? a) (x :: l)).
    + rewrite (filter_all (fun t => negb (timer_due t <=? a)) (x :: l));
        [reflexivity|].
      intros y [<-|Hy]; apply negb_true_iff, Z.leb_gt;
        [lia|specialize (Hall y Hy); lia].
    + intros y [<-|Hy]; apply Z.leb_gt; [lia|specialize (Hall y Hy); lia].
Qed.

Lemma pending_reschedule (i : nat) (w : World) :
  pending (reschedule i w) = pending w.
Proof.
  unfold pending, reschedule. cbn [timers].
  induction (timers w) as [|t l IH]; [reflexivity|].
  cbn [map List.filter]. destruct t as [tid due|tid due next timer].
  - destruct (tid =? i)%nat; cbn [is_timeout]; exact IH.
  - cbn [is_timeout]. f_equal. exact IH.
Qed.

Lemma ids_reschedule (i : nat) (w : World) :
  map timer_id (timers (reschedule i w)) = map timer_id (timers w).
Proof.
  unfold reschedule. cbn [timers]. rewrite map_map. apply map_ext.
  intros [tid due|tid due next timer]; [|reflexivity].
  destruct (tid =? i)%nat; reflexivity.
Qed.

Lemma pending_clearInterval (i : nat) (w : World) :
  pending (clearInterval i w)
  = List.filter (fun t => negb (timer_id t =? i)%nat) (pending w).
Proof. unfold pending, clearInterval. cbn [timers]. apply filter_filter_comm. Qed.

Lemma pending_In_timers (w : World) (t : Timer) :
  In t (pending w) -> In t (timers w).
Proof. unfold pending. intros H. apply filter_In in H. tauto. Qed.

(** The invariant looks at the ids, the pending timeouts, the next id and
    the clock only. *)
Lemma well_formed_same_timers (w w' : World) :
  timers w' = timers w -> next_timer w' = next_timer w -> now w <= now w' ->
  well_formed w -> well_formed w'.
Proof.
  intros Ht Hn Hc [H1 H2 H3 H4 H5 H6].
  constructor; unfold pending in *; rewrite ?Ht, ?Hn; auto.
  intros t Hin. specialize (H5 t Hin). lia.
Qed.

Lemma well_formed_reschedule (i : nat) (w : World) :
  well_formed w -> well_formed (reschedule i w).
Proof.
  intros [H1 H2 H3 H4 H5 H6]. constructor;
    rewrite ?pending_reschedule, ?ids_reschedule; auto.
  intros t Hin. change (next_timer (reschedule i w)) with (next_timer w).
  assert (Hid : In (timer_id t) (map timer_id (timers (reschedule i w))))
    by (apply in_map; exact Hin).
  rewrite ids_reschedule in Hid. apply in_map_iff in Hid.
  destruct Hid as (u & <- & Hu). apply H2. exact Hu.
Qed.

Lemma well_formed_clearInterval (i : nat) (w : World) :
  well_formed w -> well_formed (clearInterval i w).
Proof.
  intros [H1 H2 H3 H4 H5 H6]. constructor; rewrite ?pending_clearInterval.
  - apply NoDup_map_filter. exact H1.
  - intros t Hin. apply filter_In in Hin. apply H2. tauto.
  - intros t u Ht Hu. apply filter_In in Ht, Hu. apply H3; tauto.
  - intros t r Ht. apply filter_In in Ht. apply H4. tauto.
  - intros t Ht. apply filter_In in Ht. apply H5. tauto.
  - apply StronglySorted_filter. exact H6.
Qed.

Lemma well_formed_fire (t : Timer) (w : World) :
  well_formed w -> well_formed (fire t w).
Proof.
  intros H. destruct t as [tid due|tid due next timer]; cbn [fire].
  - apply (well_formed_same_timers (reschedule tid w));
      [reflexivity|reflexivity|reflexivity|].
    apply well_formed_reschedule. exact H.
  - apply (well_formed_same_timers
             (clearInterval timer (applyLOD next (clearInterval tid w))));
      [reflexivity|reflexivity|reflexivity|].
    apply well_formed_clearInterval.
    apply (well_formed_same_timers (clearInterval tid w));
      [reflexivity|reflexivity|reflexivity|].
    apply well_formed_clearInterval. exact H.
Qed.

(** Removing from a duplicate-free list the timers that carry the id of one
    of its members removes that member only. *)
Lemma filter_out_id (l1 l2 : list Timer) (t : Timer) :
  List.NoDup (map timer_id (l1 ++ t :: l2)) ->
  List.filter (fun u => negb (timer_id u =? timer_id t)%nat) (l1 ++ t :: l2)
  = (l1 ++ l2)%list.
Proof.
  intros Hnd. rewrite List.filter_app. cbn [List.filter].
  rewrite Nat.eqb_refl. cbn [negb].
  rewrite map_app in Hnd. cbn [map] in Hnd.
  assert (Hout : forall u, In u l1 \/ In u l2 -> timer_id u <> timer_id t).
  { intros u Hu Heq. apply NoDup_remove_2 in Hnd. apply Hnd.
    rewrite <- Heq. apply in_or_app.
    destruct Hu as [Hu|Hu]; [left|right]; apply in_map; exact Hu. }
  rewrite !filter_all; [reflexivity| |];
    intros u Hu; apply negb_true_iff, Nat.eqb_neq, Hout; auto.
Qed.

(** One pass over the snapshot: the timeouts that are due are applied in
    order and leave; the others stay; ticks touch neither. *)
Lemma fire_due_spec (todo : list Timer) :
  forall (w : World) (kept : list Timer),
    well_formed w ->
    pending w = (kept ++ List.filter is_timeout todo)%list ->
    well_formed (fire_due todo w)
    /\ now (fire_due todo w) = now w
    /\ next_timer (fire_due todo w) = next_timer w
    /\ pending (fire_due todo w)
       = (kept ++ List.filter (fun t => negb (timer_due t <=? now w))
                    (List.filter is_timeout todo))%list
    /\ state (fire_due todo w)
       = fold_left commit
           (List.filter (fun t => timer_due t <=? now w)
              (List.filter is_timeout todo)) (state w).
Proof.
  induction todo as [|t rest IH]; intros w kept Hwf Hp.
  - cbn. rewrite Hp. cbn. auto.
  - cbn [fire_due]. destruct t as [tid due|tid due next timer].
    + cbn [List.filter is_timeout] in Hp |- *.
      set (w1 := if is_due (interval_timer tid due) w
                 then fire (interval_timer tid due) w else w).
      assert (H1 : well_formed w1 /\ now w1 = now w
                   /\ next_timer w1 = next_timer w
                   /\ pending w1 = pending w /\ state w1 = state w).
      { unfold w1. destruct (is_due _ w); [|auto].
        split; [apply well_formed_fire; exact Hwf|].
        cbn [fire]. repeat split; try reflexivity.
        exact (pending_reschedule tid w). }
      destruct H1 as (Hwf1 & Hn1 & Hi1 & Hp1 & Hs1).
      destruct (IH w1 kept Hwf1 ltac:(congruence)) as (A & B & C & D & E).
      rewrite Hn1 in *. rewrite Hs1 in E. rewrite Hi1 in C. auto.
    + cbn [List.filter is_timeout] in Hp |- *.
      set (t := timeout_timer tid due next timer) in *.
      assert (Hin : In t (timers w)).
      { apply pending_In_timers. rewrite Hp. apply in_or_app. right. left.
        reflexivity. }
      unfold is_due.
      rewrite (bool_decide_eq_true_2 _ (proj2 (list_elem_of_In _ _) Hin)).
      cbn [andb]. change (timer_due t) with due.
      destruct (Z.leb_spec due (now w)) as [Hd|Hd].
      * assert (Hp1 : pending (fire t w)
                      = (kept ++ List.filter is_timeout rest)%list).
        { unfold t at 1. cbn [fire].
          change (pending (clearInterval timer
                             (applyLOD next (clearInterval tid w)))
                  = (kept ++ List.filter is_timeout rest)%list).
          rewrite pending_clearInterval.
          change (pending (applyLOD next (clearInterval tid w)))
            with (pending (clearInterval tid w)).
          rewrite pending_clearInterval, Hp.
          assert (Hnd : List.NoDup (map timer_id
                          (kept ++ t :: List.filter is_timeout rest))).
          { rewrite <- Hp. unfold pending. apply NoDup_map_filter.
            exact (wf_ids w Hwf). }
          pose proof (filter_out_id kept (List.filter is_timeout rest) t Hnd)
            as Hout.
          change (timer_id t) with tid in Hout. rewrite Hout.
          apply filter_all. intros u Hu. apply negb_true_iff, Nat.eqb_neq.
          intros Heq. apply (wf_refs w Hwf t u).
          + rewrite Hp. apply in_or_app. right. left. reflexivity.
          + rewrite Hp. apply in_app_or in Hu. apply in_or_app.
            destruct Hu as [Hu|Hu]; [left|right; right]; exact Hu.
          + cbn. congruence. }
        destruct (IH (fire t w) kept (well_formed_fire t w Hwf) Hp1)
          as (A & B & C & D & E).
        change (now (fire t w)) with (now w) in *.
        change (next_timer (fire t w)) with (next_timer w) in *.
        cbn [negb]. split; [exact A|]. split; [exact B|]. split; [exact C|].
        split; [exact D|]. exact E.
      * cbn [negb].
        destruct (IH w (kept ++ [t])%list Hwf) as (A & B & C & D & E).
        { rewrite <- app_assoc. exact Hp. }
        rewrite <- app_assoc in D. auto.
Qed.

Lemma elapse_ms_spec (w : World) :
  well_formed w ->
  well_formed (elapse_ms w)
  /\ now (elapse_ms w) = now w + 1
  /\ next_timer (elapse_ms w) = next_timer w
  /\ pending (elapse_ms w)
     = List.filter (fun t => negb (timer_due t <=? now w + 1)) (pending w)
  /\ state (elapse_ms w)
     = fold_left commit
         (List.filter (fun t => timer_due t <=? now w + 1) (pending w))
         (state w).
Proof.
  intros Hwf. unfold elapse_ms.
  set (w0 := {| now := now w + 1; timers := timers w;
                next_timer := next_timer w; progress := progress w;
                state := state w |}).
  assert (Hwf0 : well_formed w0)
    by (apply (well_formed_same_timers w); cbn; auto; lia).
  destruct (fire_due_spec (timers w0) w0 [] Hwf0 eq_refl) as (A & B & C & D & E).
  auto.
Qed.

Lemma elapse_spec (ms : nat) :
  forall w : World,
    well_formed w -> settled w ->
    well_formed (elapse ms w) /\ settled (elapse ms w)
    /\ now (elapse ms w) = now w + Z.of_nat ms
    /\ next_timer (elapse ms w) = next_timer w
    /\ pending (elapse ms w)
       = List.filter (fun t => negb (timer_due t <=? now w + Z.of_nat ms))
           (pending w)
    /\ state (elapse ms w)
       = fold_left commit
           (List.filter (fun t => timer_due t <=? now w + Z.of_nat ms)
              (pending w)) (state w).
Proof.
  induction ms as [|ms IH]; intros w Hwf Hset.
  - cbn [elapse]. rewrite Z.add_0_r.
    rewrite (filter_none (fun t => timer_due t <=? now w)),
      (filter_all (fun t => negb (timer_due t <=? now w))).
    + split; [exact Hwf|]. split; [exact Hset|]. auto.
    + intros t Ht. apply negb_true_iff, Z.leb_gt, Hset, Ht.
    + intros t Ht. apply Z.leb_gt, Hset, Ht.
  - cbn [elapse].
    destruct (elapse_ms_spec w Hwf) as (Hwf1 & Hn1 & Hi1 & Hp1 & Hs1).
    assert (Hset1 : settled (elapse_ms w)).
    { intros t Ht. rewrite Hp1 in Ht. apply filter_In in Ht.
      destruct Ht as [_ Ht]. apply negb_true_iff, Z.leb_gt in Ht. lia. }
    destruct (IH (elapse_ms w) Hwf1 Hset1) as (A & B & C & D & E & F).
    rewrite Hn1, Hp1 in *. rewrite Hs1 in F.
    replace (now w + Z.of_nat (S ms)) with (now w + 1 + Z.of_nat ms) by lia.
    split; [exact A|]. split; [exact B|]. split; [exact C|].
    split; [congruence|]. split.
    + rewrite E. apply filter_filter_implied. intros t Ht.
      apply negb_true_iff, Z.leb_gt in Ht. apply negb_true_iff, Z.leb_gt. lia.
    + rewrite F, <- fold_left_app.
      rewrite <- (due_filter_split (pending w) (now w + 1)); [reflexivity| |lia].
      exact (wf_order w Hwf).
Qed.

Lemma NoDup_fresh_ids (l : list nat) (n : nat) :
  List.NoDup l -> (forall x, In x l -> (x < n)%nat) ->
  List.NoDup (l ++ [n; S n]).
Proof.
  induction l as [|x l IH]; intros Hnd Hlt.
  - cbn. constructor; [cbn; lia|]. constructor; [cbn; tauto|constructor].
  - inversion Hnd as [|? ? Hx Hl]; subst. cbn [app]. constructor.
    + intros Hin. apply in_app_or in Hin. destruct Hin as [Hin|Hin];
        [contradiction|].
      specialize (Hlt x (or_introl eq_refl)). cbn in Hin. lia.
    + apply IH; [exact Hl|]. intros y Hy. apply Hlt. right. exact Hy.
Qed.

Lemma StronglySorted_snoc {A : Type} (R : A -> A -> Prop) (l : list A) (y : A) :
  StronglySorted R l -> (forall x, In x l -> R x y) ->
  StronglySorted R (l ++ [y]).
Proof.
  induction l as [|x l IH]; intros Hs Hy; cbn [app].
  - constructor; constructor.
  - inversion Hs as [|? ? Hs' Hall]; subst. constructor.
    + apply IH; [exact Hs'|]. intros z Hz. apply Hy. right. exact Hz.
    + rewrite List.Forall_forall in Hall |- *. intros z Hz.
      apply in_app_or in Hz. destruct Hz as [Hz|[<-|[]]].
      * apply Hall. exact Hz.
      * apply Hy. left. reflexivity.
Qed.

Lemma run_timers (next : LOD) (w : World) :
  timers (run next w)
  = (timers w ++ [interval_timer (next_timer w) (now w + 120);
                  timeout_timer (S (next_timer w)) (now w + 1200) next
                    (next_timer w)])%list.
Proof. unfold run. cbn. rewrite <- app_assoc. reflexivity. Qed.

Lemma run_pending (next : LOD) (w : World) :
  pending (run next w)
  = (pending w ++ [timeout_timer (S (next_timer w)) (now w + 1200) next
                     (next_timer w)])%list.
Proof.
  unfold pending. rewrite run_timers, List.filter_app. reflexivity.
Qed.

(** Starting a job adds its timeout behind the pending ones and touches
    neither those nor the state. *)
Lemma run_spec (next : LOD) (w : World) :
  well_formed w -> settled w ->
  well_formed (run next w) /\ settled (run next w)
  /\ now (run next w) = now w
  /\ next_timer (run next w) = S (S (next_timer w))
  /\ state (run next w) = state w.
Proof.
  intros Hwf Hset.
  assert (Hn : now (run next w) = now w) by reflexivity.
  assert (Hi : next_timer (run next w) = S (S (next_timer w))) by reflexivity.
  split; [|split; [|auto]].
  - destruct Hwf as [H1 H2 H3 H4 H5 H6].
    constructor; rewrite ?run_pending, ?run_timers, ?Hn, ?Hi.
    + rewrite map_app. cbn [map timer_id]. apply NoDup_fresh_ids; [exact H1|].
      intros x Hx. apply in_map_iff in Hx. destruct Hx as (t & <- & Ht).
      apply H2. exact Ht.
    + intros t Ht. apply in_app_or in Ht. destruct Ht as [Ht|[<-|[<-|[]]]].
      * specialize (H2 t Ht). lia.
      * cbn. lia.
      * cbn. lia.
    + intros t u Ht Hu. apply in_app_or in Ht, Hu.
      destruct Ht as [Ht|[<-|[]]], Hu as [Hu|[<-|[]]].
      * apply H3; assumption.
      * cbn [timer_id]. destruct (timer_ref t) as [r|] eqn:Hr; [|discriminate].
        specialize (H4 t r Ht Hr). intros Heq. inversion Heq. lia.
      * cbn [timer_ref]. specialize (H2 u (pending_In_timers w u Hu)).
        intros Heq. inversion Heq. lia.
      * cbn. intros Heq. inversion Heq. lia.
    + intros t r Ht Hr. apply in_app_or in Ht. destruct Ht as [Ht|[<-|[]]].
      * specialize (H4 t r Ht Hr). lia.
      * cbn in Hr. inversion Hr. lia.
    + intros t Ht. apply in_app_or in Ht. destruct Ht as [Ht|[<-|[]]].
      * apply H5. exact Ht.
      * cbn. lia.
    + apply StronglySorted_snoc; [exact H6|].
      intros x Hx. cbn [timer_due]. apply H5. exact Hx.
  - intros t Ht. rewrite run_pending in Ht. rewrite Hn.
    apply in_app_or in Ht. destruct Ht as [Ht|[<-|[]]].
    + apply Hset. exact Ht.
    + cbn. lia.
Qed.

Lemma idle_well_formed (s : State) : well_formed (idle s) /\ settled (idle s).
Proof.
  split; [constructor; cbn; try (intros; tauto); constructor|].
  intros t Ht. destruct Ht.
Qed.

Lemma due_partition (l : list Timer) (a : Z) :
  StronglySorted (fun t u => timer_due t <= timer_due u) l ->
  (List.filter (fun t => timer_due t <=? a) l
   ++ List.filter (fun t => negb (timer_due t <=? a)) l)%list = l.
Proof.
  intros Hs. induction l as [|x l IH]; [reflexivity|].
  inversion Hs as [|? ? Hs' Hall]; subst.
  destruct (Z.leb_spec (timer_due x) a) as [Hx|Hx].
  - cbn [List.filter]. rewrite (proj2 (Z.leb_le _ _) Hx). cbn [negb app].
    f_equal. apply IH. exact Hs'.
  - rewrite List.Forall_forall in Hall.
    rewrite (filter_none (fun t => timer_due t <=? a) (x :: l)).
    + apply (filter_all (fun t => negb (timer_due t <=? a)) (x :: l)).
      intros y [<-|Hy]; apply negb_true_iff, Z.leb_gt;
        [lia|specialize (Hall y Hy); lia].
    + intros y [<-|Hy]; apply Z.leb_gt; [lia|specialize (Hall y Hy); lia].
Qed.

Lemma run_script_app (s1 s2 : list Event) (w : World) :
  run_script (s1 ++ s2) w = run_script s2 (run_script s1 w).
Proof. apply fold_left_app. Qed.

(** Every job that is started commits, and the jobs commit in the order in
    which they were started: nothing ever cancels a timeout. *)
Lemma every_job_commits (js : list (LOD * nat)) :
  forall w : World,
    well_formed w -> settled w ->
    state (elapse 1200 (run_script (job_script js) w))
    = fold_left commit_level (map fst js) (fold_left commit (pending w) (state w)).
Proof.
  induction js as [|[l d] js IH]; intros w Hwf Hset.
  - cbn [job_script flat_map run_script fold_left map].
    destruct (elapse_spec 1200 w Hwf Hset) as (_ & _ & _ & _ & _ & Hs).
    rewrite Hs. f_equal. apply filter_all. intros t Ht. apply Z.leb_le.
    pose proof (wf_horizon w Hwf t Ht). lia.
  - change (job_script ((l, d) :: js))
      with ([start_job l; wait d] ++ job_script js)%list.
    rewrite run_script_app. cbn [run_script fold_left happen].
    destruct (run_spec l w Hwf Hset) as (Hwf1 & Hset1 & Hn1 & Hi1 & Hs1).
    destruct (elapse_spec d (run l w) Hwf1 Hset1)
      as (Hwf2 & Hset2 & Hn2 & Hi2 & Hp2 & Hs2).
    rewrite (IH _ Hwf2 Hset2). cbn [map fst fold_left]. f_equal.
    rewrite Hp2, Hs2, <- fold_left_app.
    rewrite due_partition by exact (wf_order _ Hwf1).
    rewrite run_pending, Hs1, fold_left_app. reflexivity.
Qed.

(** C1, as the code has it.  Job [b] is started [gap] ms after job [a],
    before [a]'s completion fires.  Starting [b] cancels nothing: [a]'s
    timeout is still pending next to [b]'s, it fires 1200 ms after [a]'s start
    and commits [set_lod a] and [compress_selected a] while [b] is in flight,
    and [b]'s commit follows on top of it 1200 ms after [b]'s start. *)
Theorem superseded_job_still_commits (s : State) (a b : LOD) (gap : nat) :
  (gap < 1200)%nat ->
  pending (two_jobs s a b gap 0)
  = [timeout_timer 1 1200 a 0; timeout_timer 3 (Z.of_nat gap + 1200) b 2]
  /\ state (two_jobs s a b gap 0) = s
  /\ ((0 < gap)%nat ->
      state (two_jobs s a b gap (1200 - gap)) = commit_level s a
      /\ pending (two_jobs s a b gap (1200 - gap))
         = [timeout_timer 3 (Z.of_nat gap + 1200) b 2])
  /\ state (two_jobs s a b gap 1200) = commit_level (commit_level s a) b
  /\ pending (two_jobs s a b gap 1200) = [].
Proof.
  intros Hgap. unfold two_jobs. cbn [run_script fold_left happen].
  destruct (idle_well_formed s) as [Hwf0 Hset0].
  destruct (run_spec a (idle s) Hwf0 Hset0) as (Hwf1 & Hset1 & Hn1 & Hi1 & Hs1).
  assert (Hp1 : pending (run a (idle s)) = [timeout_timer 1 1200 a 0])
    by reflexivity.
  change (now (idle s)) with 0 in Hn1.
  change (next_timer (idle s)) with 0%nat in Hi1.
  change (state (idle s)) with s in Hs1.
  set (w1 := run a (idle s)) in *.
  destruct (elapse_spec gap w1 Hwf1 Hset1)
    as (Hwf2 & Hset2 & Hn2 & Hi2 & Hp2 & Hs2).
  set (w2 := elapse gap w1) in *.
  rewrite Hp1, Hn1 in Hp2, Hs2. cbn [List.filter timer_due] in Hp2, Hs2.
  destruct (Z.leb_spec 1200 (0 + Z.of_nat gap)) as [Hl|_]; [lia|].
  cbn [negb fold_left] in Hp2, Hs2.
  destruct (run_spec b w2 Hwf2 Hset2) as (Hwf3 & Hset3 & Hn3 & Hi3 & Hs3).
  pose proof (run_pending b w2) as Hp3.
  set (w3 := run b w2) in *.
  rewrite Hp2, Hi2, Hi1, Hn2, Hn1 in Hp3. cbn [app] in Hp3.
  rewrite Z.add_0_l in Hp3.
  assert (Hstate : state w3 = s) by congruence.
  assert (Hnow : now w3 = Z.of_nat gap) by lia.
  split; [exact Hp3|]. split; [exact Hstate|].
  split.
  - intros Hpos.
    destruct (elapse_spec (1200 - gap) w3 Hwf3 Hset3)
      as (_ & _ & _ & _ & Hp4 & Hs4).
    rewrite Hs4, Hp4, Hp3, Hnow, Hstate. cbn [List.filter timer_due].
    destruct (Z.leb_spec 1200 (Z.of_nat gap + Z.of_nat (1200 - gap))); [|lia].
    destruct (Z.leb_spec (Z.of_nat gap + 1200)
                (Z.of_nat gap + Z.of_nat (1200 - gap))); [lia|].
    split; reflexivity.
  - destruct (elapse_spec 1200 w3 Hwf3 Hset3) as (_ & _ & _ & _ & Hp4 & Hs4).
    rewrite Hs4, Hp4, Hp3, Hnow, Hstate. cbn [List.filter timer_due].
    destruct (Z.leb_spec 1200 (Z.of_nat gap + Z.of_nat 1200)); [|lia].
    destruct (Z.leb_spec (Z.of_nat gap + 1200)
                (Z.of_nat gap + Z.of_nat 1200)); [|lia].
    split; reflexivity.
Qed.

Lemma superseded_job_still_commits_witness :
  state (two_jobs (sample_state (Some "1")) HIGH LOW 600 1200)
  = commit_level (commit_level (sample_state (Some "1")) HIGH) LOW.
Proof.
  apply (superseded_job_still_commits (sample_state (Some "1")) HIGH LOW 600).
  lia.
Defined.

(** The timeout resolves the selection when it fires: a selection made while
    the job runs is the one that is compressed. *)
Example selection_change_redirects :
  map polyCount
    (st_assets
       (state (run_script [start_job HIGH; wait 600; user (select "2"); wait 600]
                 (idle (sample_state (Some "1"))))))
  = [820000; 945000; 240000; 300000].
Proof. vm_compute. reflexivity. Qed.

(** C1, as stated, fails.  HIGH is started, LOW 600 ms later.  Both
    intervals tick after that (the progress stands at 24 one tick later); at
    1200 ms the first job's commit lands, with the second in flight; and the
    final polygon count of the selected asset is the one of both compressions,
    114800, not the 164000 of the second alone. *)
Lemma superseded_job_not_discarded :
  ~ superseded_discarded (sample_state (Some "1")) HIGH LOW 600
  /\ progress (two_jobs (sample_state (Some "1")) HIGH LOW 600 120) = Some 24
  /\ st_lod (state (two_jobs (sample_state (Some "1")) HIGH LOW 600 600)) = HIGH
  /\ map polyCount
       (st_assets (state (two_jobs (sample_state (Some "1")) HIGH LOW 600 600)))
     = [574000; 1350000; 240000; 300000]
  /\ map polyCount
       (st_assets (state (two_jobs (sample_state (Some "1")) HIGH LOW 600 1200)))
     = [114800; 1350000; 240000; 300000]
  /\ map polyCount
       (st_assets (commit_level (sample_state (Some "1")) LOW))
     = [164000; 1350000; 240000; 300000].
Proof.
  split.
  - unfold superseded_discarded. intros H.
    apply (f_equal (fun s => map polyCount (st_assets s))) in H.
    vm_compute in H. discriminate.
  - repeat split; vm_compute; reflexivity.
Qed.

(** ** More on the compression transform *)

(** The bounds on the rounded product with a factor, as linear facts. *)
Ltac product_bounds n F :=
  match eval cbv in F with
  | {| mant := ?M; expo := ?E |} =>
      let H := fresh "Hb" in
      let j := eval compute in (- E) in
      pose proof (round_product_bounds n M j ltac:(lia)) as H;
      change (- j) with E in H;
      cbv zeta in H;
      change (2 ^ 53) with 9007199254740992 in H;
      change (2 ^ 54) with 18014398509481984 in H;
      change (2 ^ 55) with 36028797018963968 in H
  end.

(** The rounded product grows with the value it is computed from: two
    values one apart give exact products at least 0.2 apart, and the
    rounding of the product moves neither by as much as 0.1. *)
Lemma poly_product_monotone (m n : Z) (lod : LOD) :
  0 <= m <= n -> n < 2 ^ 48 ->
  Math_round (Number_mul (Number_of_Z m) (lodFactor lod))
  <= Math_round (Number_mul (Number_of_Z n) (lodFactor lod)).
Proof.
  intros Hm Hn. change (2 ^ 48) with 281474976710656 in Hn.
  destruct (Z.eq_dec m n) as [->|Hne]; [lia|].
  rewrite lodFactor_value.
  destruct lod.
  - product_bounds m (lodFactor HIGH). product_bounds n (lodFactor HIGH). lia.
  - product_bounds m (lodFactor MED). product_bounds n (lodFactor MED). lia.
  - product_bounds m (lodFactor LOW). product_bounds n (lodFactor LOW). lia.
Qed.

Lemma size_product_monotone (m n : Z) (lod : LOD) :
  0 <= m <= n -> n < 2 ^ 48 ->
  Math_round (Number_mul (Number_of_Z m) (texFactor lod))
  <= Math_round (Number_mul (Number_of_Z n) (texFactor lod)).
Proof.
  intros Hm Hn. change (2 ^ 48) with 281474976710656 in Hn.
  destruct (Z.eq_dec m n) as [->|Hne]; [lia|].
  rewrite texFactor_value.
  destruct lod.
  - product_bounds m (texFactor HIGH). product_bounds n (texFactor HIGH). lia.
  - product_bounds m (texFactor MED). product_bounds n (texFactor MED). lia.
  - product_bounds m (texFactor LOW). product_bounds n (texFactor LOW). lia.
Qed.

Lemma poly_product_levels (n : Z) :
  0 <= n ->
  Math_round (Number_mul (Number_of_Z n) (lodFactor LOW))
  <= Math_round (Number_mul (Number_of_Z n) (lodFactor MED))
  /\ Math_round (Number_mul (Number_of_Z n) (lodFactor MED))
     <= Math_round (Number_mul (Number_of_Z n) (lodFactor HIGH)).
Proof.
  intros Hn. rewrite !lodFactor_value.
  product_bounds n (lodFactor HIGH). product_bounds n (lodFactor MED).
  product_bounds n (lodFactor LOW). lia.
Qed.

Lemma size_product_levels (n : Z) :
  0 <= n ->
  Math_round (Number_mul (Number_of_Z n) (texFactor LOW))
  <= Math_round (Number_mul (Number_of_Z n) (texFactor MED))
  /\ Math_round (Number_mul (Number_of_Z n) (texFactor MED))
     <= Math_round (Number_mul (Number_of_Z n) (texFactor HIGH)).
Proof.
  intros Hn. rewrite !texFactor_value.
  product_bounds n (texFactor HIGH). product_bounds n (texFactor MED).
  product_bounds n (texFactor LOW). lia.
Qed.

(** X1. On counts and sizes below 2^48, the
    binary64 arithmetic of [simulateCompression] gives the size that exact
    arithmetic with half-up rounding gives, [max(20, round(sizeMB * g))]; it
    gives the exact polygon count too, except possibly at HIGH on a count
    ending in 5, where [polyCount * 0.7] is a tie in exact arithmetic and the
    binary64 product may lie just below it: the result is then the exact one
    or one less. *)
Theorem simulateCompression_rational (a : Asset) (lod : LOD) :
  0 <= polyCount a < 2 ^ 48 -> 0 <= sizeMB a < 2 ^ 48 ->
  let a' := simulateCompression a lod in
  let f := match lod with HIGH => 0.7 | MED => 0.4 | LOW => 0.2 end%Q in
  let g := match lod with HIGH => 0.8 | MED => 0.5 | LOW => 0.25 end%Q in
  sizeMB a' = Z.max 20 (round_half_up (sizeMB a) g)
  /\ (~ (lod = HIGH /\ polyCount a mod 10 = 5) ->
      polyCount a' = Z.max 10000 (round_half_up (polyCount a) f))
  /\ Z.max 10000 (round_half_up (polyCount a) f) - 1 <= polyCount a'
     <= Z.max 10000 (round_half_up (polyCount a) f).
Proof.
  intros Hp Hs a' f g. unfold a'. cbn [simulateCompression polyCount sizeMB].
  unfold Math_max.
  pose proof (size_product_rational (sizeMB a) lod Hs) as Hsize.
  destruct (poly_product_rational (polyCount a) lod Hp) as [Hnear Hexact].
  cbv zeta in Hnear, Hexact. fold f in Hnear, Hexact. fold g in Hsize.
  split; [rewrite Hsize; reflexivity|].
  split; [intros Htie; rewrite (Hexact Htie); reflexivity|lia].
Qed.

Lemma simulateCompression_rational_witness :
  sizeMB (simulateCompression (sample_asset 20485 25) MED)
  = Z.max 20 (round_half_up 25 0.5).
Proof.
  refine (proj1 (simulateCompression_rational (sample_asset 20485 25) MED _ _));
    cbn; lia.
Defined.

(** X2. The assets [simulateCompression]
    leaves as they are, at any level, are exactly those that sit on both
    floors: [polyCount] 10000 and [sizeMB] 20.  Every other asset is changed
    by every compression. *)
Theorem simulateCompression_fixed_point (a : Asset) (lod : LOD) :
  simulateCompression a lod = a <-> polyCount a = 10000 /\ sizeMB a = 20.
Proof.
  split.
  - intros H.
    assert (Hp : polyCount (simulateCompression a lod) = polyCount a)
      by (rewrite H; reflexivity).
    assert (Hs : sizeMB (simulateCompression a lod) = sizeMB a)
      by (rewrite H; reflexivity).
    split.
    + destruct (Z.le_gt_cases (polyCount a) 10000) as [Hle|Hgt].
      * rewrite (compress_polyCount_floor a lod Hle) in Hp. lia.
      * pose proof (compress_polyCount_shrinks a lod Hgt). lia.
    + destruct (Z.le_gt_cases (sizeMB a) 20) as [Hle|Hgt].
      * rewrite (compress_sizeMB_floor a lod Hle) in Hs. lia.
      * pose proof (compress_sizeMB_shrinks a lod Hgt). lia.
  - intros [Hp Hs].
    pose proof (compress_polyCount_floor a lod ltac:(lia)) as Hp'.
    pose proof (compress_sizeMB_floor a lod ltac:(lia)) as Hs'.
    destruct a as [i n p s t c sh co ca g]. cbn [polyCount sizeMB] in *.
    unfold simulateCompression in *.
    cbn [polyCount sizeMB id name tags createdAt shape color category gltfUrl] in *.
    rewrite Hp', Hs'. subst. reflexivity.
Qed.

(** X3. Compression keeps the order of assets:
    of two assets with counts and sizes below 2^48, the one with no more
    polygons (no more megabytes) before has no more after, at every level. *)
Theorem simulateCompression_monotone (a b : Asset) (lod : LOD) :
  0 <= polyCount a <= polyCount b -> polyCount b < 2 ^ 48 ->
  0 <= sizeMB a <= sizeMB b -> sizeMB b < 2 ^ 48 ->
  polyCount (simulateCompression a lod) <= polyCount (simulateCompression b lod)
  /\ sizeMB (simulateCompression a lod) <= sizeMB (simulateCompression b lod).
Proof.
  intros Hp Hpb Hs Hsb. cbn [simulateCompression polyCount sizeMB].
  unfold Math_max.
  pose proof (poly_product_monotone (polyCount a) (polyCount b) lod Hp Hpb).
  pose proof (size_product_monotone (sizeMB a) (sizeMB b) lod Hs Hsb).
  lia.
Qed.

Lemma simulateCompression_monotone_witness :
  polyCount (simulateCompression (sample_asset 240000 95) HIGH)
  <= polyCount (simulateCompression (sample_asset 820000 180) HIGH)
  /\ sizeMB (simulateCompression (sample_asset 240000 95) HIGH)
     <= sizeMB (simulateCompression (sample_asset 820000 180) HIGH).
Proof.
  apply (simulateCompression_monotone (sample_asset 240000 95)
           (sample_asset 820000 180) HIGH); cbn; lia.
Defined.

(** X4. The levels are ordered by strength: on an
    asset with non-negative count and size, LOW leaves no more polygons and no
    more megabytes than MED, and MED no more than HIGH. *)
Theorem simulateCompression_levels (a : Asset) :
  0 <= polyCount a -> 0 <= sizeMB a ->
  (polyCount (simulateCompression a LOW) <= polyCount (simulateCompression a MED)
   /\ polyCount (simulateCompression a MED)
      <= polyCount (simulateCompression a HIGH))
  /\ (sizeMB (simulateCompression a LOW) <= sizeMB (simulateCompression a MED)
      /\ sizeMB (simulateCompression a MED)
         <= sizeMB (simulateCompression a HIGH)).
Proof.
  intros Hp Hs. cbn [simulateCompression polyCount sizeMB]. unfold Math_max.
  pose proof (poly_product_levels (polyCount a) Hp).
  pose proof (size_product_levels (sizeMB a) Hs).
  lia.
Qed.

Lemma simulateCompression_levels_witness :
  polyCount (simulateCompression (sample_asset 820000 180) LOW)
  <= polyCount (simulateCompression (sample_asset 820000 180) MED).
Proof.
  refine (proj1 (proj1 (simulateCompression_levels (sample_asset 820000 180) _ _)));
    cbn; lia.
Defined.

(** ** More on the reducer *)

(** [findIndex] gives the length of the longest prefix without a match. *)
Lemma findIndex_app {A : Type} (p : A -> bool) (l1 l2 : list A) (x : A) :
  (forall y, In y l1 -> p y = false) -> p x = true ->
  findIndex p (l1 ++ x :: l2) = Some (length l1).
Proof.
  intros Hl1 Hx. induction l1 as [|y l1 IH]; cbn.
  - rewrite Hx. reflexivity.
  - rewrite (Hl1 y (or_introl eq_refl)).
    rewrite IH by (intros z Hz; apply Hl1; right; exact Hz). reflexivity.
Qed.

Lemma findIndex_split {A : Type} (p : A -> bool) (l : list A) (i : nat) :
  findIndex p l = Some i ->
  exists l1 x l2, l = (l1 ++ x :: l2)%list /\ length l1 = i /\ p x = true
                  /\ forall y, In y l1 -> p y = false.
Proof.
  revert i. induction l as [|y l IH]; intros i H; cbn in H; [discriminate|].
  destruct (p y) eqn:Hy.
  - injection H as <-. exists [], y, l. repeat split; auto. intros ? [].
  - destruct (findIndex p l) as [j|] eqn:Hj; [|discriminate].
    cbn in H. injection H as <-.
    destruct (IH j eq_refl) as (l1 & x & l2 & -> & Hlen & Hx & Hl1).
    exists (y :: l1), x, l2. cbn. repeat split; auto.
    intros z [<-|Hz]; auto.
Qed.

(** What [compress_selected] does when the selection resolves: the first
    asset with the selected id is replaced, where it stands. *)
Lemma reducer_compress_split (s : State) (lod : LOD) (l1 l2 : list Asset)
  (a : Asset) :
  st_assets s = (l1 ++ a :: l2)%list ->
  st_selectedId s = Some (id a) -> id a <> "" ->
  (forall b, In b l1 -> id b <> id a) ->
  reducer s (compress_selected lod)
  = new_object
      {| st_assets := (l1 ++ simulateCompression a lod :: l2)%list;
         st_selectedId := st_selectedId s;
         st_filter := st_filter s;
         st_lod := st_lod s |}.
Proof.
  intros Hassets Hsel Hne Hl1. unfold reducer.
  rewrite Hsel. cbn [falsy].
  destruct (String.eqb_spec (id a) "") as [He|_]; [contradiction|].
  rewrite Hassets.
  rewrite (findIndex_app _ l1 l2 a).
  - rewrite list_lookup_middle by reflexivity.
    rewrite insert_app_r_alt by lia. rewrite Nat.sub_diag.
    cbn [insert list_insert]. reflexivity.
  - intros b Hb. apply bool_decide_eq_false. intros Heq.
    injection Heq as Heq. exact (Hl1 b Hb Heq).
  - apply bool_decide_eq_true. reflexivity.
Qed.

(** Every transition leaves the asset sequence alone or replaces one asset
    by its compression, and leaves the selection alone unless it is a
    [select]. *)
Lemma dispatch_assets (s : State) (act : Action) :
  (st_assets (dispatch s act) = st_assets s
   \/ exists lod l1 a l2,
        act = compress_selected lod
        /\ st_assets s = (l1 ++ a :: l2)%list
        /\ st_assets (dispatch s act)
           = (l1 ++ simulateCompression a lod :: l2)%list)
  /\ (st_selectedId (dispatch s act) = st_selectedId s
      \/ exists i, act = select i /\ st_selectedId (dispatch s act) = Some i).
Proof.
  destruct act as [i|q|l|l]; cbn.
  - split; [left; reflexivity|right; eauto].
  - split; left; reflexivity.
  - split; left; reflexivity.
  - unfold dispatch, reducer.
    destruct (falsy (st_selectedId s)); [split; left; reflexivity|].
    destruct (findIndex _ (st_assets s)) as [idx|] eqn:Hidx;
      [|split; left; reflexivity].
    destruct (findIndex_split _ _ _ Hidx) as (l1 & a & l2 & Hl & Hlen & Ha & Hl1).
    rewrite Hl. subst idx. rewrite list_lookup_middle by reflexivity.
    cbn [st_assets st_selectedId]. split; [|left; reflexivity].
    right. exists l, l1, a, l2. split; [reflexivity|]. split; [reflexivity|].
    rewrite insert_app_r_alt by lia. rewrite Nat.sub_diag. reflexivity.
Qed.

Lemma same_but_counts_refl (a : Asset) : same_but_counts a a.
Proof. repeat split. Qed.

Lemma same_but_counts_trans (a b c : Asset) :
  same_but_counts a b -> same_but_counts b c -> same_but_counts a c.
Proof.
  unfold same_but_counts.
  intros (?&?&?&?&?&?&?&?) (?&?&?&?&?&?&?&?). repeat split; congruence.
Qed.

Lemma compressed_from_refl (a : Asset) : compressed_from a a.
Proof. split; [apply same_but_counts_refl|left; reflexivity]. Qed.

Lemma compressed_from_step (a : Asset) (lod : LOD) :
  compressed_from a (simulateCompression a lod).
Proof.
  split; [repeat split|]. right.
  assert (Hp : 10000 <= polyCount (simulateCompression a lod))
    by (cbn [simulateCompression polyCount]; unfold Math_max; lia).
  assert (Hs : 20 <= sizeMB (simulateCompression a lod))
    by (cbn [simulateCompression sizeMB]; unfold Math_max; lia).
  split.
  - split; [exact Hp|].
    destruct (Z.le_gt_cases (polyCount a) 10000) as [Hle|Hgt].
    + rewrite (compress_polyCount_floor a lod Hle). lia.
    + pose proof (compress_polyCount_shrinks a lod Hgt). lia.
  - split; [exact Hs|].
    destruct (Z.le_gt_cases (sizeMB a) 20) as [Hle|Hgt].
    + rewrite (compress_sizeMB_floor a lod Hle). lia.
    + pose proof (compress_sizeMB_shrinks a lod Hgt). lia.
Qed.

Lemma compressed_from_trans (a b c : Asset) :
  compressed_from a b -> compressed_from b c -> compressed_from a c.
Proof.
  intros [Hab Hab'] [Hbc Hbc']. split.
  - eapply same_but_counts_trans; eassumption.
  - destruct Hbc' as [->|Hbc']; [exact Hab'|].
    destruct Hab' as [->|Hab']; [right; exact Hbc'|].
    right. lia.
Qed.

Lemma compressed_from_same (l : list Asset) : Forall2 compressed_from l l.
Proof. induction l; constructor; auto using compressed_from_refl. Qed.

Lemma Forall2_chain {A : Type} (R : A -> A -> Prop) :
  (forall a b c, R a b -> R b c -> R a c) ->
  forall l1 l2 l3, Forall2 R l1 l2 -> Forall2 R l2 l3 -> Forall2 R l1 l3.
Proof.
  intros HR l1 l2 l3 H12. revert l3.
  induction H12 as [|a b l1 l2 Hab _ IH]; intros l3 H23.
  - inversion H23. constructor.
  - inversion H23 as [|b' c l2' l3' Hbc Hrest]; subst.
    constructor; [eapply HR; eassumption|apply IH; exact Hrest].
Qed.

Lemma dispatch_compressed_from (s : State) (act : Action) :
  Forall2 compressed_from (st_assets s) (st_assets (dispatch s act)).
Proof.
  destruct (dispatch_assets s act) as [[->|(lod & l1 & a & l2 & _ & -> & ->)] _].
  - apply compressed_from_same.
  - apply Forall2_app; [|constructor].
    + apply compressed_from_same.
    + apply compressed_from_step.
    + apply compressed_from_same.
Qed.

Lemma replay_cons (act : Action) (actions : list Action) (s : State) :
  replay (act :: actions) s = replay actions (dispatch s act).
Proof. reflexivity. Qed.

Lemma replay_compressed_from (actions : list Action) :
  forall s, Forall2 compressed_from (st_assets s) (st_assets (replay actions s)).
Proof.
  induction actions as [|act actions IH]; intros s.
  - apply compressed_from_same.
  - rewrite replay_cons.
    eapply (Forall2_chain _ compressed_from_trans);
      [apply dispatch_compressed_from|apply IH].
Qed.

(** X5. When the selected id is not empty and
    some asset carries it, [compress_selected] replaces the first such asset
    by its compression, in place: the assets before and after it, later
    assets with the same id among them, stay as they are, and so do
    [selectedId], [filter] and [lod].  A second [compress_selected]
    compresses the result of the first. *)
Theorem reducer_compress_first_match (s : State) (lod : LOD)
  (l1 l2 : list Asset) (a : Asset) :
  st_assets s = (l1 ++ a :: l2)%list ->
  st_selectedId s = Some (id a) -> id a <> "" ->
  (forall b, In b l1 -> id b <> id a) ->
  let once :=
    {| st_assets := (l1 ++ simulateCompression a lod :: l2)%list;
       st_selectedId := st_selectedId s;
       st_filter := st_filter s;
       st_lod := st_lod s |} in
  let twice :=
    {| st_assets :=
         (l1 ++ simulateCompression (simulateCompression a lod) lod :: l2)%list;
       st_selectedId := st_selectedId s;
       st_filter := st_filter s;
       st_lod := st_lod s |} in
  reducer s (compress_selected lod) = new_object once
  /\ reducer once (compress_selected lod) = new_object twice.
Proof.
  intros Hassets Hsel Hne Hl1 once twice. split.
  - apply reducer_compress_split; assumption.
  - apply (reducer_compress_split once lod l1 l2 (simulateCompression a lod));
      [reflexivity|exact Hsel|exact Hne|exact Hl1].
Qed.

Lemma reducer_compress_first_match_witness :
  reducer (sample_state (Some "2")) (compress_selected LOW)
  = new_object
      {| st_assets :=
           (take 1 INITIAL_ASSETS
            ++ simulateCompression
                 {| id := "2"; name := "Explorer Helmet"; polyCount := 1350000;
                    sizeMB := 420; tags := ["helmet"; "character"];
                    createdAt := "2025-08-21T09:00:00Z"; shape := sphere;
                    color := Some "#f59e0b"; category := Some character;
                    gltfUrl := Some "/models/helmet.glb" |} LOW
            :: drop 2 INITIAL_ASSETS)%list;
         st_selectedId := Some "2"; st_filter := ""; st_lod := HIGH |}.
Proof.
  refine (proj1 (reducer_compress_first_match (sample_state (Some "2")) LOW
                   (take 1 INITIAL_ASSETS) (drop 2 INITIAL_ASSETS) _ _ _ _ _)).
  - reflexivity.
  - reflexivity.
  - cbn. discriminate.
  - cbn. intros b [<-|[]]. cbn. discriminate.
Defined.

(** X6. Whatever actions are dispatched, the asset
    sequence keeps its length and its order of ids, and every asset keeps its
    id, name, tags, timestamp, shape, colour, category and model URL; its
    [polyCount] and [sizeMB] are untouched, or lie between the floor (10000,
    20) and the larger of the floor and the value the asset started with: the
    reducer never adds, removes or reorders assets, and never makes an asset
    larger than it was unless it lay below a floor. *)
Theorem replay_assets_invariant (actions : list Action) (s : State) :
  let s' := replay actions s in
  length (st_assets s') = length (st_assets s)
  /\ map id (st_assets s') = map id (st_assets s)
  /\ forall (i : nat) (a : Asset),
       st_assets s !! i = Some a ->
       exists a', st_assets s' !! i = Some a' /\ compressed_from a a'.
Proof.
  intros s'. pose proof (replay_compressed_from actions s) as H. fold s' in H.
  split; [symmetry; eapply Forall2_length; exact H|].
  split.
  - induction H as [|a b l l' [Hab _] _ IH]; [reflexivity|].
    cbn. rewrite IH. f_equal. symmetry. apply Hab.
  - intros i a Hi.
    destruct (Forall2_lookup_l _ _ _ _ _ H Hi) as (a' & Ha' & Hc). eauto.
Qed.

(** The transition reads the asset sequence and the selection, nothing
    else. *)
Lemma dispatch_reads (s1 s2 : State) (act : Action) :
  st_assets s1 = st_assets s2 -> st_selectedId s1 = st_selectedId s2 ->
  st_assets (dispatch s1 act) = st_assets (dispatch s2 act)
  /\ st_selectedId (dispatch s1 act) = st_selectedId (dispatch s2 act).
Proof.
  intros Ha Hs. destruct act as [i|q|l|l]; cbn; auto.
  unfold dispatch, reducer. rewrite <- Ha, <- Hs.
  destruct (falsy (st_selectedId s1)); [auto|].
  destruct (findIndex _ (st_assets s1)) as [idx|]; [|auto].
  destruct (st_assets s1 !! idx); cbn; auto.
Qed.

Lemma dispatch_untouched (s : State) (act : Action) :
  touches_assets act = false ->
  st_assets (dispatch s act) = st_assets s
  /\ st_selectedId (dispatch s act) = st_selectedId s.
Proof. destruct act; cbn; intros H; try discriminate; auto. Qed.

Lemma replay_reads (actions : list Action) :
  forall s1 s2,
    st_assets s1 = st_assets s2 -> st_selectedId s1 = st_selectedId s2 ->
    st_assets (replay actions s1)
    = st_assets (replay (List.filter touches_assets actions) s2)
    /\ st_selectedId (replay actions s1)
       = st_selectedId (replay (List.filter touches_assets actions) s2).
Proof.
  induction actions as [|act actions IH]; intros s1 s2 Ha Hs; [cbn; auto|].
  rewrite replay_cons. cbn [List.filter].
  destruct (touches_assets act) eqn:Ht.
  - rewrite replay_cons.
    destruct (dispatch_reads s1 s2 act Ha Hs) as [Ha' Hs']. apply IH; assumption.
  - destruct (dispatch_untouched s1 act Ht) as [Ha' Hs'].
    apply IH; congruence.
Qed.

Lemma last_omap_cons {A B : Type} (f : A -> option B) (x : A) (l : list A)
  (d : B) :
  default d (last (omap f (x :: l)))
  = default (default d (f x)) (last (omap f l)).
Proof.
  cbn [omap list_omap]. destruct (f x) as [b|]; cbn [default]; [|reflexivity].
  rewrite last_cons. destruct (last (omap f l)); reflexivity.
Qed.

Lemma dispatch_compress_fields (s : State) (l : LOD) :
  st_filter (dispatch s (compress_selected l)) = st_filter s
  /\ st_lod (dispatch s (compress_selected l)) = st_lod s.
Proof.
  unfold dispatch, reducer.
  destruct (falsy (st_selectedId s)); [auto|].
  destruct (findIndex _ (st_assets s)) as [idx|]; [|auto].
  destruct (st_assets s !! idx); auto.
Qed.

(** X7. The four fields of the state evolve
    independently, but for [compress_selected] reading the selection: the
    assets and the selection after a run of actions are those the [select]
    and [compress_selected] actions alone produce, so neither the filter text
    nor the stored [lod] ever influences a compression (the level comes with
    the action); and [selectedId], [filter] and [lod] are each the payload of
    the last action of their type, or the initial value. *)
Theorem replay_field_independence (actions : list Action) (s : State) :
  let s' := replay actions s in
  let kept := replay (List.filter touches_assets actions) s in
  st_assets s' = st_assets kept
  /\ st_selectedId s' = st_selectedId kept
  /\ st_selectedId s'
     = from_option Some (st_selectedId s) (last (omap id_selected actions))
  /\ st_filter s' = default (st_filter s) (last (omap filter_text actions))
  /\ st_lod s' = default (st_lod s) (last (omap level_set actions)).
Proof.
  intros s' kept. unfold s', kept. clear s' kept.
  destruct (replay_reads actions s s eq_refl eq_refl) as [Ha Hs].
  split; [exact Ha|]. split; [exact Hs|]. clear Ha Hs.
  revert s. induction actions as [|act actions IH]; intros s.
  - cbn. auto.
  - rewrite replay_cons. destruct (IH (dispatch s act)) as (H1 & H2 & H3).
    rewrite H1, H2, H3.
    split; [|split].
    + cbn [omap list_omap]. destruct act as [i|q|l|l]; cbn [id_selected].
      * rewrite last_cons.
        destruct (last (omap id_selected actions)); reflexivity.
      * reflexivity.
      * reflexivity.
      * destruct (dispatch_assets s (compress_selected l))
          as [_ [->|(i & Hi & _)]]; [reflexivity|discriminate].
    + rewrite last_omap_cons. destruct act as [i|q|l|l]; cbn [filter_text default];
        try reflexivity.
      rewrite (proj1 (dispatch_compress_fields s l)). reflexivity.
    + rewrite last_omap_cons. destruct act as [i|q|l|l]; cbn [level_set default];
        try reflexivity.
      rewrite (proj2 (dispatch_compress_fields s l)). reflexivity.
Qed.

(** ** More on the filter and the sort *)

Lemma includes_trans (s q1 q2 : string) :
  includes q2 q1 = true -> includes s q2 = true -> includes s q1 = true.
Proof.
  rewrite !includes_spec. intros (p1 & r1 & ->) (p2 & r2 & ->).
  exists (p2 ++ p1), (r1 ++ r2). rewrite !string_app_assoc. reflexivity.
Qed.

Lemma includes_empty (s : string) : includes s "" = true.
Proof. destruct s; reflexivity. Qed.

Lemma includes_in_empty (q : string) : includes "" q = true -> q = "".
Proof. destruct q; cbn; [reflexivity|discriminate]. Qed.

Section FilterFacts.
Context {host : Host}.

Lemma matches_query_narrows (q1 q2 : string) (a : Asset) :
  includes q2 q1 = true ->
  matches_query q2 a = true -> matches_query q1 a = true.
Proof.
  intros Hq. unfold matches_query. rewrite !orb_true_iff, !existsb_exists.
  intros [[Hn|(t & Ht & Hn)]|Hn].
  - left. left. eapply includes_trans; eassumption.
  - left. right. exists t. split; [exact Ht|]. eapply includes_trans; eassumption.
  - right. destruct (category a); [|discriminate].
    eapply includes_trans; eassumption.
Qed.

End FilterFacts.

(** X8. Extending the query narrows the list: when the
    trimmed query [q1] occurs in the trimmed query [q2], case ignored, what
    the hook keeps for [q2] is what its predicate for [q2] keeps of the
    result for [q1]; every asset listed for [q2] is listed for [q1]. *)
Theorem filter_narrows {host : Host} (assets : list Asset) (q1 q2 : string)
  (sortKey : SortKey) (dir : SortDir) :
  case_insensitive_substring (trim q1) (trim q2) ->
  filtered (useAssetFilterSort assets q2 sortKey dir)
  = List.filter (matches_query (toLowerCase (trim q2)))
      (filtered (useAssetFilterSort assets q1 sortKey dir))
  /\ forall a, In a (filtered (useAssetFilterSort assets q2 sortKey dir)) ->
               In a (filtered (useAssetFilterSort assets q1 sortKey dir)).
Proof.
  intros Hsub.
  assert (Hinc : includes (toLowerCase (trim q2)) (toLowerCase (trim q1)) = true)
    by (apply includes_spec; exact Hsub).
  assert (Heq : filtered (useAssetFilterSort assets q2 sortKey dir)
                = List.filter (matches_query (toLowerCase (trim q2)))
                    (filtered (useAssetFilterSort assets q1 sortKey dir))).
  { cbn [useAssetFilterSort filtered].
    destruct (is_empty (toLowerCase (trim q2))) eqn:E2.
    - apply is_empty_spec in E2. rewrite E2 in *.
      apply includes_in_empty in Hinc. rewrite Hinc. cbn [is_empty].
      symmetry. apply filter_all. intros a _. unfold matches_query.
      rewrite includes_empty. reflexivity.
    - destruct (is_empty (toLowerCase (trim q1))) eqn:E1; [reflexivity|].
      symmetry. apply filter_filter_implied.
      intros a. apply matches_query_narrows. exact Hinc. }
  split; [exact Heq|].
  intros a Ha. rewrite Heq in Ha. apply filter_In in Ha. tauto.
Qed.

Lemma filter_narrows_witness :
  filtered (@useAssetFilterSort example_host INITIAL_ASSETS "hero s" key_name asc)
  = List.filter
      (@matches_query example_host (@toLowerCase example_host (trim "hero s")))
      (filtered (@useAssetFilterSort example_host INITIAL_ASSETS " HER"
                   key_name asc)).
Proof.
  refine (proj1 (@filter_narrows example_host INITIAL_ASSETS " HER" "hero s"
                   key_name asc _)).
  exists "", "o s". reflexivity.
Defined.

(** X9. The hook's result depends on the query only up
    to surrounding white space: putting white-space characters, of any kind
    that [trim] strips, in front of the query and behind it changes neither
    [filtered] nor [list]; and a query of white space only filters nothing
    out. *)
Theorem query_normalised {host : Host} {laws : HostLaws host}
  (assets : list Asset) (q : string) (before behind : list string)
  (sortKey : SortKey) (dir : SortDir) :
  whites before -> whites behind ->
  useAssetFilterSort assets (string_concat before ++ q ++ string_concat behind)
    sortKey dir
  = useAssetFilterSort assets q sortKey dir
  /\ filtered (useAssetFilterSort assets (string_concat before) sortKey dir)
     = assets.
Proof.
  intros H1 H2.
  assert (B1 : blank (string_concat before) = true)
    by (apply blank_spec; exists before; auto).
  assert (B2 : blank (string_concat behind) = true)
    by (apply blank_spec; exists behind; auto).
  unfold useAssetFilterSort. rewrite (trim_padded _ q _ B1 B2).
  split; [reflexivity|]. cbn [filtered].
  rewrite (trim_blank _ B1), (proj2 (toLowerCase_empty "") eq_refl).
  reflexivity.
Qed.

Lemma query_normalised_witness :
  @useAssetFilterSort example_host INITIAL_ASSETS
    (NBSP ++ "Lamp" ++ " " ++ LS) key_name asc
  = @useAssetFilterSort example_host INITIAL_ASSETS "Lamp" key_name asc.
Proof.
  refine (proj1 (@query_normalised example_host example_host_laws
                   INITIAL_ASSETS "Lamp" [NBSP] [" "; LS] key_name asc _ _));
    unfold whites;
    repeat (apply List.Forall_cons;
            [cbn; repeat (first [left; reflexivity|right])|]);
    apply List.Forall_nil.
Defined.

(** ** The inline filter against the hook *)

(** X10. The inline filter of the single-file
    application and the hook differ only in that the hook lower-cases the
    tags: an asset whose tags [toLowerCase] leaves as they are is kept by
    the one exactly when it is kept by the other, whatever the query; so on
    a list with such tags throughout the two list the same assets.  A query
    that trims to nothing keeps every asset in both. *)
Theorem Monolith_listed_agrees {host : Host} {laws : HostLaws host}
  (assets : list Asset) (query : string) (sortKey : SortKey) (dir : SortDir) :
  (forall a, (forall t, In t (tags a) -> toLowerCase t = t) ->
     Monolith.listed [a] query
     = filtered (useAssetFilterSort [a] query sortKey dir))
  /\ ((forall a t, In a assets -> In t (tags a) -> toLowerCase t = t) ->
      Monolith.listed assets query
      = filtered (useAssetFilterSort assets query sortKey dir))
  /\ (trim query = "" ->
      Monolith.listed assets query = assets
      /\ filtered (useAssetFilterSort assets query sortKey dir) = assets).
Proof.
  split; [|split].
  - intros a Ha. apply Monolith_listed_lower_tags.
    intros a' t [<-|[]]. apply Ha.
  - apply Monolith_listed_lower_tags.
  - intros Hq. split.
    + unfold Monolith.listed. apply filter_all. intros a _.
      unfold Monolith.list_filter.
      rewrite Hq, (proj2 (toLowerCase_empty "") eq_refl). reflexivity.
    + apply useAssetFilterSort_filtered. exact Hq.
Qed.

Lemma Monolith_listed_agrees_witness :
  @Monolith.listed example_host INITIAL_ASSETS "LIGHT"
  = filtered (@useAssetFilterSort example_host INITIAL_ASSETS "LIGHT"
                key_name asc).
Proof.
  refine (proj1 (proj2 (@Monolith_listed_agrees example_host example_host_laws
                          INITIAL_ASSETS "LIGHT" key_name asc)) _).
  intros a t Ha Ht. cbn in Ha.
  repeat (destruct Ha as [<-|Ha];
          [cbn in Ht; repeat (destruct Ht as [<-|Ht]; [reflexivity|]);
           destruct Ht|]).
  destruct Ha.
Defined.

(** ** The filter on the states the application reaches *)

Lemma catalogue_tags_lower {host : Host} {laws : HostLaws host}
  (a : Asset) (t : string) :
  In a INITIAL_ASSETS -> In t (tags a) -> toLowerCase t = t.
Proof.
  intros Ha Ht. apply toLowerCase_lower_ASCII. cbn in Ha.
  repeat (destruct Ha as [<-|Ha];
          [cbn in Ht; repeat (destruct Ht as [<-|Ht]; [vm_compute; reflexivity|]);
           destruct Ht|]).
  destruct Ha.
Qed.

Lemma Forall2_In_r {A B : Type} (R : A -> B -> Prop) (l : list A) (l' : list B)
  (b : B) :
  Forall2 R l l' -> In b l' -> exists a, In a l /\ R a b.
Proof.
  induction 1 as [|x y l l' Hxy _ IH]; intros Hb; [destruct Hb|].
  destruct Hb as [<-|Hb].
  - exists x. split; [left; reflexivity|exact Hxy].
  - destruct (IH Hb) as (a & Ha & Hab). exists a. split; [right; exact Ha|exact Hab].
Qed.

(** No action changes a tag: the tags of every state reached from the
    initial one are those of the catalogue. *)
Lemma reached_tags_lower {host : Host} {laws : HostLaws host}
  (actions : list Action) (a : Asset) (t : string) :
  In a (st_assets (replay actions App.initialState)) -> In t (tags a) ->
  toLowerCase t = t.
Proof.
  intros Ha Ht.
  destruct (Forall2_In_r _ _ _ a
              (replay_compressed_from actions App.initialState) Ha)
    as (a0 & Ha0 & ((_ & _ & Htags & _) & _)).
  apply (catalogue_tags_lower a0 t Ha0). rewrite Htags. exact Ht.
Qed.

(** C3. The filter keeps exactly the assets the specification's predicate
    matches, in their order, and a query that trims to nothing gives the
    list back: the hook for every list and every query, the inline filter of
    the single-file application on the assets of every state that
    application reaches (those of the catalogue, whose tags are in lower
    case, with their counts compressed). *)
Theorem filter_matches_specification {host : Host} {laws : HostLaws host}
  (assets : list Asset) (query : string) (sortKey : SortKey) (dir : SortDir)
  (actions : list Action) :
  ((trim query = "" ->
    filtered (useAssetFilterSort assets query sortKey dir) = assets)
   /\ exists keep : Asset -> bool,
        (forall a, keep a = true <-> spec_matches query a)
        /\ filtered (useAssetFilterSort assets query sortKey dir)
           = List.filter keep assets)
  /\ ((trim query = "" ->
       Monolith.listed (st_assets (replay actions App.initialState)) query
       = st_assets (replay actions App.initialState))
      /\ exists keep : Asset -> bool,
           (forall a, keep a = true <-> spec_matches query a)
           /\ Monolith.listed (st_assets (replay actions App.initialState))
                query
              = List.filter keep (st_assets (replay actions App.initialState))).
Proof.
  split; [apply useAssetFilterSort_filtered|].
  rewrite (Monolith_listed_lower_tags _ query sortKey dir
             (reached_tags_lower actions)).
  apply useAssetFilterSort_filtered.
Qed.

Lemma filter_matches_specification_witness :
  exists keep : Asset -> bool,
    (forall a, keep a = true <-> @spec_matches example_host " Hero " a)
    /\ @Monolith.listed example_host
         (st_assets (replay [compress_selected LOW] App.initialState)) " Hero "
       = List.filter keep
           (st_assets (replay [compress_selected LOW] App.initialState)).
Proof.
  exact (proj2 (proj2 (@filter_matches_specification example_host
                         example_host_laws [] " Hero " key_name asc
                         [compress_selected LOW]))).
Defined.

Example filter_catalogue :
  map id (filtered (@useAssetFilterSort example_host INITIAL_ASSETS
                      (NBSP ++ "LAMP ") key_name asc)) = ["4"]
  /\ map id (@Monolith.listed example_host INITIAL_ASSETS
               (NBSP ++ "LAMP ")) = ["4"]
  /\ map id (@Monolith.listed example_host INITIAL_ASSETS "Hero") = ["1"]
  /\ map id (@Monolith.listed example_host INITIAL_ASSETS "PROP") = ["1"; "4"].
Proof. repeat split; vm_compute; reflexivity. Qed.

(** ** Filtering and sorting together *)

Lemma Permutation_filter {A : Type} (p : A -> bool) (l l' : list A) :
  Permutation l l' -> Permutation (List.filter p l) (List.filter p l').
Proof.
  induction 1 as [|x l l' _ IH|x y l|l l' l'' _ IH1 _ IH2]; cbn.
  - constructor.
  - destruct (p x); [constructor|]; exact IH.
  - destruct (p x), (p y); try reflexivity. constructor.
  - etransitivity; eassumption.
Qed.

(** Filtering the result of a sort gives the sort of the filtered list. *)
Lemma stable_sort_filter_commute {A : Type} (compareFn : A -> A -> option Z)
  (p : A -> bool) (l : list A) :
  preorder_on compareFn l ->
  List.filter p (stable_sort compareFn l)
  = stable_sort compareFn (List.filter p l).
Proof.
  intros Hc. apply stable_sort_conforming.
  - apply (preorder_on_incl compareFn l); [|exact Hc].
    intros a Ha. apply filter_In in Ha. tauto.
  - destruct (stable_sort_sort_result compareFn l Hc) as [Hperm Hord Hst].
    split.
    + apply Permutation_filter. exact Hperm.
    + apply StronglySorted_filter. exact Hord.
    + intros x Hx. apply filter_In in Hx as [Hx _].
      rewrite (filter_filter_comm (ties compareFn x) p).
      rewrite (filter_filter_comm (ties compareFn x) p l).
      rewrite (Hst x Hx). reflexivity.
Qed.

(** A list that is in order is left as it is. *)
Lemma stable_sort_in_order_fixed {A : Type} (compareFn : A -> A -> option Z)
  (l : list A) :
  StronglySorted (fun a b => sorts_after compareFn a b = false) l ->
  stable_sort compareFn l = l.
Proof.
  induction 1 as [|x l Hl IH Hx]; [reflexivity|].
  cbn [stable_sort]. rewrite IH. destruct l as [|y l]; [reflexivity|].
  cbn [sort_insert]. rewrite (proj1 (List.Forall_forall _ _) Hx y (or_introl eq_refl)).
  reflexivity.
Qed.

(** X11. On a comparator that is consistent on the
    assets, filtering and sorting commute: the hook's [list] for a query is
    what the query keeps of the sorted full list.  And the hook is idempotent:
    given its own [list] as input, with the same query, key and direction, it
    returns that list unchanged, as [filtered] and as [list]. *)
Theorem filter_sort_commute {host : Host} {laws : HostLaws host}
  (assets : list Asset) (query : string) (sortKey : SortKey) (dir : SortDir) :
  consistent_on (compareAssets sortKey dir) assets ->
  let r := useAssetFilterSort assets query sortKey dir in
  let all := useAssetFilterSort assets "" sortKey dir in
  sorted_list r
  = filtered (useAssetFilterSort (sorted_list all) query sortKey dir)
  /\ useAssetFilterSort (sorted_list r) query sortKey dir
     = {| filtered := sorted_list r; sorted_list := sorted_list r |}.
Proof.
  intros Hc r all. unfold r, all. clear r all.
  unfold useAssetFilterSort. cbn [filtered sorted_list].
  change (trim "") with "". rewrite (proj2 (toLowerCase_empty "") eq_refl).
  cbn [is_empty].
  set (q := toLowerCase (trim query)).
  set (cmp := compareAssets sortKey dir) in *.
  assert (Hsub : forall l : list Asset,
             (forall a, In a l -> In a assets) ->
             Array_sort cmp l = stable_sort cmp l).
  { intros l Hl. apply Array_sort_stable_sort.
    apply (consistent_on_incl cmp assets); assumption. }
  pose proof (consistent_preorder cmp assets Hc) as Hpre.
  assert (Hf : forall a, In a (List.filter (matches_query q) assets) ->
                         In a assets)
    by (intros a Ha; apply filter_In in Ha; tauto).
  destruct (is_empty q) eqn:He.
  - rewrite !(Hsub assets) by auto. split; [reflexivity|].
    rewrite (Hsub (stable_sort cmp assets))
      by (intros a Ha; apply stable_sort_In in Ha; exact Ha).
    rewrite (stable_sort_in_order_fixed cmp (stable_sort cmp assets));
      [reflexivity|].
    apply stable_sort_in_order. exact Hpre.
  - rewrite !(Hsub assets) by auto.
    rewrite !(Hsub (List.filter (matches_query q) assets)) by exact Hf.
    split.
    + symmetry. apply stable_sort_filter_commute. exact Hpre.
    + assert (Hkeep : List.filter (matches_query q)
                        (stable_sort cmp (List.filter (matches_query q) assets))
                      = stable_sort cmp (List.filter (matches_query q) assets)).
      { apply filter_all. intros a Ha. apply (proj1 (stable_sort_In _ _ _)) in Ha.
        apply filter_In in Ha. tauto. }
      rewrite Hkeep.
      rewrite (Hsub (stable_sort cmp (List.filter (matches_query q) assets)))
        by (intros a Ha; apply stable_sort_In in Ha; auto).
      rewrite (stable_sort_in_order_fixed cmp (stable_sort cmp _)); [reflexivity|].
      apply stable_sort_in_order.
      apply (preorder_on_incl _ assets); [exact Hf|exact Hpre].
Qed.

Lemma filter_sort_commute_witness :
  sorted_list (@useAssetFilterSort example_host INITIAL_ASSETS "prop" key_polyCount desc)
  = filtered
      (@useAssetFilterSort example_host
         (sorted_list (@useAssetFilterSort example_host INITIAL_ASSETS ""
                         key_polyCount desc))
         "prop" key_polyCount desc).
Proof.
  refine (proj1 (@filter_sort_commute example_host example_host_laws
                   INITIAL_ASSETS "prop" key_polyCount desc _)).
  apply byPoly_consistent.
Defined.

(** ** Sorting by polygon count *)

Lemma filter_key_unique {A B : Type} (key : A -> B) (p : A -> bool) (k : B)
  (l : list A) :
  List.NoDup (map key l) -> (forall y, p y = true -> key y = k) ->
  (length (List.filter p l) <= 1)%nat.
Proof.
  intros Hnd Hp. induction l as [|x l IH]; cbn; [lia|].
  cbn in Hnd. apply List.NoDup_cons_iff in Hnd as [Hx Hnd].
  destruct (p x) eqn:Hpx; [|apply IH; exact Hnd].
  cbn. rewrite filter_none; [cbn; lia|].
  intros y Hy. destruct (p y) eqn:Hpy; [|reflexivity].
  exfalso. apply Hx. rewrite (Hp x Hpx), <- (Hp y Hpy). apply in_map. exact Hy.
Qed.

Lemma byPoly_flip {host : Host} (a b : Asset) :
  sorts_after (compareAssets key_polyCount desc) a b
  = sorts_after (compareAssets key_polyCount asc) b a.
Proof. reflexivity. Qed.

Lemma byPoly_ties {host : Host} (dir : SortDir) (a b : Asset) :
  ties (compareAssets key_polyCount dir) a b = (polyCount a =? polyCount b).
Proof.
  unfold ties, sorts_after, compareAssets, byPoly.
  destruct dir;
    destruct (Z.ltb_spec 0 (polyCount a - polyCount b)),
             (Z.ltb_spec 0 (polyCount b - polyCount a)),
             (Z.eqb_spec (polyCount a) (polyCount b)); cbn; try reflexivity; lia.
Qed.

(** X12. Sorting by [polyCount]: [list] is a rearrangement
    of [filtered] in which the counts never decrease (ascending) or never
    increase (descending); and when the counts of the assets are pairwise
    distinct, the descending list is the ascending one reversed. *)
Theorem sort_by_polyCount {host : Host} {laws : HostLaws host}
  (assets : list Asset) (query : string) (dir : SortDir) :
  let r := useAssetFilterSort assets query key_polyCount dir in
  Permutation (sorted_list r) (filtered r)
  /\ StronglySorted
       (fun a b => match dir with
                   | asc => polyCount a <= polyCount b
                   | desc => polyCount b <= polyCount a
                   end) (sorted_list r)
  /\ (List.NoDup (map polyCount assets) ->
      sorted_list (useAssetFilterSort assets query key_polyCount desc)
      = rev (sorted_list (useAssetFilterSort assets query key_polyCount asc))).
Proof.
  intros r. unfold r. clear r. unfold useAssetFilterSort.
  cbn [filtered sorted_list].
  set (f := if is_empty (toLowerCase (trim query)) then assets
            else List.filter (matches_query (toLowerCase (trim query))) assets).
  rewrite !Array_sort_stable_sort by apply byPoly_consistent.
  assert (Hpre : forall d, preorder_on (compareAssets key_polyCount d) f)
    by (intros d; apply consistent_preorder, byPoly_consistent).
  split; [apply stable_sort_Permutation|]. split.
  - eapply StronglySorted_weaken;
      [|apply stable_sort_in_order; apply Hpre].
    intros a b _ _. unfold sorts_after, compareAssets, byPoly.
    destruct dir; intros Hab; apply Z.ltb_ge in Hab; lia.
  - intros Hnd.
    assert (Hndf : List.NoDup (map polyCount f)).
    { unfold f. destruct (is_empty _); [exact Hnd|].
      apply NoDup_map_filter. exact Hnd. }
    symmetry. apply stable_sort_conforming; [apply Hpre|].
    destruct (stable_sort_sort_result (compareAssets key_polyCount asc) f
                (Hpre asc)) as [Hperm Hord Hst].
    split.
    + etransitivity; [symmetry; apply Permutation_rev|exact Hperm].
    + apply StronglySorted_rev in Hord.
      eapply StronglySorted_weaken; [|exact Hord].
      intros a b _ _ Hab. rewrite byPoly_flip. exact Hab.
    + intros x Hx.
      assert (Hext : forall l : list Asset,
                 List.filter (ties (compareAssets key_polyCount desc) x) l
                 = List.filter (ties (compareAssets key_polyCount asc) x) l).
      { intros l. apply List.filter_ext. intros y. rewrite !byPoly_ties. reflexivity. }
      rewrite !Hext, List.filter_rev, (Hst x Hx).
      apply rev_short.
      apply (filter_key_unique polyCount _ (polyCount x)); [exact Hndf|].
      intros y Hy. rewrite byPoly_ties in Hy. apply Z.eqb_eq in Hy. lia.
Qed.

Lemma sort_by_polyCount_witness :
  sorted_list (@useAssetFilterSort example_host INITIAL_ASSETS "" key_polyCount desc)
  = rev (sorted_list (@useAssetFilterSort example_host INITIAL_ASSETS ""
                        key_polyCount asc)).
Proof.
  refine (proj2 (proj2 (@sort_by_polyCount example_host example_host_laws
                          INITIAL_ASSETS "" desc)) _).
  cbn. repeat (apply List.NoDup_cons; [cbn; intuition discriminate|]).
  apply List.NoDup_nil.
Defined.

(** ** The views: selection, cards and viewer *)

Lemma find_split {A : Type} (p : A -> bool) (l : list A) (x : A) :
  List.find p l = Some x ->
  exists l1 l2, l = (l1 ++ x :: l2)%list /\ p x = true
                /\ forall y, In y l1 -> p y = false.
Proof.
  induction l as [|y l IH]; cbn; [discriminate|].
  destruct (p y) eqn:Hy.
  - intros [= ->]. exists [], l. repeat split; auto. intros ? [].
  - intros H. destruct (IH H) as (l1 & l2 & -> & Hx & Hl1).
    exists (y :: l1), l2. repeat split; auto. intros z [<-|Hz]; auto.
Qed.

Lemma find_app_first {A : Type} (p : A -> bool) (l1 l2 : list A) (x : A) :
  (forall y, In y l1 -> p y = false) -> p x = true ->
  List.find p (l1 ++ x :: l2) = Some x.
Proof.
  intros Hl1 Hx. induction l1 as [|y l1 IH]; cbn.
  - rewrite Hx. reflexivity.
  - rewrite (Hl1 y (or_introl eq_refl)). apply IH.
    intros z Hz. apply Hl1. right. exact Hz.
Qed.

Lemma find_absent {A : Type} (p : A -> bool) (l : list A) :
  (forall y, In y l -> p y = false) -> List.find p l = None.
Proof.
  induction l as [|y l IH]; intros H; cbn; [reflexivity|].
  rewrite (H y (or_introl eq_refl)). apply IH. intros z Hz. apply H. right. exact Hz.
Qed.

Lemma find_unique (sel : option string) (l : list Asset) (a : Asset) :
  List.NoDup (map id l) -> In a l -> Some (id a) = sel ->
  List.find (fun b => bool_decide (Some (id b) = sel)) l = Some a.
Proof.
  intros Hnd Ha Hsel. induction l as [|x l IH]; [destruct Ha|].
  cbn in Hnd. apply List.NoDup_cons_iff in Hnd as [Hx Hnd]. cbn [List.find].
  destruct Ha as [->|Ha].
  - rewrite bool_decide_eq_true_2 by exact Hsel. reflexivity.
  - destruct (bool_decide (Some (id x) = sel)) eqn:Hpx.
    + apply bool_decide_eq_true in Hpx. exfalso. apply Hx.
      assert (id x = id a) as -> by congruence. apply in_map. exact Ha.
    + apply IH; assumption.
Qed.

(** X13. In the single-file application the
    asset shown as selected and the asset [compress_selected] works on are the
    same, provided the selected id is not the empty string: if no asset is
    shown, the transition hands back the state it was given; if [a] is shown,
    it is the first asset with the selected id, the transition replaces it by
    its compression, and the result is what is shown next.  With the empty
    string as selected id the two part: the transition does nothing, since
    [!state.selectedId] holds, yet an asset whose id is the empty string is
    found and shown. *)
Theorem Monolith_selected_compressed (s : State) (lod : LOD) :
  (st_selectedId s <> Some "" ->
   match Monolith.selected s with
   | None => reducer s (compress_selected lod) = same_object
   | Some a =>
       exists l1 l2,
         st_assets s = (l1 ++ a :: l2)%list
         /\ (forall b, In b l1 -> id b <> id a)
         /\ reducer s (compress_selected lod)
            = new_object
                {| st_assets := (l1 ++ simulateCompression a lod :: l2)%list;
                   st_selectedId := st_selectedId s;
                   st_filter := st_filter s;
                   st_lod := st_lod s |}
         /\ Monolith.selected (dispatch s (compress_selected lod))
            = Some (simulateCompression a lod)
   end)
  /\ (st_selectedId s = Some "" ->
      reducer s (compress_selected lod) = same_object
      /\ forall a, In a (st_assets s) -> id a = "" ->
                   exists b, Monolith.selected s = Some b /\ id b = "").
Proof.
  split.
  - intros Hne. unfold Monolith.selected.
    destruct (List.find _ (st_assets s)) as [a|] eqn:Hfind.
    + destruct (find_split _ _ _ Hfind) as (l1 & l2 & Hl & Ha & Hl1).
      apply bool_decide_eq_true in Ha.
      assert (Hid : id a <> "") by (intros E; apply Hne; rewrite <- Ha, E; reflexivity).
      assert (Hl1' : forall b, In b l1 -> id b <> id a).
      { intros b Hb E. specialize (Hl1 b Hb). apply bool_decide_eq_false in Hl1.
        apply Hl1. rewrite E. exact Ha. }
      exists l1, l2. split; [exact Hl|]. split; [exact Hl1'|].
      pose proof (reducer_compress_split s lod l1 l2 a Hl (eq_sym Ha) Hid Hl1') as Hr.
      split; [exact Hr|].
      unfold dispatch. rewrite Hr. cbn [st_assets st_selectedId].
      apply find_app_first.
      * exact Hl1.
      * apply bool_decide_eq_true. exact Ha.
    + unfold reducer. destruct (falsy (st_selectedId s)); [reflexivity|].
      rewrite findIndex_None; [reflexivity|].
      intros x Hx. exact (find_none _ _ Hfind x Hx).
  - intros Hsel. split.
    + unfold reducer. rewrite Hsel. reflexivity.
    + intros a Ha Hid. unfold Monolith.selected.
      destruct (List.find _ (st_assets s)) as [b|] eqn:Hfind.
      * exists b. split; [reflexivity|].
        apply find_some in Hfind as [_ Hb]. apply bool_decide_eq_true in Hb.
        rewrite Hsel in Hb. congruence.
      * pose proof (find_none _ _ Hfind a Ha) as Hn. cbn in Hn.
        apply bool_decide_eq_false in Hn. exfalso. apply Hn.
        rewrite Hsel, Hid. reflexivity.
Qed.

Lemma items_In {host : Host} {laws : HostLaws host}
  (s : State) (a : Asset) :
  In a (App.items s) <-> In a (st_assets s) /\ spec_matches (st_filter s) a.
Proof.
  unfold App.items.
  destruct (useAssetFilterSort_filtered (st_assets s) (st_filter s) key_name asc)
    as [_ (keep & Hkeep & Hf)].
  unfold useAssetFilterSort in *. cbn [sorted_list filtered] in *.
  rewrite Array_sort_In, Hf, filter_In, Hkeep. reflexivity.
Qed.

Lemma items_NoDup {host : Host} {laws : HostLaws host}
  (s : State) :
  List.NoDup (map id (st_assets s)) -> List.NoDup (map id (App.items s)).
Proof.
  intros Hnd. unfold App.items.
  destruct (useAssetFilterSort_filtered (st_assets s) (st_filter s) key_name asc)
    as [_ (keep & Hkeep & Hf)].
  unfold useAssetFilterSort in *. cbn [sorted_list filtered] in *.
  eapply Permutation_NoDup.
  - apply Permutation_map. symmetry. apply Array_sort_rearranges.
  - rewrite Hf. apply NoDup_map_filter. exact Hnd.
Qed.

(** X14. [App] looks the selection up in the filtered
    and sorted list, the single-file application among all assets.  With
    pairwise distinct ids, [App] resolves the selection to an asset exactly
    when the single-file application resolves it to that asset and the asset
    matches the filter text: an asset the filter hides is not shown as
    selected. *)
Theorem App_selected_filtered {host : Host} {laws : HostLaws host}
  (s : State) (a : Asset) :
  List.NoDup (map id (st_assets s)) ->
  App.selected s = Some a
  <-> Monolith.selected s = Some a /\ spec_matches (st_filter s) a.
Proof.
  intros Hnd. unfold App.selected, Monolith.selected. split.
  - intros Hfind. apply find_some in Hfind as [Hin Hp].
    apply bool_decide_eq_true in Hp. apply items_In in Hin as [Hin Hm].
    split; [|exact Hm]. apply find_unique; assumption.
  - intros [Hfind Hm]. apply find_some in Hfind as [Hin Hp].
    apply bool_decide_eq_true in Hp.
    apply find_unique; [apply items_NoDup; exact Hnd| |exact Hp].
    apply items_In. split; assumption.
Qed.

Lemma INITIAL_ASSETS_ids : List.NoDup (map id INITIAL_ASSETS).
Proof.
  cbn. repeat (apply List.NoDup_cons; [cbn; intuition discriminate|]).
  apply List.NoDup_nil.
Defined.

Lemma App_selected_filtered_witness :
  @App.selected example_host (sample_state (Some "2")) = INITIAL_ASSETS !! 1%nat.
Proof.
  apply (proj2 (@App_selected_filtered example_host example_host_laws
                  (sample_state (Some "2")) _
                  INITIAL_ASSETS_ids)).
  split; [vm_compute; reflexivity|left; reflexivity].
Defined.

(** X15. The list [App] shows holds exactly the assets that
    match the filter text (empty after trimming, or contained in the name, a
    tag or the category, case ignored): never more entries than there are
    assets; the "No results" box appears exactly when no asset matches; and
    with a filter that trims to nothing the list is a rearrangement of all
    the assets. *)
Theorem App_items_exact {host : Host} {laws : HostLaws host}
  (s : State) :
  (forall a, In a (App.items s)
             <-> In a (st_assets s) /\ spec_matches (st_filter s) a)
  /\ (length (App.items s) <= length (st_assets s))%nat
  /\ (App.cards s = None
      <-> forall a, In a (st_assets s) -> ~ spec_matches (st_filter s) a)
  /\ (trim (st_filter s) = "" -> Permutation (App.items s) (st_assets s)).
Proof.
  split; [apply items_In|]. split; [|split].
  - unfold App.items, useAssetFilterSort. cbn [sorted_list].
    rewrite (Permutation_length (Array_sort_rearranges _ _ _)).
    destruct (is_empty _); [lia|]. apply List.filter_length_le.
  - unfold App.cards, AssetList. split.
    + destruct (App.items s) as [|x l] eqn:E; [|discriminate].
      intros _ a Ha Hm.
      assert (Hin : In a (App.items s)) by (apply items_In; split; assumption).
      rewrite E in Hin. destruct Hin.
    + intros Hnone. destruct (App.items s) as [|x l] eqn:E; [reflexivity|].
      exfalso.
      assert (Hin : In x (App.items s)) by (rewrite E; left; reflexivity).
      apply items_In in Hin as [Hin Hm]. exact (Hnone x Hin Hm).
  - intros Hq. unfold App.items, useAssetFilterSort. cbn [sorted_list].
    rewrite Hq, (proj2 (toLowerCase_empty "") eq_refl).
    apply Array_sort_rearranges.
Qed.

Lemma App_items_exact_witness :
  (length (@App.items example_host (sample_state None))
   <= length (st_assets (sample_state None)))%nat.
Proof.
  exact (proj1 (proj2 (@App_items_exact example_host example_host_laws
                         (sample_state None)))).
Defined.

Lemma head_filter_find {A : Type} (p : A -> bool) (l : list A) :
  head (List.filter p l) = List.find p l.
Proof.
  induction l as [|x l IH]; cbn; [reflexivity|].
  destruct (p x); [reflexivity|exact IH].
Qed.

Lemma filter_unique (sel : option string) (l : list Asset) :
  List.NoDup (map id l) ->
  (length (List.filter (fun b => bool_decide (Some (id b) = sel)) l) <= 1)%nat.
Proof.
  induction l as [|x l IH]; intros Hnd; cbn; [lia|].
  cbn in Hnd. apply List.NoDup_cons_iff in Hnd as [Hx Hnd].
  destruct (bool_decide (Some (id x) = sel)) eqn:Hpx; [|apply IH; exact Hnd].
  apply bool_decide_eq_true in Hpx. cbn.
  rewrite filter_none; [cbn; lia|].
  intros y Hy. apply bool_decide_eq_false. intros Hsel. apply Hx.
  assert (id x = id y) as -> by congruence. apply in_map. exact Hy.
Qed.

(** X16. When [AssetList] renders the "No results" box
    the list is empty and no selection is resolved.  Otherwise it renders one
    card per listed asset, in order; the first card marked [selected], if
    any, is the asset [App] has resolved as the selection; and with pairwise
    distinct ids at most one card is marked. *)
Theorem App_cards_selected {host : Host} {laws : HostLaws host}
  (s : State) :
  match App.cards s with
  | None => App.items s = [] /\ App.selected s = None
  | Some cs =>
      map card_asset cs = App.items s
      /\ card_asset <$> head (List.filter card_selected cs) = App.selected s
      /\ (List.NoDup (map id (st_assets s)) ->
          (length (List.filter card_selected cs) <= 1)%nat)
  end.
Proof.
  unfold App.cards, App.selected, AssetList.
  set (p := fun a => bool_decide (Some (id a) = st_selectedId s)).
  assert (Hmap : forall l : list Asset,
             map card_asset
               (map (fun a => {| card_asset := a; card_selected := p a |}) l) = l).
  { intros l. rewrite map_map. cbn. apply map_id. }
  assert (Hfil : forall l : list Asset,
             List.filter card_selected
               (map (fun a => {| card_asset := a; card_selected := p a |}) l)
             = map (fun a => {| card_asset := a; card_selected := p a |})
                 (List.filter p l)).
  { induction l as [|x l IH]; cbn; [reflexivity|].
    destruct (p x) eqn:Hpx; cbn; rewrite IH, ?Hpx; reflexivity. }
  destruct (App.items s) as [|x l] eqn:Hitems; [split; reflexivity|].
  split; [apply Hmap|]. rewrite Hfil. split.
  - rewrite <- head_filter_find.
    destruct (List.filter p (x :: l)); reflexivity.
  - intros Hnd. rewrite length_map. rewrite <- Hitems.
    apply filter_unique. apply items_NoDup. exact Hnd.
Qed.

Lemma App_cards_selected_witness :
  match @App.cards example_host (sample_state (Some "2")) with
  | None =>
      @App.items example_host (sample_state (Some "2")) = []
      /\ @App.selected example_host (sample_state (Some "2")) = None
  | Some cs =>
      map card_asset cs = @App.items example_host (sample_state (Some "2"))
      /\ card_asset <$> head (List.filter card_selected cs)
         = @App.selected example_host (sample_state (Some "2"))
      /\ (List.NoDup (map id (st_assets (sample_state (Some "2")))) ->
          (length (List.filter card_selected cs) <= 1)%nat)
  end.
Proof.
  exact (@App_cards_selected example_host example_host_laws
           (sample_state (Some "2"))).
Defined.

Lemma filter_Forall2 {A : Type} (R : A -> A -> Prop) (p : A -> bool)
  (l l' : list A) :
  (forall a b, R a b -> p a = p b) ->
  Forall2 R l l' -> Forall2 R (List.filter p l) (List.filter p l').
Proof.
  intros Hp H. induction H as [|a b l l' Hab _ IH]; cbn; [constructor|].
  rewrite <- (Hp a b Hab). destruct (p a); [constructor|]; assumption.
Qed.

Lemma sort_insert_Forall2 {A : Type} (R : A -> A -> Prop)
  (compareFn : A -> A -> option Z) (x x' : A) (l l' : list A) :
  (forall a a' b b', R a a' -> R b b' -> compareFn a b = compareFn a' b') ->
  R x x' -> Forall2 R l l' ->
  Forall2 R (sort_insert compareFn x l) (sort_insert compareFn x' l').
Proof.
  intros Hc Hx H. induction H as [|a b l l' Hab Hl IH]; cbn.
  - constructor; [exact Hx|constructor].
  - unfold sorts_after. rewrite <- (Hc x x' a b Hx Hab).
    destruct (compareFn x a) as [v|]; [destruct (0 <? v)|];
      repeat (constructor; try assumption).
Qed.

Lemma stable_sort_Forall2 {A : Type} (R : A -> A -> Prop)
  (compareFn : A -> A -> option Z) (l l' : list A) :
  (forall a a' b b', R a a' -> R b b' -> compareFn a b = compareFn a' b') ->
  Forall2 R l l' ->
  Forall2 R (stable_sort compareFn l) (stable_sort compareFn l').
Proof.
  intros Hc H. induction H as [|a b l l' Hab _ IH]; cbn; [constructor|].
  apply sort_insert_Forall2; assumption.
Qed.

Lemma find_Forall2 {A : Type} (R : A -> A -> Prop) (p : A -> bool)
  (l l' : list A) :
  (forall a b, R a b -> p a = p b) ->
  Forall2 R l l' -> option_Forall2 R (List.find p l) (List.find p l').
Proof.
  intros Hp H. induction H as [|a b l l' Hab _ IH]; cbn; [constructor|].
  rewrite <- (Hp a b Hab). destruct (p a); [constructor|]; assumption.
Qed.

Lemma same_view_items {host : Host} {laws : HostLaws host}
  (s1 s2 : State) :
  same_view s1 s2 -> Forall2 same_but_counts (App.items s1) (App.items s2).
Proof.
  intros (Ha & _ & Hf & _). unfold App.items, useAssetFilterSort.
  cbn [sorted_list]. rewrite <- Hf.
  rewrite !Array_sort_stable_sort by apply byName_consistent.
  apply stable_sort_Forall2.
  - intros a a' b b' (_ & Hn & _) (_ & Hn' & _).
    unfold compareAssets, byName. rewrite Hn, Hn'. reflexivity.
  - destruct (is_empty _); [exact Ha|].
    apply filter_Forall2; [|exact Ha].
    intros a b (_ & Hn & Ht & _ & _ & _ & Hc & _). unfold matches_query.
    rewrite Hn, Ht, Hc. reflexivity.
Qed.

Lemma same_view_viewer {host : Host} {laws : HostLaws host}
  (s1 s2 : State) :
  same_view s1 s2 -> App.viewer s1 = App.viewer s2.
Proof.
  intros Hv. pose proof (same_view_items s1 s2 Hv) as Hi.
  destruct Hv as (_ & Hs & _ & Hl). unfold App.viewer, App.selected.
  rewrite <- Hs, <- Hl.
  pose proof (find_Forall2 same_but_counts
                (fun a => bool_decide (Some (id a) = st_selectedId s1)) _ _
                ltac:(intros a b (Hid & _); rewrite Hid; reflexivity) Hi) as Hf.
  destruct Hf as [a b (_ & _ & _ & _ & Hsh & Hco & _ & Hg)|]; [|reflexivity].
  unfold Viewer. rewrite Hsh, Hco, Hg. reflexivity.
Qed.

Lemma same_view_trans (s1 s2 s3 : State) :
  same_view s1 s2 -> same_view s2 s3 -> same_view s1 s3.
Proof.
  intros (A1 & B1 & C1 & D1) (A2 & B2 & C2 & D2).
  split; [|repeat split; congruence].
  eapply (Forall2_chain _ same_but_counts_trans); eassumption.
Qed.

Lemma dispatch_same_view (s1 s2 : State) (act : Action) :
  same_view s1 s2 ->
  same_view (dispatch s1 act) (if is_compress act then s2 else dispatch s2 act).
Proof.
  intros Hv. destruct act as [i|q|l|l]; cbn [is_compress].
  - destruct Hv as (A & B & C & D). repeat split; assumption.
  - destruct Hv as (A & B & C & D). repeat split; assumption.
  - destruct Hv as (A & B & C & D). repeat split; assumption.
  - refine (same_view_trans _ s1 _ _ Hv).
    pose proof (dispatch_compressed_from s1 (compress_selected l)) as Hc.
    split.
    + apply Forall2_flip.
      eapply Forall2_impl; [exact Hc|].
      intros a b [(?&?&?&?&?&?&?&?) _]. repeat split; congruence.
    + unfold dispatch, reducer.
      destruct (falsy (st_selectedId s1)); [auto|].
      destruct (findIndex _ (st_assets s1)) as [idx|]; [|auto].
      destruct (st_assets s1 !! idx); auto.
Qed.

Lemma replay_same_view (actions : list Action) :
  forall s1 s2,
    same_view s1 s2 ->
    same_view (replay actions s1)
      (replay (List.filter (fun a => negb (is_compress a)) actions) s2).
Proof.
  induction actions as [|act actions IH]; intros s1 s2 Hv; [exact Hv|].
  rewrite replay_cons. cbn [List.filter].
  pose proof (dispatch_same_view s1 s2 act Hv) as Hd.
  destruct (is_compress act); cbn [negb].
  - apply IH. exact Hd.
  - rewrite replay_cons. apply IH. exact Hd.
Qed.

(** X17. Compressions never change what
    is drawn or listed, the numbers apart.  After any run of actions the
    listed assets are, entry by entry, those of the same run without its
    [compress_selected] actions, differing at most in [polyCount] and
    [sizeMB]; the viewer's content (mesh geometry, segment count, colour, or
    model reference) and the [selected] marks of the cards are the same. *)
Theorem compression_never_changes_the_view {host : Host} {laws : HostLaws host}
  (actions : list Action) (s : State) :
  let s' := replay actions s in
  let uncompressed :=
    replay (List.filter (fun a => negb (is_compress a)) actions) s in
  Forall2 same_but_counts (App.items s') (App.items uncompressed)
  /\ App.viewer s' = App.viewer uncompressed
  /\ map card_selected <$> App.cards s'
     = map card_selected <$> App.cards uncompressed.
Proof.
  intros s' uncompressed.
  assert (Hv : same_view s' uncompressed).
  { apply replay_same_view. split; [|auto].
    induction (st_assets s); constructor; auto using same_but_counts_refl. }
  pose proof (same_view_items _ _ Hv) as Hi.
  split; [exact Hi|]. split; [apply same_view_viewer; exact Hv|].
  unfold App.cards, AssetList. destruct Hv as (_ & Hs & _ & _). rewrite <- Hs.
  destruct Hi as [|a b l l' Hab Hl]; [reflexivity|].
  cbn [fmap option_fmap option_map]. f_equal.
  rewrite !map_map. cbn [card_selected].
  assert (Hall : Forall2 same_but_counts (a :: l) (b :: l')) by (constructor; assumption).
  clear Hab Hl. induction Hall as [|x y k k' (Hid & _) _ IH]; cbn; [reflexivity|].
  rewrite Hid, IH. reflexivity.
Qed.

Lemma compression_never_changes_the_view_witness :
  @App.viewer example_host
    (replay [compress_selected LOW; select "2"; compress_selected MED]
       (sample_state (Some "1")))
  = @App.viewer example_host (replay [select "2"] (sample_state (Some "1"))).
Proof.
  exact (proj1 (proj2 (@compression_never_changes_the_view example_host
                         example_host_laws
                         [compress_selected LOW; select "2"; compress_selected MED]
                         (sample_state (Some "1"))))).
Defined.

Lemma AssetMesh_level (l1 l2 : LOD) (sh : Shape) (c : option string) :
  AssetMesh l1 sh c = AssetMesh l2 sh c -> l1 = l2.
Proof. destruct l1, l2, sh; cbn; intros H; try reflexivity; discriminate. Qed.

Lemma asset_mesh_inj (m1 m2 : MeshElement) :
  asset_mesh m1 = asset_mesh m2 -> m1 = m2.
Proof. intros H. injection H as H. exact H. Qed.

(** X18. What [Viewer] puts on the canvas depends
    on the level exactly for procedural meshes: two levels give the same
    content if and only if they are equal, or there is no asset, or the asset
    has a non-empty model URL (an empty URL is falsy and falls back to the
    mesh).  Nothing is drawn exactly when there is no asset.  And the
    [AssetMesh] of the single-file application differs from the component's
    on the box only, to which it passes the segment count three times. *)
Theorem Viewer_depends_on_level (l1 l2 : LOD) (asset : option Asset) :
  (Viewer l1 asset = Viewer l2 asset
   <-> l1 = l2 \/ asset = None
       \/ exists a, asset = Some a /\ falsy (gltfUrl a) = false)
  /\ (Viewer l1 asset = no_child <-> asset = None)
  /\ (forall sh c, Monolith.AssetMesh l1 sh c = AssetMesh l1 sh c <-> sh <> box).
Proof.
  split; [|split].
  - destruct asset as [a|]; cbn [Viewer]; [|tauto].
    destruct (gltfUrl a) as [url|] eqn:Hu; cbn [falsy].
    + destruct url as [|ch url]; cbn [is_empty String.eqb].
      * split.
        -- intros H. left. exact (AssetMesh_level _ _ _ _ (asset_mesh_inj _ _ H)).
        -- intros [->|[H|(b & Hb & H)]]; [reflexivity|discriminate|].
           injection Hb as <-. rewrite Hu in H. discriminate.
      * split; [|reflexivity]. intros _. right. right. exists a.
        split; [reflexivity|]. rewrite Hu. reflexivity.
    + split.
      * intros H. left. exact (AssetMesh_level _ _ _ _ (asset_mesh_inj _ _ H)).
      * intros [->|[H|(b & Hb & H)]]; [reflexivity|discriminate|].
           injection Hb as <-. rewrite Hu in H. discriminate.
  - destruct asset as [a|]; cbn [Viewer]; [|tauto].
    split; [|discriminate].
    destruct (gltfUrl a) as [[|ch url]|]; discriminate.
  - intros sh c. destruct l1, sh; cbn; split; intros H; try reflexivity;
      try discriminate; try (exfalso; apply H; reflexivity).
Qed.

(** ** More on the compression job *)

Lemma NoDup_map_In_eq {A B : Type} (f : A -> B) (l : list A) (x y : A) :
  List.NoDup (map f l) -> In x l -> In y l -> f x = f y -> x = y.
Proof.
  induction l as [|z l IH]; intros Hnd Hx Hy Hf; [destruct Hx|].
  cbn in Hnd. apply List.NoDup_cons_iff in Hnd as [Hz Hnd].
  destruct Hx as [->|Hx], Hy as [->|Hy].
  - reflexivity.
  - exfalso. apply Hz. rewrite Hf. apply in_map. exact Hy.
  - exfalso. apply Hz. rewrite <- Hf. apply in_map. exact Hx.
  - apply IH; assumption.
Qed.

Lemma owned_same_timers (w w' : World) :
  timers w' = timers w -> owned w -> owned w'.
Proof. intros Ht Ho. unfold owned, pending in *. rewrite Ht. exact Ho. Qed.

Lemma owned_fire (t : Timer) (w : World) :
  well_formed w -> In t (timers w) -> owned w -> owned (fire t w).
Proof.
  intros Hwf Hin Ho. destruct t as [tid due|tid due next timer]; cbn [fire].
  - apply (owned_same_timers (reschedule tid w)); [reflexivity|].
    intros t Ht Hk. rewrite pending_reschedule.
    cbn [reschedule timers] in Ht. apply in_map_iff in Ht as (t0 & Heq & Ht0).
    assert (Hsame : timer_id t = timer_id t0 /\ is_timeout t = is_timeout t0).
    { subst t. destruct t0 as [i d|i d n r]; [|auto].
      destruct (i =? tid)%nat; auto. }
    destruct Hsame as [Hid Hkind]. rewrite Hid. apply Ho; [exact Ht0|congruence].
  - set (t := timeout_timer tid due next timer) in *.
    apply (owned_same_timers
             (clearInterval timer (applyLOD next (clearInterval tid w))));
      [reflexivity|].
    intros v Hv Hk. rewrite pending_clearInterval.
    change (pending (applyLOD next (clearInterval tid w)))
      with (pending (clearInterval tid w)).
    rewrite pending_clearInterval.
    cbn [clearInterval applyLOD dispatch_in timers] in Hv.
    apply filter_In in Hv as [Hv Hv1]. apply filter_In in Hv as [Hv Hv2].
    apply negb_true_iff, Nat.eqb_neq in Hv1, Hv2.
    destruct (Ho v Hv Hk) as (u & Hu & Hr). exists u. split; [|exact Hr].
    assert (Htp : In t (pending w)) by (apply filter_In; split; [exact Hin|reflexivity]).
    apply filter_In. split; [apply filter_In; split; [exact Hu|]|].
    + apply negb_true_iff, Nat.eqb_neq. intros Heq.
      assert (u = t).
      { apply (NoDup_map_In_eq timer_id (timers w));
          [exact (wf_ids w Hwf)|apply pending_In_timers; exact Hu|exact Hin|exact Heq]. }
      subst u. cbn in Hr. congruence.
    + apply negb_true_iff, Nat.eqb_neq. intros Heq.
      apply (wf_refs w Hwf t u Htp Hu). cbn. congruence.
Qed.

Lemma at_rest_fire (t : Timer) (w : World) :
  In t (timers w) -> at_rest (fire t w).
Proof.
  intros Hin. destruct t as [tid due|tid due next timer]; cbn [fire].
  - unfold at_rest. intros Hnil. exfalso.
    cbn [setProgress reschedule timers] in Hnil.
    apply map_eq_nil in Hnil. rewrite Hnil in Hin. destruct Hin.
  - unfold at_rest. intros _. reflexivity.
Qed.

Lemma fire_due_released (todo : list Timer) :
  forall w : World,
    well_formed w -> owned w -> at_rest w ->
    well_formed (fire_due todo w) /\ owned (fire_due todo w)
    /\ at_rest (fire_due todo w).
Proof.
  induction todo as [|t rest IH]; intros w Hwf Ho Hr; [cbn; auto|].
  cbn [fire_due]. unfold is_due.
  destruct (bool_decide (t ∈ timers w)) eqn:Hin; cbn [andb]; [|apply IH; assumption].
  apply bool_decide_eq_true in Hin. apply list_elem_of_In in Hin.
  destruct (timer_due t <=? now w); [|apply IH; assumption].
  apply IH.
  - apply well_formed_fire. exact Hwf.
  - apply owned_fire; assumption.
  - apply at_rest_fire. exact Hin.
Qed.

Lemma elapse_released (ms : nat) :
  forall w : World,
    well_formed w -> owned w -> at_rest w ->
    well_formed (elapse ms w) /\ owned (elapse ms w) /\ at_rest (elapse ms w).
Proof.
  induction ms as [|ms IH]; intros w Hwf Ho Hr; [cbn; auto|].
  cbn [elapse].
  set (w0 := {| now := now w + 1; timers := timers w;
                next_timer := next_timer w; progress := progress w;
                state := state w |}).
  destruct (fire_due_released (timers w0) w0) as (A & B & C).
  - apply (well_formed_same_timers w); cbn; auto; lia.
  - apply (owned_same_timers w); [reflexivity|exact Ho].
  - exact Hr.
  - apply IH; assumption.
Qed.

Lemma run_released (next : LOD) (w : World) :
  owned w -> owned (run next w) /\ at_rest (run next w).
Proof.
  intros Ho. split.
  - intros t Ht Hk. rewrite run_pending. rewrite run_timers in Ht.
    apply in_app_or in Ht as [Ht|[<-|[<-|[]]]].
    + destruct (Ho t Ht Hk) as (u & Hu & Hr). exists u.
      split; [apply in_or_app; left; exact Hu|exact Hr].
    + eexists. split; [apply in_or_app; right; left; reflexivity|reflexivity].
    + discriminate.
  - unfold at_rest. rewrite run_timers. intros Hnil.
    destruct (timers w); discriminate.
Qed.

Lemma idle_steady (s : State) : steady (idle s).
Proof.
  destruct (idle_well_formed s) as [Hwf Hset].
  split; [exact Hwf|exact Hset| |intros _; reflexivity].
  intros t [].
Qed.

Lemma happen_steady (e : Event) (w : World) : steady w -> steady (happen e w).
Proof.
  intros [Hwf Hset Ho Hr]. destruct e as [next|ms|a]; cbn [happen].
  - destruct (run_spec next w Hwf Hset) as (A & B & _).
    destruct (run_released next w Ho) as [C D]. split; assumption.
  - destruct (elapse_spec ms w Hwf Hset) as (A & B & _).
    destruct (elapse_released ms w Hwf Ho Hr) as (_ & C & D). split; assumption.
  - split.
    + apply (well_formed_same_timers w); cbn; auto; lia.
    + exact Hset.
    + apply (owned_same_timers w); [reflexivity|exact Ho].
    + exact Hr.
Qed.

Lemma run_script_steady (script : list Event) :
  forall w, steady w -> steady (run_script script w).
Proof.
  induction script as [|e script IH]; intros w Hw; [exact Hw|].
  cbn [run_script fold_left]. apply IH. apply happen_steady. exact Hw.
Qed.

Lemma steady_released (w w' : World) :
  steady w -> w' = elapse 1200 w ->
  timers w' = [] /\ progress w' = None
  /\ state w' = fold_left commit (pending w) (state w).
Proof.
  intros [Hwf Hset Ho Hr] Heq.
  destruct (elapse_spec 1200 w Hwf Hset) as (Hwf' & Hset' & Hn' & Hi' & Hp' & Hs').
  destruct (elapse_released 1200 w Hwf Ho Hr) as (_ & Ho' & Hr').
  rewrite <- Heq in *. clear Heq.
  assert (Hpend : pending w' = []).
  { rewrite Hp'. apply filter_none. intros t Ht.
    apply negb_false_iff, Z.leb_le. pose proof (wf_horizon w Hwf t Ht). lia. }
  assert (Htimers : timers w' = []).
  { destruct (timers w') as [|t l] eqn:E; [reflexivity|]. exfalso.
    assert (Hin : In t (timers w')) by (rewrite E; left; reflexivity).
    destruct (is_timeout t) eqn:Hk.
    - assert (Hp : In t (pending w')) by (apply filter_In; auto).
      rewrite Hpend in Hp. destruct Hp.
    - destruct (Ho' t Hin Hk) as (u & Hu & _). rewrite Hpend in Hu. destruct Hu. }
  split; [exact Htimers|]. split; [exact (Hr' Htimers)|].
  rewrite Hs'. f_equal. apply filter_all. intros t Ht. apply Z.leb_le.
  pose proof (wf_horizon w Hwf t Ht). lia.
Qed.

Lemma elapse_nothing_scheduled (ms : nat) :
  forall w : World,
    timers w = [] ->
    elapse ms w = {| now := now w + Z.of_nat ms; timers := [];
                     next_timer := next_timer w; progress := progress w;
                     state := state w |}.
Proof.
  induction ms as [|ms IH]; intros w Ht.
  - cbn [elapse]. destruct w as [n t i p s]. cbn in *. subst. f_equal. lia.
  - cbn [elapse]. unfold elapse_ms. rewrite Ht. cbn [timers fire_due].
    rewrite IH by reflexivity. cbn [now next_timer progress state]. f_equal. lia.
Qed.

(** X19. No timer outlives its job.  Whatever has happened
    (jobs started, time passed, user actions, in any order), once 1200 ms
    pass with no new job, nothing is scheduled any more, the progress is
    [null], every timeout that was pending has committed, oldest first, and
    from then on the passing of time changes nothing but the clock. *)
Theorem timers_released (script : list Event) (s : State) (ms : nat) :
  let w := run_script script (idle s) in
  let w' := run_script (script ++ [wait 1200]) (idle s) in
  timers w' = [] /\ progress w' = None
  /\ state w' = fold_left commit (pending w) (state w)
  /\ elapse ms w' = {| now := now w' + Z.of_nat ms; timers := [];
                       next_timer := next_timer w'; progress := None;
                       state := state w' |}.
Proof.
  intros w w'.
  assert (Heq : w' = elapse 1200 w).
  { unfold w'. rewrite run_script_app. cbn [run_script fold_left happen].
    reflexivity. }
  destruct (steady_released w w' (run_script_steady script (idle s) (idle_steady s))
              Heq) as (Ht & Hp & Hs).
  split; [exact Ht|]. split; [exact Hp|]. split; [exact Hs|].
  rewrite (elapse_nothing_scheduled ms w' Ht), Hp. reflexivity.
Qed.

Lemma omap_job_of (l : list Timer) :
  omap job_of l
  = map (fun t => (timer_due t, match t with
                                | timeout_timer _ _ next _ => next
                                | interval_timer _ _ => HIGH
                                end)) (List.filter is_timeout l).
Proof.
  induction l as [|t l IH]; [reflexivity|].
  destruct t; cbn; rewrite IH; reflexivity.
Qed.

Lemma map_filter_comm {A B : Type} (f : A -> B) (p : B -> bool) (l : list A) :
  List.filter p (map f l) = map f (List.filter (fun x => p (f x)) l).
Proof.
  induction l as [|x l IH]; [reflexivity|].
  cbn. destruct (p (f x)); cbn; rewrite IH; reflexivity.
Qed.

Lemma fold_commit_jobs (l : list Timer) (s : State) :
  (forall t, In t l -> is_timeout t = true) ->
  fold_left commit l s
  = fold_left commit_level
      (map snd (map (fun t => (timer_due t, match t with
                                            | timeout_timer _ _ next _ => next
                                            | interval_timer _ _ => HIGH
                                            end)) l)) s.
Proof.
  revert s. induction l as [|t l IH]; intros s Hl; [reflexivity|].
  cbn [fold_left map snd].
  rewrite IH by (intros u Hu; apply Hl; right; exact Hu).
  specialize (Hl t (or_introl eq_refl)). destruct t; [discriminate|reflexivity].
Qed.

Lemma queue_of_happen (e : Event) (w : World) :
  well_formed w -> settled w ->
  queue_of (happen e w) = queue_happen (queue_of w) e.
Proof.
  intros Hwf Hset. destruct e as [next|ms|a]; cbn [happen queue_happen].
  - unfold queue_of. cbn [q_now q_jobs q_state].
    rewrite run_timers. rewrite omap_app. reflexivity.
  - destruct (elapse_spec ms w Hwf Hset) as (_ & _ & Hn & _ & Hp & Hs).
    unfold queue_of. cbn [q_now q_jobs q_state].
    rewrite !omap_job_of. fold (pending (elapse ms w)). fold (pending w).
    rewrite Hn, Hp, Hs. f_equal.
    + rewrite map_filter_comm. reflexivity.
    + rewrite map_filter_comm. cbn [fst].
      apply fold_commit_jobs. intros t Ht. apply filter_In in Ht as [Ht _].
      unfold pending in Ht. apply filter_In in Ht. tauto.
  - reflexivity.
Qed.

(** X20. Seen from the reducer state, the timers
    of the hook are a first-in first-out queue of delayed commits: after any
    script of events the clock, the pending timeouts (due time and level, in
    order) and the reducer state are those of the queue that appends a commit
    due 1200 ms later when a job starts, applies and removes the commits that
    have come due when time passes, and hands a user's action to the reducer
    at once.  The progress ticks never reach the state, and nothing is ever
    removed from the queue but by coming due. *)
Theorem timers_are_a_commit_queue (script : list Event) (s : State) :
  queue_of (run_script script (idle s))
  = fold_left queue_happen script {| q_now := 0; q_jobs := []; q_state := s |}.
Proof.
  change {| q_now := 0; q_jobs := []; q_state := s |} with (queue_of (idle s)).
  pose proof (idle_steady s) as Hs. revert Hs. generalize (idle s).
  induction script as [|e script IH]; intros w Hw; [reflexivity|].
  cbn [run_script fold_left].
  change (fold_left (fun w e => happen e w) script (happen e w))
    with (run_script script (happen e w)).
  rewrite (IH _ (happen_steady e w Hw)).
  rewrite (queue_of_happen e w (steady_well_formed w Hw) (steady_settled w Hw)).
  reflexivity.
Qed.

(** X21. However many jobs are started and
    whatever the pauses between them, 1200 ms after the last start every job
    has committed its [set_lod] and [compress_selected], in the order in which
    the jobs were started. *)
Theorem jobs_commit_in_start_order (js : list (LOD * nat)) (s : State) :
  state (run_script (job_script js ++ [wait 1200]) (idle s))
  = fold_left commit_level (map fst js) s.
Proof.
  rewrite run_script_app. cbn [run_script fold_left happen].
  destruct (idle_well_formed s) as [Hwf Hset].
  exact (every_job_commits js (idle s) Hwf Hset).
Qed.

Lemma run_script_users (us : list Action) (w : World) :
  run_script (map user us) w
  = {| now := now w; timers := timers w; next_timer := next_timer w;
       progress := progress w; state := replay us (state w) |}.
Proof.
  revert w. induction us as [|a us IH]; intros w.
  - destruct w; reflexivity.
  - cbn [map run_script fold_left happen].
    change (fold_left (fun w e => happen e w) (map user us) (dispatch_in a w))
      with (run_script (map user us) (dispatch_in a w)).
    rewrite IH. reflexivity.
Qed.

(** X22. The commit of a job acts on the state
    it finds when it fires.  User actions dispatched while a job runs take
    effect at once, the job's timeout staying pending; 1200 ms after the
    start, the job's [set_lod] and [compress_selected] are applied to the
    state those actions have produced, so a selection made meanwhile is the
    one that is compressed. *)
Theorem job_commits_on_current_state (s : State) (next : LOD) (gap : nat)
  (us : list Action) :
  (gap < 1200)%nat ->
  let w := run_script ([start_job next; wait gap] ++ map user us) (idle s) in
  state w = replay us s
  /\ pending w = [timeout_timer 1 1200 next 0]
  /\ state (elapse (1200 - gap) w) = commit_level (replay us s) next.
Proof.
  intros Hgap w.
  assert (Hw : steady w) by (apply run_script_steady, idle_steady).
  assert (Hq : queue_of w
               = {| q_now := Z.of_nat gap; q_jobs := [(1200, next)];
                    q_state := replay us s |}).
  { unfold w. rewrite run_script_app, run_script_users.
    cbn [run_script fold_left happen].
    destruct (idle_well_formed s) as [Hwf0 Hset0].
    destruct (run_spec next (idle s) Hwf0 Hset0) as (Hwf1 & Hset1 & _).
    destruct (elapse_spec gap (run next (idle s)) Hwf1 Hset1)
      as (_ & _ & Hn & _ & Hp & Hs).
    unfold queue_of. cbn [now timers state q_now q_jobs q_state].
    rewrite omap_job_of. fold (pending (elapse gap (run next (idle s)))).
    rewrite Hn, Hp, Hs.
    change (pending (run next (idle s))) with [timeout_timer 1 1200 next 0].
    change (now (run next (idle s))) with 0.
    change (state (run next (idle s))) with s.
    cbn [List.filter timer_due].
    destruct (Z.leb_spec 1200 (0 + Z.of_nat gap)); [lia|].
    cbn [negb map fold_left]. f_equal; lia. }
  assert (Hstate : state w = replay us s) by (change (q_state (queue_of w) = replay us s); rewrite Hq; reflexivity).
  assert (Hnow : now w = Z.of_nat gap) by (change (q_now (queue_of w) = Z.of_nat gap); rewrite Hq; reflexivity).
  assert (Hpend : pending w = [timeout_timer 1 1200 next 0]).
  { unfold w. rewrite run_script_app, run_script_users.
    cbn [run_script fold_left happen]. unfold pending at 1. cbn [timers].
    fold (pending (elapse gap (run next (idle s)))).
    destruct (idle_well_formed s) as [Hwf0 Hset0].
    destruct (run_spec next (idle s) Hwf0 Hset0) as (Hwf1 & Hset1 & _).
    destruct (elapse_spec gap (run next (idle s)) Hwf1 Hset1)
      as (_ & _ & _ & _ & Hp & _).
    rewrite Hp.
    change (pending (run next (idle s))) with [timeout_timer 1 1200 next 0].
    change (now (run next (idle s))) with 0.
    cbn [List.filter timer_due].
    destruct (Z.leb_spec 1200 (0 + Z.of_nat gap)); [lia|]. reflexivity. }
  split; [exact Hstate|]. split; [exact Hpend|].
  destruct (elapse_spec (1200 - gap) w (steady_well_formed w Hw)
              (steady_settled w Hw)) as (_ & _ & _ & _ & _ & Hs).
  rewrite Hs, Hpend, Hnow, Hstate. cbn [List.filter timer_due].
  destruct (Z.leb_spec 1200 (Z.of_nat gap + Z.of_nat (1200 - gap))); [|lia].
  reflexivity.
Qed.

Lemma job_commits_on_current_state_witness :
  state (elapse (1200 - 600)
           (run_script ([start_job HIGH; wait 600] ++ map user [select "2"])
              (idle (sample_state (Some "1")))))
  = commit_level (replay [select "2"] (sample_state (Some "1"))) HIGH.
Proof.
  refine (proj2 (proj2 (job_commits_on_current_state (sample_state (Some "1"))
                          HIGH 600 [select "2"] _))).
  lia.
Defined.

Lemma is_due_scheduled (t : Timer) (w : World) :
  In t (timers w) -> is_due t w = (timer_due t <=? now w).
Proof.
  intros Hin. unfold is_due.
  rewrite bool_decide_eq_true_2 by (apply list_elem_of_In; exact Hin).
  reflexivity.
Qed.

Lemma run_single_job (s : State) (next : LOD) :
  run next (idle s) = single_job s next 0.
Proof. reflexivity. Qed.

Lemma elapse_ms_single_job (s : State) (next : LOD) (t : Z) :
  0 <= t -> t + 1 < 1200 ->
  elapse_ms (single_job s next t) = single_job s next (t + 1).
Proof.
  intros Ht0 Ht. unfold elapse_ms, single_job.
  cbn [now timers next_timer progress state fire_due].
  pose proof (Z.div_mod t 120 ltac:(lia)) as Hd.
  pose proof (Z.mod_pos_bound t 120 ltac:(lia)) as Hm.
  pose proof (Z.div_mod (t + 1) 120 ltac:(lia)) as Hd'.
  pose proof (Z.mod_pos_bound (t + 1) 120 ltac:(lia)) as Hm'.
  set (q := t / 120) in *. set (q' := (t + 1) / 120) in *.
  set (r := t mod 120) in *. set (r' := (t + 1) mod 120) in *.
  clearbody q q' r r'.
  rewrite (is_due_scheduled (interval_timer 0 _))
    by (cbn [timers In]; left; reflexivity).
  cbn [timer_due now].
  destruct (Z.leb_spec (120 * q + 120) (t + 1)) as [Hdue|Hdue].
  - unfold fire, reschedule, setProgress, tick.
    cbn [timers map now next_timer progress state Nat.eqb default].
    rewrite is_due_scheduled by (cbn [timers In]; right; left; reflexivity).
    cbn [timer_due now].
    destruct (Z.leb_spec 1200 (t + 1)); [lia|].
    assert (q' = q + 1) by lia. subst q'. unfold Datatypes.id. f_equal.
    + f_equal. f_equal. lia.
    + f_equal. lia.
  - rewrite is_due_scheduled by (cbn [timers In]; right; left; reflexivity).
    cbn [timer_due now].
    destruct (Z.leb_spec 1200 (t + 1)); [lia|].
    assert (q' = q) by lia. subst q'. reflexivity.
Qed.

Lemma elapse_single_job (k : nat) :
  forall (s : State) (next : LOD) (t : Z),
    0 <= t -> t + Z.of_nat k < 1200 ->
    elapse k (single_job s next t) = single_job s next (t + Z.of_nat k).
Proof.
  induction k as [|k IH]; intros s next t Ht0 Ht.
  - cbn [elapse]. f_equal. lia.
  - cbn [elapse]. rewrite elapse_ms_single_job by lia.
    rewrite IH by lia. f_equal. lia.
Qed.

Lemma elapse_ms_single_job_done (s : State) (next : LOD) :
  elapse_ms (single_job s next 1199)
  = {| now := 1200; timers := []; next_timer := 2; progress := None;
       state := commit_level s next |}.
Proof.
  unfold elapse_ms, single_job. cbn [now timers next_timer progress state].
  cbn [fire_due].
  rewrite (is_due_scheduled (interval_timer 0 _)) by (cbn [timers In]; left; reflexivity).
  cbn [timer_due now].
  change (120 * (1199 / 120) + 120 <=? 1199 + 1) with true. cbv iota.
  unfold fire at 2. unfold reschedule, setProgress.
  cbn [timers map now next_timer progress state Nat.eqb].
  rewrite is_due_scheduled by (cbn [timers In]; right; left; reflexivity).
  cbn [timer_due now].
  change (1200 <=? 1199 + 1) with true. cbv iota.
  reflexivity.
Qed.

Lemma elapse_add (a b : nat) (w : World) :
  elapse (a + b) w = elapse b (elapse a w).
Proof.
  revert w. induction a as [|a IH]; intros w; [reflexivity|].
  cbn [Nat.add elapse]. apply IH.
Qed.

(** X23. One job, started from rest.  Before 1200 ms
    have passed, the progress is 12 per full 120 ms elapsed, capped at 100
    (which it reaches at 1080 ms), the reducer state is untouched (the level
    shown is still the old one) and the interval and the timeout are both
    scheduled; from 1200 ms on the progress is [null], the state is the one
    with the level applied, and nothing is scheduled. *)
Theorem single_job_timeline (s : State) (next : LOD) (ms : nat) :
  let w := run_script [start_job next; wait ms] (idle s) in
  ((ms < 1200)%nat ->
   progress w = Some (Z.min (12 * (Z.of_nat ms / 120)) 100)
   /\ state w = s
   /\ timers w = [interval_timer 0 (120 * (Z.of_nat ms / 120) + 120);
                  timeout_timer 1 1200 next 0])
  /\ ((1200 <= ms)%nat ->
      progress w = None /\ state w = commit_level s next /\ timers w = []).
Proof.
  intros w. unfold w. cbn [run_script fold_left happen].
  rewrite run_single_job. split.
  - intros Hms. rewrite elapse_single_job by lia. cbn [single_job progress state timers].
    rewrite Z.add_0_l. auto.
  - intros Hms. replace ms with (1199 + (1 + (ms - 1200)))%nat by lia.
    rewrite elapse_add, elapse_single_job by lia.
    rewrite elapse_add. cbn [elapse]. change (0 + Z.of_nat 1199) with 1199.
    rewrite elapse_ms_single_job_done.
    rewrite elapse_nothing_scheduled by reflexivity. auto.
Qed.

(** X24. The progress step of the hook,
    [Math.min((p ?? 0) + 12, 100)], and that of the single-file application,
    [step >= 100 ? 100 : step], are the same function; from [null] it gives
    12; on a value between 0 and 100 it gives a value that is no smaller,
    larger unless it was 100 already, at most 100, and either 12 more or
    100. *)
Theorem progress_tick (p : option Z) :
  Monolith.tick p = tick p
  /\ tick None = Some 12
  /\ (forall v, p = Some v -> 0 <= v <= 100 ->
        exists v', tick p = Some v' /\ v <= v' <= 100
                   /\ (v < 100 -> v < v')
                   /\ (v' = v + 12 \/ v' = 100)).
Proof.
  split; [apply Monolith_tick|]. split; [reflexivity|].
  intros v -> Hv. unfold tick. cbn [default from_option]. unfold Datatypes.id.
  eexists. split; [reflexivity|]. lia.
Qed.

(** ** The size label *)

Lemma string_app_inv_tail (a b t : string) : a ++ t = b ++ t -> a = b.
Proof.
  revert b. induction a as [|x a IH]; intros b H.
  - destruct b as [|y b]; [reflexivity|]. exfalso.
    apply (f_equal String.length) in H.
    change (String y b ++ t) with (String y (b ++ t)) in H.
    cbn [String.length] in H. change ("" ++ t) with t in H.
    rewrite string_length_app in H. lia.
  - destruct b as [|y b].
    + exfalso. apply (f_equal String.length) in H.
      change (String x a ++ t) with (String x (a ++ t)) in H.
      cbn [String.length] in H. change ("" ++ t) with t in H.
      rewrite string_length_app in H. lia.
    + change (String x a ++ t) with (String x (a ++ t)) in H.
      change (String y b ++ t) with (String y (b ++ t)) in H.
      injection H as -> H. f_equal. apply IH. exact H.
Qed.

Lemma digits_inj (m n : Z) :
  NilZero.string_of_int (Z.to_int m) = NilZero.string_of_int (Z.to_int n) -> m = n.
Proof.
  intros H.
  apply DecimalZ.to_int_inj.
  assert (Hm : NilZero.int_of_string (NilZero.string_of_int (Z.to_int m))
               = Some (Z.to_int m)).
  { apply NilZero.isi; destruct m; try discriminate;
      cbn; intros [= E]; revert E; apply DecimalPos.Unsigned.to_uint_nonnil. }
  assert (Hn : NilZero.int_of_string (NilZero.string_of_int (Z.to_int n))
               = Some (Z.to_int n)).
  { apply NilZero.isi; destruct n; try discriminate;
      cbn; intros [= E]; revert E; apply DecimalPos.Unsigned.to_uint_nonnil. }
  rewrite H in Hm. congruence.
Qed.

Lemma Math_round_of_Z (n : Z) : Math_round (Number_of_Z n) = n.
Proof. unfold Math_round, Number_of_Z. cbn. lia. Qed.

(** X25. For sizes whose rounding is below 2^53 in magnitude [fmtMB]
    gives a label, and two sizes get the same label exactly when they round
    to the same integer: the label determines the rounded size and hides
    nothing else than the fraction. *)
Theorem fmtMB_label (x y : Number) :
  Z.abs (Math_round x) < 2 ^ 53 -> Z.abs (Math_round y) < 2 ^ 53 ->
  exists lx ly,
    fmtMB x = Some lx /\ fmtMB y = Some ly
    /\ (lx = ly <-> Math_round x = Math_round y).
Proof.
  intros Hx Hy. unfold fmtMB, Number_toString.
  apply Z.ltb_lt in Hx, Hy. rewrite Hx, Hy. cbn.
  eexists _, _. split; [reflexivity|]. split; [reflexivity|]. split.
  - intros H. apply string_app_inv_tail in H. apply digits_inj. exact H.
  - intros ->. reflexivity.
Qed.

Lemma fmtMB_label_witness :
  exists lx ly,
    fmtMB (Number_of_Z 180) = Some lx
    /\ fmtMB {| mant := 361; expo := -1 |} = Some ly
    /\ (lx = ly <-> Math_round (Number_of_Z 180)
                    = Math_round {| mant := 361; expo := -1 |}).
Proof.
  apply (fmtMB_label (Number_of_Z 180) {| mant := 361; expo := -1 |});
    vm_compute; reflexivity.
Defined.

Example fmtMB_examples : fmtMB (Number_of_Z 180) = Some "180 MB"
  /\ fmtMB {| mant := 361; expo := -1 |} = Some "181 MB"
  /\ fmtMB {| mant := -5; expo := -1 |} = Some "-2 MB"
  /\ fmtMB {| mant := -1; expo := -2 |} = Some "0 MB".
Proof. repeat split. Qed.

(** ** Normalisation *)

Local Open Scope Q_scope.

Lemma or_else_nonzero (m d : Q) : ~ d == 0 -> ~ or_else m d == 0.
Proof.
  intros Hd. unfold or_else. destruct (Qeq_bool m 0) eqn:Hm; [exact Hd|].
  apply Qeq_bool_neq. exact Hm.
Qed.

Lemma or_else_zero (m d : Q) : m == 0 -> or_else m d = d.
Proof.
  intros Hm. unfold or_else. rewrite (proj2 (Qeq_bool_iff m 0) Hm). reflexivity.
Qed.

Lemma or_else_keep (m d : Q) : ~ m == 0 -> or_else m d = m.
Proof.
  intros Hm. unfold or_else. destruct (Qeq_bool m 0) eqn:Hb; [|reflexivity].
  apply Qeq_bool_iff in Hb. contradiction.
Qed.

Lemma Math_max3_largest (a b c : Q) :
  a <= c -> b <= c -> Math_max3 a b c == c.
Proof.
  intros Ha Hb. unfold Math_max3. apply Q.max_r. apply Q.max_lub; assumption.
Qed.

(** The component clones, and everything it then does, it does to the
    clone. *)
Lemma GLTFAsset_eq (scene : nat) (h : gmap nat THREE.Object3D)
  (o : THREE.Object3D) :
  h !! scene = Some o ->
  GLTFAsset scene h
  = Some (fresh (dom h), <[fresh (dom h) := normalized o]> h).
Proof.
  intros H. unfold GLTFAsset, skeletonClone. rewrite H. cbv zeta.
  rewrite !alter_insert_eq, lookup_insert_eq. cbv zeta.
  rewrite !alter_insert_eq. reflexivity.
Qed.

(** Normalisation as [GLTFAsset.tsx] does it: the copy is moved by minus the
    centre of the box of the reset graph and scaled, alike along the three
    axes, by 1.5 over the largest extent, a zero extent counting as 1. *)
Lemma GLTFAsset_normalizes (scene : nat) (h : gmap nat THREE.Object3D)
  (o : THREE.Object3D) :
  h !! scene = Some o ->
  let box := THREE.setFromObject (reset o) in
  let s := fitted_scale o in
  exists root h' o',
    GLTFAsset scene h = Some (root, h') /\ h' !! root = Some o'
    /\ THREE.equals (THREE.position o') (THREE.negate (THREE.getCenter box))
    /\ THREE.scale o' = THREE.vec s s s
    /\ THREE.rotation o' = THREE.identity
    /\ quotient TARGET_SIZE (or_else (max_extent (reset o)) 1) = Some s
    /\ (~ max_extent (reset o) == 0 -> s == 1.5 / max_extent (reset o))
    /\ (max_extent (reset o) == 0 -> s == 1.5)
    /\ (THREE.equals (THREE.getSize box) (THREE.vec 2 4 8) -> s == 0.1875).
Proof.
  intros H box s.
  exists (fresh (dom h)), (<[fresh (dom h) := normalized o]> h), (normalized o).
  split; [apply GLTFAsset_eq; exact H|].
  split; [apply lookup_insert_eq|].
  split.
  { destruct o as [p r sc g cs]. unfold THREE.equals, normalized, box, reset.
    cbn [THREE.position THREE.set_scale THREE.set_position THREE.set_rotation
         THREE.negate THREE.sub THREE.vec THREE.x THREE.y THREE.z].
    repeat split; ring. }
  split; [destruct o; reflexivity|].
  split; [destruct o; reflexivity|].
  split.
  { unfold quotient.
    destruct (Qeq_bool (or_else (max_extent (reset o)) 1) 0) eqn:Hz;
      [|reflexivity].
    apply Qeq_bool_iff in Hz. exfalso. revert Hz. apply or_else_nonzero.
    discriminate. }
  split.
  { intros Hm. unfold s, fitted_scale. rewrite (or_else_keep _ _ Hm).
    reflexivity. }
  split.
  { intros Hm. unfold s, fitted_scale. rewrite (or_else_zero _ _ Hm).
    reflexivity. }
  intros Hsize. pose proof Hsize as (Hx & Hy & Hz).
  assert (Hm : max_extent (reset o) == 8).
  { unfold THREE.equals in Hx, Hy, Hz.
    cbn [THREE.vec THREE.x THREE.y THREE.z] in Hx, Hy, Hz.
    unfold max_extent. fold box. cbv zeta.
    rewrite Math_max3_largest; [exact Hz| |]; rewrite ?Hx, ?Hy, Hz;
      apply Qle_bool_iff; reflexivity. }
  unfold s, fitted_scale. rewrite or_else_keep.
  - rewrite Hm. reflexivity.
  - rewrite Hm. discriminate.
Qed.

Example GLTFAsset_block :
  exists h', GLTFAsset 0 (loaded block_2_4_8) = Some (1%nat, h')
    /\ (THREE.scale <$> h' !! 1%nat)
       = Some (THREE.vec (15 # 80) (15 # 80) (15 # 80))
    /\ 15 # 80 == 0.1875.
Proof. eexists. split; [vm_compute; reflexivity|]. split; reflexivity. Qed.

Example GLTFAsset_single_point :
  exists h', GLTFAsset 0 (loaded single_point) = Some (1%nat, h')
    /\ (THREE.scale <$> h' !! 1%nat) = Some (THREE.vec 1.5 1.5 1.5).
Proof. eexists. split; vm_compute; reflexivity. Qed.

(** C6. The [GLTFAsset] of the single-file application divides by the
    largest extent as it is: for the graph of a single point that extent is
    zero and the scale it hands to the renderer is not a finite number, where
    the guarded component gives 1.5. *)
Theorem Monolith_GLTFAsset_zero_extent :
  max_extent single_point == 0
  /\ (exists h', Monolith.GLTFAsset 0 (loaded single_point) = Some (0%nat, None, h'))
  /\ fitted_scale single_point == 1.5.
Proof.
  split; [vm_compute; reflexivity|]. split; [|vm_compute; reflexivity].
  eexists. vm_compute. reflexivity.
Qed.

(** Normalisation as [GLTFAsset.tsx] does it leaves every object that was
    there as it was, the source graph among them; what it returns is a new
    object; and a second consumer of the same source gets the same normalised
    graph as the first. *)
Lemma GLTFAsset_isolated (scene : nat) (h : gmap nat THREE.Object3D)
  (o : THREE.Object3D) :
  h !! scene = Some o ->
  exists root h',
    GLTFAsset scene h = Some (root, h')
    /\ h !! root = None /\ root <> scene
    /\ (forall r, r <> root -> h' !! r = h !! r)
    /\ h' !! scene = Some o
    /\ exists root2 h2,
         GLTFAsset scene h' = Some (root2, h2)
         /\ h2 !! root2 = h' !! root /\ h2 !! root = h' !! root
         /\ h2 !! scene = Some o.
Proof.
  intros H.
  assert (Hfresh : forall m : gmap nat THREE.Object3D, m !! fresh (dom m) = None).
  { intros m. apply not_elem_of_dom. apply is_fresh. }
  assert (Hne : fresh (dom h) <> scene).
  { intros Heq. pose proof (Hfresh h) as Hf. rewrite Heq in Hf. congruence. }
  exists (fresh (dom h)), (<[fresh (dom h) := normalized o]> h).
  split; [apply GLTFAsset_eq; exact H|].
  split; [apply Hfresh|]. split; [exact Hne|].
  split; [intros r Hr; apply lookup_insert_ne; congruence|].
  assert (H' : <[fresh (dom h) := normalized o]> h !! scene = Some o)
    by (rewrite lookup_insert_ne; [exact H|exact Hne]).
  split; [exact H'|].
  set (h' := <[fresh (dom h) := normalized o]> h) in *.
  exists (fresh (dom h')), (<[fresh (dom h') := normalized o]> h').
  split; [apply GLTFAsset_eq; exact H'|].
  assert (Hne2 : fresh (dom h') <> fresh (dom h)).
  { intros Heq. pose proof (Hfresh h') as Hf. rewrite Heq in Hf.
    unfold h' in Hf. rewrite lookup_insert_eq in Hf. discriminate. }
  assert (Hne3 : fresh (dom h') <> scene).
  { intros Heq. pose proof (Hfresh h') as Hf. rewrite Heq in Hf. congruence. }
  split; [|split].
  - rewrite lookup_insert_eq. unfold h'. rewrite lookup_insert_eq. reflexivity.
  - rewrite lookup_insert_ne by exact Hne2. reflexivity.
  - rewrite lookup_insert_ne by exact Hne3. exact H'.
Qed.

(** C7. The [GLTFAsset] of the single-file application works on the loaded
    scene itself: what it returns is the source reference, and the source
    graph's position has changed, from the origin to (-1, -2, -4) for the
    2 x 4 x 8 block; the component that clones leaves the source as it was. *)
Theorem Monolith_GLTFAsset_mutates_source :
  (exists s h',
     Monolith.GLTFAsset 0 (loaded block_2_4_8) = Some (0%nat, s, h')
     /\ (THREE.position <$> h' !! 0%nat) = Some (THREE.vec (-1.0) (-2.0) (-4.0))
     /\ h' !! 0%nat <> loaded block_2_4_8 !! 0%nat)
  /\ (exists root h',
        GLTFAsset 0 (loaded block_2_4_8) = Some (root, h')
        /\ root <> 0%nat
        /\ h' !! 0%nat = loaded block_2_4_8 !! 0%nat).
Proof.
  split.
  - eexists _, _. split; [vm_compute; reflexivity|].
    split; [vm_compute; reflexivity|]. vm_compute. discriminate.
  - destruct (GLTFAsset_isolated 0 (loaded block_2_4_8) block_2_4_8 eq_refl)
      as (root & h' & Hrun & _ & Hne & _ & Hsrc & _).
    exists root, h'. split; [exact Hrun|]. split; [exact Hne|exact Hsrc].
Qed.

(** ** The box of a normalised graph

    What [GLTFAsset] arrives at, in terms of the box of its result.  The
    numbers of the scene graph are rationals here, so the statements are
    those of exact arithmetic. *)

Lemma Object3D_nested_ind (P : THREE.Object3D -> Prop) :
  (forall p r s g cs, Forall P cs -> P (THREE.Object p r s g cs)) ->
  forall o, P o.
Proof.
  intros H. fix IH 1. intros [p r s g cs]. apply H.
  induction cs as [|c cs IHcs]; constructor; [apply IH|exact IHcs].
Qed.

Ltac vec_cases :=
  repeat match goal with
         | v : THREE.Vector3 |- _ => destruct v
         end;
  unfold THREE.equals, scale_then_move, THREE.add, THREE.multiplyScalar,
    THREE.vmin, THREE.vmax, THREE.vec, THREE.sub, THREE.negate in *;
  cbn [THREE.x THREE.y THREE.z] in *.

Lemma affine_min (k t a b a' b' : Q) :
  0 <= k -> a' == t + a * k -> b' == t + b * k ->
  Qmin a' b' == t + Qmin a b * k.
Proof.
  intros Hk -> ->.
  apply (Q.min_mono (fun x => t + x * k)).
  - intros x y Hxy. rewrite Hxy. reflexivity.
  - intros x y Hxy. apply Qplus_le_r. apply Qmult_le_compat_r; assumption.
Qed.

Lemma affine_max (k t a b a' b' : Q) :
  0 <= k -> a' == t + a * k -> b' == t + b * k ->
  Qmax a' b' == t + Qmax a b * k.
Proof.
  intros Hk -> ->.
  apply (Q.max_mono (fun x => t + x * k)).
  - intros x y Hxy. rewrite Hxy. reflexivity.
  - intros x y Hxy. apply Qplus_le_r. apply Qmult_le_compat_r; assumption.
Qed.

Lemma expandByPoint_image (k : Q) (t : THREE.Vector3) (b1 b2 : THREE.Box3)
  (p1 p2 : THREE.Vector3) :
  0 <= k ->
  box_equals b2 (box_image k t b1) ->
  THREE.equals p2 (scale_then_move k t p1) ->
  box_equals (THREE.expandByPoint b2 p2)
    (box_image k t (THREE.expandByPoint b1 p1)).
Proof.
  intros Hk.
  destruct b1 as [[lo1 hi1]|], b2 as [[lo2 hi2]|]; cbn; try tauto.
  intros [Hlo Hhi] Hp. vec_cases.
  destruct Hlo as (?&?&?), Hhi as (?&?&?), Hp as (?&?&?).
  repeat split; (apply affine_min || apply affine_max); assumption.
Qed.

Lemma setFromPoints_image (k : Q) (t : THREE.Vector3)
  (l1 l2 : list THREE.Vector3) :
  0 <= k ->
  Forall2 (fun p1 p2 => THREE.equals p2 (scale_then_move k t p1)) l1 l2 ->
  forall b1 b2,
    box_equals b2 (box_image k t b1) ->
    box_equals (fold_left THREE.expandByPoint l2 b2)
      (box_image k t (fold_left THREE.expandByPoint l1 b1)).
Proof.
  intros Hk. induction 1 as [|p1 p2 l1 l2 Hp _ IH]; intros b1 b2 Hb; [exact Hb|].
  cbn [fold_left]. apply IH. apply expandByPoint_image; assumption.
Qed.

Lemma applyMatrix4_image (k : Q) (t : THREE.Vector3) (b : THREE.Box3)
  (m1 m2 : THREE.Vector3 -> THREE.Vector3) :
  0 <= k ->
  (forall v, THREE.equals (m2 v) (scale_then_move k t (m1 v))) ->
  box_equals (THREE.applyMatrix4 b m2) (box_image k t (THREE.applyMatrix4 b m1)).
Proof.
  intros Hk Hm. destruct b as [[lo hi]|]; [|exact I].
  unfold THREE.applyMatrix4, THREE.setFromPoints.
  apply setFromPoints_image; [exact Hk| |exact I].
  repeat (constructor; [apply Hm|]). constructor.
Qed.

Lemma union_image (k : Q) (t : THREE.Vector3) (a1 a2 b1 b2 : THREE.Box3) :
  0 <= k ->
  box_equals a2 (box_image k t a1) -> box_equals b2 (box_image k t b1) ->
  box_equals (THREE.union a2 b2) (box_image k t (THREE.union a1 b1)).
Proof.
  intros Hk.
  destruct a1 as [[alo1 ahi1]|], a2 as [[alo2 ahi2]|],
           b1 as [[blo1 bhi1]|], b2 as [[blo2 bhi2]|]; cbn; try tauto.
  intros [Halo Hahi] [Hblo Hbhi]. vec_cases.
  destruct Halo as (?&?&?), Hahi as (?&?&?), Hblo as (?&?&?), Hbhi as (?&?&?).
  repeat split; (apply affine_min || apply affine_max); assumption.
Qed.

Lemma expandByObject_image (k : Q) (t : THREE.Vector3) (o : THREE.Object3D) :
  0 <= k ->
  forall (w1 w2 : THREE.Vector3 -> THREE.Vector3) (b1 b2 : THREE.Box3),
    (forall v, THREE.equals (w2 v) (scale_then_move k t (w1 v))) ->
    box_equals b2 (box_image k t b1) ->
    box_equals (THREE.expandByObject w2 o b2)
      (box_image k t (THREE.expandByObject w1 o b1)).
Proof.
  intros Hk.
  induction o as [p r s g cs IH] using Object3D_nested_ind.
  intros w1 w2 b1 b2 Hw Hb. cbn [THREE.expandByObject].
  set (m1 := fun v => w1 (THREE.matrix p r s v)).
  set (m2 := fun v => w2 (THREE.matrix p r s v)).
  assert (Hm : forall v, THREE.equals (m2 v) (scale_then_move k t (m1 v)))
    by (intros v; apply Hw).
  assert (Hb' : box_equals
                  (THREE.union b2 (THREE.applyMatrix4 (THREE.setFromPoints g) m2))
                  (box_image k t
                     (THREE.union b1 (THREE.applyMatrix4 (THREE.setFromPoints g) m1)))).
  { apply union_image; [exact Hk|exact Hb|]. apply applyMatrix4_image; assumption. }
  revert Hb'.
  generalize (THREE.union b1 (THREE.applyMatrix4 (THREE.setFromPoints g) m1)).
  generalize (THREE.union b2 (THREE.applyMatrix4 (THREE.setFromPoints g) m2)).
  clear Hb b1 b2.
  induction IH as [|c cs Hc _ IHcs]; intros b2 b1 Hb; [exact Hb|].
  cbn [fold_left]. apply IHcs. apply Hc; assumption.
Qed.


(** A node's contribution depends on its world matrix, its mesh and its
    children only. *)
Lemma expandByObject_node (w : THREE.Vector3 -> THREE.Vector3)
  (p : THREE.Vector3) (r : THREE.Matrix3) (s : THREE.Vector3)
  (g : list THREE.Vector3) (cs : list THREE.Object3D) (b : THREE.Box3) :
  THREE.expandByObject w (THREE.Object p r s g cs) b
  = fold_left (fun b c => THREE.expandByObject (fun v => w (THREE.matrix p r s v)) c b)
      cs (THREE.union b (THREE.applyMatrix4 (THREE.setFromPoints g)
                           (fun v => w (THREE.matrix p r s v)))).
Proof. reflexivity. Qed.

Lemma children_image (k : Q) (t : THREE.Vector3)
  (m1 m2 : THREE.Vector3 -> THREE.Vector3) (cs : list THREE.Object3D) :
  0 <= k ->
  (forall v, THREE.equals (m2 v) (scale_then_move k t (m1 v))) ->
  forall b1 b2,
    box_equals b2 (box_image k t b1) ->
    box_equals (fold_left (fun b c => THREE.expandByObject m2 c b) cs b2)
      (box_image k t (fold_left (fun b c => THREE.expandByObject m1 c b) cs b1)).
Proof.
  intros Hk Hm. induction cs as [|c cs IH]; intros b1 b2 Hb; [exact Hb|].
  cbn [fold_left]. apply IH. apply expandByObject_image; assumption.
Qed.

(** *** Boxes are well formed *)

Lemma expandByPoint_valid (b : THREE.Box3) (p : THREE.Vector3) :
  box_valid b -> box_valid (THREE.expandByPoint b p).
Proof.
  destruct b as [[lo hi]|]; cbn.
  - intros (Hx & Hy & Hz). destruct lo, hi, p. cbn in *.
    repeat split;
      (eapply Qle_trans; [apply Q.le_min_l|];
       eapply Qle_trans; [|apply Q.le_max_l]; assumption).
  - intros _. repeat split; apply Qle_refl.
Qed.

Lemma setFromPoints_valid (l : list THREE.Vector3) :
  forall b, box_valid b -> box_valid (fold_left THREE.expandByPoint l b).
Proof.
  induction l as [|p l IH]; intros b Hb; [exact Hb|].
  cbn [fold_left]. apply IH. apply expandByPoint_valid. exact Hb.
Qed.

Lemma applyMatrix4_valid (b : THREE.Box3) (m : THREE.Vector3 -> THREE.Vector3) :
  box_valid (THREE.applyMatrix4 b m).
Proof.
  destruct b as [[lo hi]|]; [|exact I].
  unfold THREE.applyMatrix4, THREE.setFromPoints. apply setFromPoints_valid.
  exact I.
Qed.

Lemma union_valid (a b : THREE.Box3) :
  box_valid a -> box_valid b -> box_valid (THREE.union a b).
Proof.
  destruct a as [[alo ahi]|], b as [[blo bhi]|]; cbn; try tauto.
  intros (Hx & Hy & Hz) (Hx' & Hy' & Hz'). destruct alo, ahi, blo, bhi. cbn in *.
  repeat split;
    (eapply Qle_trans; [apply Q.le_min_l|];
     eapply Qle_trans; [|apply Q.le_max_l]; assumption).
Qed.

Lemma expandByObject_valid (o : THREE.Object3D) :
  forall (w : THREE.Vector3 -> THREE.Vector3) (b : THREE.Box3),
    box_valid b -> box_valid (THREE.expandByObject w o b).
Proof.
  induction o as [p r s g cs IH] using Object3D_nested_ind.
  intros w b Hb. rewrite expandByObject_node.
  assert (Hb' : box_valid
                  (THREE.union b
                     (THREE.applyMatrix4 (THREE.setFromPoints g)
                        (fun v => w (THREE.matrix p r s v)))))
    by (apply union_valid; [exact Hb|apply applyMatrix4_valid]).
  revert Hb'. generalize (THREE.union b
                     (THREE.applyMatrix4 (THREE.setFromPoints g)
                        (fun v => w (THREE.matrix p r s v)))).
  clear Hb b. induction IH as [|c cs Hc _ IHcs]; intros b Hb; [exact Hb|].
  cbn [fold_left]. apply IHcs. apply Hc. exact Hb.
Qed.

Lemma max_extent_nonneg (o : THREE.Object3D) : 0 <= max_extent o.
Proof.
  unfold max_extent. cbv zeta.
  pose proof (expandByObject_valid o (fun v => v) None I) as Hv.
  fold (THREE.setFromObject o) in Hv.
  destruct (THREE.setFromObject o) as [[lo hi]|]; cbn in *.
  - destruct Hv as (Hx & _). destruct lo, hi. cbn in *. unfold Math_max3.
    eapply Qle_trans; [|apply Q.le_max_l].
    eapply Qle_trans; [|apply Q.le_max_l].
    unfold Qminus. rewrite <- Qle_minus_iff. exact Hx.
  - unfold Math_max3. cbn. discriminate.
Qed.

Lemma fitted_scale_pos (o : THREE.Object3D) : 0 < fitted_scale o.
Proof.
  unfold fitted_scale. pose proof (max_extent_nonneg (reset o)) as Hm.
  unfold or_else. destruct (Qeq_bool (max_extent (reset o)) 0) eqn:He.
  - reflexivity.
  - apply Qeq_bool_neq in He.
    assert (Hpos : 0 < max_extent (reset o)).
    { apply Qle_lteq in Hm. destruct Hm as [Hm|Hm]; [exact Hm|].
      exfalso. apply He. symmetry. exact Hm. }
    apply Qlt_shift_div_l; [exact Hpos|]. rewrite Qmult_0_l. reflexivity.
Qed.

(** The box of the normalised graph is the image of the box of the reset
    graph under [v -> s * v - c]. *)
Lemma setFromObject_normalized (o : THREE.Object3D) :
  box_equals (THREE.setFromObject (normalized o))
    (box_image (fitted_scale o)
       (THREE.negate (THREE.getCenter (THREE.setFromObject (reset o))))
       (THREE.setFromObject (reset o))).
Proof.
  pose proof (fitted_scale_pos o) as Hs. apply Qlt_le_weak in Hs.
  set (s := fitted_scale o) in *.
  set (c := THREE.getCenter (THREE.setFromObject (reset o))).
  assert (Hn : normalized o
               = THREE.Object (THREE.sub (THREE.vec 0 0 0) c) THREE.identity
                   (THREE.vec s s s) (THREE.geometry o) (THREE.children o))
    by (destruct o; reflexivity).
  assert (Hr : reset o
               = THREE.Object (THREE.vec 0 0 0) THREE.identity (THREE.vec 1 1 1)
                   (THREE.geometry o) (THREE.children o))
    by (destruct o; reflexivity).
  rewrite Hn, Hr. unfold THREE.setFromObject.
  rewrite !expandByObject_node.
  assert (Hm : forall v,
             THREE.equals
               (THREE.matrix (THREE.sub (THREE.vec 0 0 0) c) THREE.identity
                  (THREE.vec s s s) v)
               (scale_then_move s (THREE.negate c)
                  (THREE.matrix (THREE.vec 0 0 0) THREE.identity
                     (THREE.vec 1 1 1) v))).
  { intros v. destruct v as [vx vy vz], c as [cx cy cz].
    unfold THREE.equals, scale_then_move, THREE.matrix, THREE.add,
      THREE.applyMatrix3, THREE.multiply, THREE.multiplyScalar, THREE.dot,
      THREE.identity, THREE.negate, THREE.sub, THREE.vec.
    cbn [THREE.x THREE.y THREE.z THREE.row1 THREE.row2 THREE.row3].
    repeat split; ring. }
  apply children_image; [exact Hs|exact Hm|].
  apply union_image; [exact Hs|exact I|].
  apply applyMatrix4_image; [exact Hs|exact Hm].
Qed.

Lemma Math_max3_scaled (a b c a' b' c' k : Q) :
  0 <= k -> a' == a * k -> b' == b * k -> c' == c * k ->
  Math_max3 a' b' c' == Math_max3 a b c * k.
Proof.
  intros Hk Ha Hb Hc. unfold Math_max3. rewrite Ha, Hb, Hc.
  assert (Hmono : forall x y, Qmax (x * k) (y * k) == Qmax x y * k).
  { intros x y. apply (Q.max_mono (fun x => x * k)).
    - intros u v Huv. rewrite Huv. reflexivity.
    - intros u v Huv. apply Qmult_le_compat_r; assumption. }
  rewrite Hmono, Hmono. reflexivity.
Qed.

(** The box of the normalised graph is the image of the measured box under
    [v -> s * v - c], [c] the measured centre and [s] the fitted scale: its
    sides are the measured sides times [s] and its centre is [(s - 1) * c]. *)
Lemma normalized_box (o : THREE.Object3D) :
  let box := THREE.setFromObject (reset o) in
  let c := THREE.getCenter box in
  let s := fitted_scale o in
  let box' := THREE.setFromObject (normalized o) in
  0 < s
  /\ box_equals box' (box_image s (THREE.negate c) box)
  /\ THREE.equals (THREE.getSize box') (THREE.multiplyScalar (THREE.getSize box) s)
  /\ THREE.equals (THREE.getCenter box') (THREE.multiplyScalar c (s - 1))
  /\ (~ max_extent (reset o) == 0 -> max_extent (normalized o) == TARGET_SIZE)
  /\ (max_extent (reset o) == 0 -> max_extent (normalized o) == 0)
  /\ (THREE.equals (THREE.getCenter box') (THREE.vec 0 0 0)
      <-> THREE.equals c (THREE.vec 0 0 0) \/ s == 1).
Proof.
  intros box c s box'.
  pose proof (fitted_scale_pos o) as Hs. fold s in Hs.
  pose proof (setFromObject_normalized o) as Hb. fold box c s box' in Hb.
  assert (Hsize : THREE.equals (THREE.getSize box')
                    (THREE.multiplyScalar (THREE.getSize box) s)).
  { clearbody box' s. unfold c in Hb. clear c. clearbody box.
    destruct box as [[lo hi]|], box' as [[lo' hi']|]; cbn in Hb; try tauto;
      try (unfold THREE.equals; cbn; repeat split; ring).
    destruct Hb as [Hlo Hhi]. destruct lo, hi, lo', hi'.
    unfold THREE.equals, scale_then_move, THREE.getSize, THREE.getCenter,
      THREE.add, THREE.sub, THREE.multiplyScalar, THREE.negate, THREE.vec in *.
    cbn [THREE.x THREE.y THREE.z] in *.
    destruct Hlo as (H1 & H2 & H3), Hhi as (H4 & H5 & H6).
    rewrite H1, H2, H3, H4, H5, H6. repeat split; ring. }
  assert (Hcenter : THREE.equals (THREE.getCenter box')
                      (THREE.multiplyScalar c (s - 1))).
  { clearbody box' s. unfold c in *. clear c. clearbody box.
    destruct box as [[lo hi]|], box' as [[lo' hi']|]; cbn in Hb; try tauto;
      try (unfold THREE.equals; cbn; repeat split; ring).
    destruct Hb as [Hlo Hhi]. destruct lo, hi, lo', hi'.
    unfold THREE.equals, scale_then_move, THREE.getSize, THREE.getCenter,
      THREE.add, THREE.sub, THREE.multiplyScalar, THREE.negate, THREE.vec in *.
    cbn [THREE.x THREE.y THREE.z] in *.
    destruct Hlo as (H1 & H2 & H3), Hhi as (H4 & H5 & H6).
    rewrite H1, H2, H3, H4, H5, H6. repeat split; ring. }
  assert (Hmax : max_extent (normalized o) == max_extent (reset o) * s).
  { unfold max_extent. cbv zeta. fold box box'.
    destruct Hsize as (Hx & Hy & Hz).
    apply Math_max3_scaled; [apply Qlt_le_weak; exact Hs|exact Hx|exact Hy|exact Hz]. }
  split; [exact Hs|]. split; [exact Hb|]. split; [exact Hsize|].
  split; [exact Hcenter|]. split; [|split].
  - intros Hne. rewrite Hmax. unfold s, fitted_scale.
    rewrite (or_else_keep _ _ Hne). unfold TARGET_SIZE. field. exact Hne.
  - intros Hz. rewrite Hmax, Hz. ring.
  - destruct Hcenter as (Hx & Hy & Hz). unfold THREE.equals.
    rewrite Hx, Hy, Hz. destruct c as [cx cy cz].
    cbn [THREE.multiplyScalar THREE.vec THREE.x THREE.y THREE.z].
    split.
    + intros (H1 & H2 & H3).
      destruct (Qeq_dec s 1) as [E|E]; [right; exact E|left].
      assert (Hne : ~ s - 1 == 0) by (intros H; apply E; rewrite <- (Qplus_0_r 1), <- H; ring).
      repeat split;
        [apply Qmult_integral in H1|apply Qmult_integral in H2
         |apply Qmult_integral in H3]; tauto.
    + intros [(H1 & H2 & H3)|E].
      * rewrite H1, H2, H3. repeat split; ring.
      * rewrite E. repeat split; ring.
Qed.

Example normalized_block_off_centre :
  THREE.equals (THREE.getCenter (THREE.setFromObject (normalized block_2_4_8)))
    (THREE.vec (-0.8125) (-1.625) (-3.25))
  /\ THREE.equals (THREE.getSize (THREE.setFromObject (normalized block_2_4_8)))
       (THREE.vec 0.375 0.75 1.5).
Proof. split; repeat split; vm_compute; reflexivity. Qed.

(** X26. The graph [GLTFAsset] returns, measured again: its box
    is the image of the box the component measured under [v -> s * v - c],
    with [c] the measured centre and [s] the scale; so its sides are the
    measured sides times [s], its largest side is exactly [TARGET_SIZE]
    unless the measured box has no extent at all (then it stays 0), and its
    centre is [(s - 1) * c], which is the origin only if the measured centre
    was the origin already or the scale is 1: subtracting the centre from
    the position before scaling does not centre a scaled graph. *)
Theorem GLTFAsset_fits_box (scene : nat) (h : gmap nat THREE.Object3D)
  (o : THREE.Object3D) :
  h !! scene = Some o ->
  let box := THREE.setFromObject (reset o) in
  let c := THREE.getCenter box in
  let s := fitted_scale o in
  exists root h' o',
    GLTFAsset scene h = Some (root, h') /\ h' !! root = Some o'
    /\ let box' := THREE.setFromObject o' in
       box_equals box' (box_image s (THREE.negate c) box)
       /\ THREE.equals (THREE.getSize box')
            (THREE.multiplyScalar (THREE.getSize box) s)
       /\ THREE.equals (THREE.getCenter box') (THREE.multiplyScalar c (s - 1))
       /\ (~ max_extent (reset o) == 0 -> max_extent o' == TARGET_SIZE)
       /\ (max_extent (reset o) == 0 -> max_extent o' == 0)
       /\ (THREE.equals (THREE.getCenter box') (THREE.vec 0 0 0)
           <-> THREE.equals c (THREE.vec 0 0 0) \/ s == 1).
Proof.
  intros H box c s.
  exists (fresh (dom h)), (<[fresh (dom h) := normalized o]> h), (normalized o).
  split; [apply GLTFAsset_eq; exact H|].
  split; [apply lookup_insert_eq|].
  exact (proj2 (normalized_box o)).
Qed.

Lemma GLTFAsset_fits_box_witness :
  exists root h' o',
    GLTFAsset 0 (loaded block_2_4_8) = Some (root, h') /\ h' !! root = Some o'
    /\ max_extent o' == TARGET_SIZE
    /\ THREE.equals (THREE.getCenter (THREE.setFromObject o'))
         (THREE.multiplyScalar
            (THREE.getCenter (THREE.setFromObject (reset block_2_4_8)))
            (fitted_scale block_2_4_8 - 1)).
Proof.
  destruct (GLTFAsset_fits_box 0 (loaded block_2_4_8) block_2_4_8 eq_refl)
    as (root & h' & o' & H1 & H2 & _ & _ & H3 & H4 & _).
  exists root, h', o'. split; [exact H1|]. split; [exact H2|].
  split; [apply H4; vm_compute; discriminate|exact H3].
Defined.

Lemma reset_transform (o : THREE.Object3D) (p : THREE.Vector3)
  (r : THREE.Matrix3) (sc : THREE.Vector3) :
  reset (THREE.Object p r sc (THREE.geometry o) (THREE.children o)) = reset o.
Proof. destruct o. reflexivity. Qed.

Lemma normalized_transform (o : THREE.Object3D) (p : THREE.Vector3)
  (r : THREE.Matrix3) (sc : THREE.Vector3) :
  normalized (THREE.Object p r sc (THREE.geometry o) (THREE.children o))
  = normalized o.
Proof.
  unfold normalized, fitted_scale. rewrite !reset_transform. reflexivity.
Qed.

(** X27. [GLTFAsset] resets the position, rotation
    and scale of its copy before it measures, so the graph it returns does
    not depend on the transform the loaded root came with: the same source
    with another root transform gives the same normalised graph; and a graph
    that is already normalised is normalised to itself. *)
Theorem GLTFAsset_ignores_root_transform (scene : nat)
  (h : gmap nat THREE.Object3D) (o : THREE.Object3D) (p : THREE.Vector3)
  (r : THREE.Matrix3) (sc : THREE.Vector3) :
  h !! scene = Some o ->
  let moved := THREE.Object p r sc (THREE.geometry o) (THREE.children o) in
  exists root h1 h2,
    GLTFAsset scene h = Some (root, h1)
    /\ GLTFAsset scene (<[scene := moved]> h) = Some (root, h2)
    /\ h1 !! root = Some (normalized o)
    /\ h2 !! root = Some (normalized o)
    /\ normalized (normalized o) = normalized o.
Proof.
  intros H moved.
  assert (Hdom : dom (<[scene := moved]> h) = dom h).
  { apply set_eq. intros k. rewrite dom_insert, elem_of_union, elem_of_singleton.
    split; [intros [->|Hk]; [apply elem_of_dom; eauto|exact Hk]|auto]. }
  exists (fresh (dom h)), (<[fresh (dom h) := normalized o]> h),
    (<[fresh (dom h) := normalized o]> (<[scene := moved]> h)).
  split; [apply GLTFAsset_eq; exact H|]. split.
  - rewrite (GLTFAsset_eq scene (<[scene := moved]> h) moved)
      by apply lookup_insert_eq.
    rewrite Hdom. unfold moved. rewrite normalized_transform. reflexivity.
  - split; [apply lookup_insert_eq|]. split; [apply lookup_insert_eq|].
    destruct o as [p0 r0 s0 g cs].
    exact (normalized_transform (THREE.Object p0 r0 s0 g cs) _ _ _).
Qed.

Lemma GLTFAsset_ignores_root_transform_witness :
  exists root h1 h2,
    GLTFAsset 0 (loaded block_2_4_8) = Some (root, h1)
    /\ GLTFAsset 0
         (<[0%nat := THREE.Object (THREE.vec 5 5 5) THREE.identity
                       (THREE.vec 2 2 2) (THREE.geometry block_2_4_8)
                       (THREE.children block_2_4_8)]> (loaded block_2_4_8))
       = Some (root, h2)
    /\ h1 !! root = h2 !! root.
Proof.
  destruct (GLTFAsset_ignores_root_transform 0 (loaded block_2_4_8) block_2_4_8
              (THREE.vec 5 5 5) THREE.identity (THREE.vec 2 2 2) eq_refl)
    as (root & h1 & h2 & H1 & H2 & H3 & H4 & _).
  exists root, h1, h2. split; [exact H1|]. split; [exact H2|].
  rewrite H3, H4. reflexivity.
Defined.
